(** * fishstock-alerts: the ingestion and matching pipeline

    A shallow embedding of the backend of the repository
    ([dwrParser.js], [coParser.js], [runPollOnce.js], [notify.js], [db.js]),
    of the routes of its server ([index.js] and the search and dropdown
    routes) and of the script that polls once, and the properties of its
    specification, proved over that embedding.

    Modelling conventions
    - A JavaScript string is a [string]: a sequence of bytes, text being in
      UTF-8.  The character classes [\d], [\w] and the literals of the
      regular expressions used by the code are ASCII-only in JavaScript too;
      [\s], [trim], [toUpperCase] and [toLowerCase] are given on the ASCII
      range, every other byte being neither a space nor a letter.
    - A regular expression is embedded by its matcher at one position
      (continuation passing, one continuation per backtracking point) and a
      generic driver that walks the subject from left to right, as
      [String.prototype.match], [replace] and [RegExp.prototype.test] do.
    - The numbers the parsers produce are non-negative decimals.  A count is
      an [N]; a length is a [decimal] (integer part and fraction digits).
      They coincide with IEEE doubles and their shortest printing while the
      text has at most 15 significant digits and the value is at least 1e-6
      (or zero).
    - [new Date().toISOString()] is a clock handed to the parsers; the
      network fetch and the push transport are arguments of the poll cycle.
    - The SQLite tables are lists of rows in rowid order. *)

From Stdlib Require Import Bool List Arith NArith Lia Ascii String.
From Stdlib Require Import DecimalString DecimalN.
From Stdlib Require Import ZArith Sorted Permutation.
From Stdlib Require OrdersEx.
Import ListNotations.
Open Scope string_scope.

(** ** Characters and the string methods of the standard library *)

Definition code (c : ascii) : N := N_of_ascii c.

Definition isDigit (c : ascii) : bool := ((48 <=? code c) && (code c <=? 57))%N.
Definition isUpper (c : ascii) : bool := ((65 <=? code c) && (code c <=? 90))%N.
Definition isLower (c : ascii) : bool := ((97 <=? code c) && (code c <=? 122))%N.

(** [\s] *)
Definition isSpace (c : ascii) : bool :=
  (((9 <=? code c) && (code c <=? 13)) || (code c =? 32))%N.

(** [\w] *)
Definition isWord (c : ascii) : bool :=
  isDigit c || isUpper c || isLower c || (code c =? 95)%N.

Definition upperChar (c : ascii) : ascii :=
  if isLower c then ascii_of_N (code c - 32) else c.
Definition lowerChar (c : ascii) : ascii :=
  if isUpper c then ascii_of_N (code c + 32) else c.

Fixpoint mapString (f : ascii -> ascii) (s : string) : string :=
  match s with
  | "" => ""
  | String c r => String (f c) (mapString f r)
  end.

Definition toUpperCase : string -> string := mapString upperChar.
Definition toLowerCase : string -> string := mapString lowerChar.

Fixpoint filterString (p : ascii -> bool) (s : string) : string :=
  match s with
  | "" => ""
  | String c r => if p c then String c (filterString p r) else filterString p r
  end.

Fixpoint forallb_string (p : ascii -> bool) (s : string) : bool :=
  match s with
  | "" => true
  | String c r => p c && forallb_string p r
  end.

Fixpoint trimStart (s : string) : string :=
  match s with
  | "" => ""
  | String c r => if isSpace c then trimStart r else s
  end.

(** The text without its trailing white space. *)
Fixpoint trimEnd (s : string) : string :=
  match s with
  | "" => ""
  | String c r =>
      match trimEnd r with
      | "" => if isSpace c then "" else String c ""
      | t => String c t
      end
  end.

Definition trim (s : string) : string := trimEnd (trimStart s).

(** JavaScript truthiness of a string: [!s] is [isEmpty s]. *)
Definition isEmpty (s : string) : bool :=
  match s with "" => true | _ => false end.

Fixpoint drop (n : nat) (s : string) : string :=
  match n, s with
  | O, _ => s
  | S k, String _ r => drop k r
  | S _, "" => ""
  end.

Definition take (n : nat) (s : string) : string := substring 0 n s.

(** [s.padStart(n, c)] for a one-character pad string. *)
Definition padStart (n : nat) (c : ascii) (s : string) : string :=
  string_of_list_ascii (repeat c (n - length s)) ++ s.

(** [pat] in lower case is a prefix of [s] up to the case of letters: the
    match of a literal under the [i] flag. *)
Fixpoint prefix_ci (pat s : string) : bool :=
  match pat, s with
  | "", _ => true
  | String p pr, String c r => Ascii.eqb (lowerChar c) p && prefix_ci pr r
  | String _ _, "" => false
  end.

(** Position of the first occurrence of [pat] (any case) in [s]. *)
Fixpoint find_ci (pat s : string) : option nat :=
  if prefix_ci pat s then Some 0
  else match s with
       | "" => None
       | String _ r => option_map S (find_ci pat r)
       end.

(** [s.indexOf(pat)], [None] for -1. *)
Fixpoint indexOf (pat s : string) : option nat :=
  if prefix pat s then Some 0
  else match s with
       | "" => None
       | String _ r => option_map S (indexOf pat r)
       end.

(** [a.includes(x)] on an array of strings. *)
Definition includes (x : string) (a : list string) : bool :=
  existsb (String.eqb x) a.

(** [s.split("\n")]: the pieces between line feeds. *)
Fixpoint splitLines (s : string) : list string :=
  match s with
  | "" => [""]
  | String c r =>
      if Ascii.eqb c "010" then "" :: splitLines r
      else match splitLines r with
           | [] => [String c ""]
           | l :: ls => String c l :: ls
           end
  end.

(** [a.join(sep)] *)
Definition join (sep : string) (a : list string) : string := concat sep a.

(** ** Regular expressions: the driver *)

Section Driver.
(** The length of the match that begins at the head of the input. *)
Variable matchAt : string -> option nat.

(** [s.match(/re/g)]: the successive non-overlapping matches, leftmost
    first; [skip] counts the characters of the current match that are
    still to be passed. *)
Fixpoint matchAllFrom (skip : nat) (s : string) : list string :=
  match s with
  | "" => []
  | String _ r =>
      match skip with
      | S k => matchAllFrom k r
      | O =>
          match matchAt s with
          | Some (S n) => take (S n) s :: matchAllFrom n r
          | _ => matchAllFrom 0 r
          end
      end
  end.

Definition matchAll (s : string) : list string := matchAllFrom 0 s.

(** [s.replace(/re/g, rep)] *)
Fixpoint replaceAllFrom (rep : string) (skip : nat) (s : string) : string :=
  match s with
  | "" => ""
  | String c r =>
      match skip with
      | S k => replaceAllFrom rep k r
      | O =>
          match matchAt s with
          | Some (S n) => rep ++ replaceAllFrom rep n r
          | _ => String c (replaceAllFrom rep 0 r)
          end
      end
  end.

Definition replaceAll (rep s : string) : string := replaceAllFrom rep 0 s.
End Driver.

(** ** SHA-1 (FIPS 180-4), as [crypto.createHash("sha1")] computes it *)

Module SHA1.
Local Open Scope N_scope.

Definition mask32 : N := 0xFFFFFFFF.
Definition add32 (a b : N) : N := N.land (a + b) mask32.
Definition rotl (n x : N) : N :=
  N.land (N.lor (N.shiftl x n) (N.shiftr x (32 - n))) mask32.
Definition not32 (x : N) : N := N.lxor x mask32.

Definition f (t : nat) (b c d : N) : N :=
  if (t <? 20)%nat then N.lor (N.land b c) (N.land (not32 b) d)
  else if (t <? 40)%nat then N.lxor b (N.lxor c d)
  else if (t <? 60)%nat then
    N.lor (N.land b c) (N.lor (N.land b d) (N.land c d))
  else N.lxor b (N.lxor c d).

Definition K (t : nat) : N :=
  if (t <? 20)%nat then 0x5A827999
  else if (t <? 40)%nat then 0x6ED9EBA1
  else if (t <? 60)%nat then 0x8F1BBCDC
  else 0xCA62C1D6.

(** Big-endian bytes of [x], [n] of them. *)
Fixpoint be_bytes (n : nat) (x : N) : list N :=
  match n with
  | O => []
  | S k => N.land (N.shiftr x (8 * N.of_nat k)) 0xFF :: be_bytes k x
  end.

Definition pad (msg : list N) : list N :=
  let len := List.length msg in
  let zeros := ((64 + 55 - len mod 64) mod 64)%nat in
  msg ++ [0x80] ++ repeat 0 zeros ++ be_bytes 8 (8 * N.of_nat len).

Fixpoint words (fuel : nat) (bs : list N) : list N :=
  match fuel, bs with
  | S k, b0 :: b1 :: b2 :: b3 :: r =>
      (N.shiftl b0 24 + N.shiftl b1 16 + N.shiftl b2 8 + b3) :: words k r
  | _, _ => []
  end.

Fixpoint blocks (fuel : nat) (ws : list N) : list (list N) :=
  match fuel, ws with
  | O, _ => []
  | _, [] => []
  | S k, _ => firstn 16 ws :: blocks k (skipn 16 ws)
  end.

(** The message schedule, newest word first. *)
Fixpoint expand (n : nat) (ws : list N) : list N :=
  match n with
  | O => ws
  | S k =>
      let w := rotl 1 (N.lxor (nth 2 ws 0)
                        (N.lxor (nth 7 ws 0)
                           (N.lxor (nth 13 ws 0) (nth 15 ws 0)))) in
      expand k (w :: ws)
  end.

Definition schedule (block : list N) : list N :=
  rev (expand 64 (rev block)).

Definition state : Type := N * N * N * N * N.

Fixpoint rounds (t : nat) (ws : list N) (st : state) : state :=
  match ws with
  | [] => st
  | w :: r =>
      let '(a, b, c, d, e) := st in
      let temp := add32 (add32 (add32 (add32 (rotl 5 a) (f t b c d)) e) (K t)) w in
      rounds (S t) r (temp, a, rotl 30 b, c, d)
  end.

Definition compress (h : state) (block : list N) : state :=
  let '(a, b, c, d, e) := rounds 0 (schedule block) h in
  let '(h0, h1, h2, h3, h4) := h in
  (add32 h0 a, add32 h1 b, add32 h2 c, add32 h3 d, add32 h4 e).

Definition init : state :=
  (0x67452301, 0xEFCDAB89, 0x98BADCFE, 0x10325476, 0xC3D2E1F0).

Definition hexDigit (x : N) : ascii :=
  if x <? 10 then ascii_of_N (48 + x) else ascii_of_N (87 + x).

Fixpoint hex (n : nat) (x : N) : string :=
  match n with
  | O => ""
  | S k => String (hexDigit (N.land (N.shiftr x (4 * N.of_nat k)) 0xF)) (hex k x)
  end.

Definition digest (s : string) : string :=
  let bs := pad (map N_of_ascii (list_ascii_of_string s)) in
  let ws := words (List.length bs) bs in
  let '(h0, h1, h2, h3, h4) :=
    fold_left compress (blocks (List.length ws) ws) init in
  hex 8 h0 ++ hex 8 h1 ++ hex 8 h2 ++ hex 8 h3 ++ hex 8 h4.
End SHA1.

(** [sha1] of both parsers: the hex digest of the text. *)
Definition sha1 (s : string) : string := SHA1.digest s.

(** ** Regular expressions of the parsers *)

(** [/OPEN[\s\S]*?CLOSE/i] at one position: the literal [open], then the
    shortest stretch of any characters that is followed by [close]. *)
Definition spanAt (open close s : string) : option nat :=
  if prefix_ci open s then
    match find_ci close (drop (length open) s) with
    | Some k => Some (length open + k + length close)
    | None => None
    end
  else None.

(** [/<tr[\s\S]*?<\/tr>/gi] and [/<td[\s\S]*?<\/td>/gi] *)
Definition trAt : string -> option nat := spanAt "<tr" "</tr>".
Definition tdAt : string -> option nat := spanAt "<td" "</td>".

(** [/<script[\s\S]*?<\/script>/gi] and [/<style[\s\S]*?<\/style>/gi] *)
Definition scriptAt : string -> option nat := spanAt "<script" "</script>".
Definition styleAt : string -> option nat := spanAt "<style" "</style>".

(** Number of leading characters of [s] that satisfy [p]. *)
Fixpoint countWhile (p : ascii -> bool) (s : string) : nat :=
  match s with
  | "" => 0
  | String c r => if p c then S (countWhile p r) else 0
  end.

(** [/<[^>]+>/g]: [<], one or more characters other than [>], then [>]. *)
Definition tagAt (s : string) : option nat :=
  match s with
  | String "<" r =>
      let k := countWhile (fun c => negb (Ascii.eqb c ">")) r in
      match k, drop k r with
      | S _, String ">" _ => Some (k + 2)
      | _, _ => None
      end
  | _ => None
  end.

(** [/\s+/g] *)
Definition spacesAt (s : string) : option nat :=
  match countWhile isSpace s with
  | O => None
  | n => Some n
  end.

(** [\d{1,2}], greedy: two digits first, one digit when what follows two
    digits does not match. *)
Definition digits12 {A : Type} (s : string)
    (k : string -> string -> option A) : option A :=
  match s with
  | String a r =>
      if isDigit a then
        match
          match r with
          | String b r' => if isDigit b then k (String a (String b "")) r' else None
          | "" => None
          end
        with
        | Some x => Some x
        | None => k (String a "") r
        end
      else None
  | "" => None
  end.

(** [\d{4}] *)
Definition digits4 {A : Type} (s : string)
    (k : string -> string -> option A) : option A :=
  match s with
  | String a (String b (String c (String d r))) =>
      if isDigit a && isDigit b && isDigit c && isDigit d
      then k (String a (String b (String c (String d "")))) r
      else None
  | _ => None
  end.

(** One literal character. *)
Definition lit {A : Type} (c : ascii) (s : string)
    (k : string -> option A) : option A :=
  match s with
  | String a r => if Ascii.eqb a c then k r else None
  | "" => None
  end.

(** [/(\d{1,2})\/(\d{1,2})\/(\d{4})/] at one position: the three groups
    and the text after the match. *)
Definition dateAt (s : string) : option (string * string * string * string) :=
  digits12 s (fun m r1 =>
  lit "/" r1 (fun r2 =>
  digits12 r2 (fun d r3 =>
  lit "/" r3 (fun r4 =>
  digits4 r4 (fun y r5 => Some (m, d, y, r5)))))).

(** [s.match(re)] without the [g] flag: the leftmost match. *)
Fixpoint dateSearch (s : string) : option (string * string * string) :=
  match dateAt s with
  | Some (m, d, y, _) => Some (m, d, y)
  | None =>
      match s with
      | "" => None
      | String _ r => dateSearch r
      end
  end.

(** ** Numbers *)

(** A non-negative decimal: the integer part and the digits of the
    fraction, without trailing zeros. *)
Record decimal : Type := { int_part : N; frac : string }.

Definition digitValue (c : ascii) : N := code c - 48.

Definition digitsValue (s : string) : N :=
  fold_left (fun acc c => 10 * acc + digitValue c)%N (list_ascii_of_string s) 0%N.

Definition spanDigits (s : string) : string * string :=
  let k := countWhile isDigit s in (take k s, drop k s).

Fixpoint stripTrailingZeros (s : string) : string :=
  match s with
  | "" => ""
  | String c r =>
      match stripTrailingZeros r with
      | "" => if Ascii.eqb c "0" then "" else String c ""
      | t => String c t
      end
  end.

(** [parseInt(s, 10)] on a text of digits; [None] is NaN.  The count is
    the integer the digits write; the code holds the double nearest to it,
    which is that integer up to 2^53. *)
Definition parseInt (s : string) : option N :=
  if isEmpty s then None else Some (digitsValue s).

(** [parseFloat(s)] on a text of digits and dots: the longest prefix of the
    shape [digits], [digits.], [digits.digits] or [.digits]; [None] is NaN. *)
Definition parseFloat (s : string) : option decimal :=
  let '(i, r) := spanDigits s in
  let f := match r with
           | String "." r' => fst (spanDigits r')
           | _ => ""
           end in
  if isEmpty i && isEmpty f then None
  else Some {| int_part := digitsValue i; frac := stripTrailingZeros f |}.

(** [String(n)] for a count: the plain decimal digits, as the code prints
    the doubles that are integers below 10^21 and exact. *)
Definition stringOfN (n : N) : string := NilEmpty.string_of_uint (N.to_uint n).

(** [String(x)] for a decimal: plain decimal digits, as the code prints a
    double of at most 15 significant digits that is at least 0.000001. *)
Definition stringOfDecimal (x : decimal) : string :=
  stringOfN (int_part x) ++ (if isEmpty (frac x) then "" else "." ++ frac x).

(** Truthiness of a number that may be [null]: neither [null] nor zero. *)
Definition truthyN (q : option N) : bool :=
  match q with
  | Some n => negb (n =? 0)%N
  | None => false
  end.

Definition truthyDecimal (x : option decimal) : bool :=
  match x with
  | Some d => negb ((int_part d =? 0)%N && isEmpty (frac d))
  | None => false
  end.

(** ** dwrParser.js *)

Record event : Type := {
  id : string;
  water_name : string;
  county : string;
  species : string;
  quantity : option N;
  avg_length : option decimal;
  date_stocked : string;
  first_seen_at : string
}.

Definition stripTags (html : string) : string :=
  trim
    (replaceAll spacesAt " "
       (replaceAll tagAt " "
          (replaceAll styleAt ""
             (replaceAll scriptAt "" html)))).

Definition normalizeDate (s : string) : string :=
  match dateSearch s with
  | None => ""
  | Some (m, d, y) => y ++ "-" ++ padStart 2 "0" m ++ "-" ++ padStart 2 "0" d
  end.

(** The text of an optional number inside a template string:
    [Number.isFinite(x) ? x : ""]. *)
Definition textOfQuantity (q : option N) : string :=
  match q with Some n => stringOfN n | None => "" end.
Definition textOfLength (x : option decimal) : string :=
  match x with Some d => stringOfDecimal d | None => "" end.

(** The fingerprint of the tabular parser. *)
Definition dwrFingerprint (water_name county species : string)
    (quantity : option N) (avg_length : option decimal)
    (date_stocked : string) : string :=
  water_name ++ "|" ++ county ++ "|" ++ species ++ "|"
  ++ textOfQuantity quantity ++ "|"
  ++ textOfLength avg_length ++ "|"
  ++ date_stocked.

(** The body of the loop over the rows: [None] is [continue], [Some e]
    is [events.push(e)]; [now] is the clock at the push. *)
Definition parseRow (now : string) (row : string) : option event :=
  let tds := matchAll tdAt row in
  if (List.length tds <? 6)%nat then None
  else
    let cells := map stripTags tds in
    let water_name := nth 0 cells "" in
    let county := nth 1 cells "" in
    let species := nth 2 cells "" in
    let quantity := parseInt (filterString isDigit (nth 3 cells "")) in
    let avg_length :=
      parseFloat (filterString (fun c => isDigit c || Ascii.eqb c ".") (nth 4 cells "")) in
    let date_stocked := normalizeDate (nth 5 cells "") in
    if isEmpty water_name || isEmpty county || isEmpty species
       || isEmpty date_stocked
    then None
    else
      let fingerprint :=
        dwrFingerprint water_name county species quantity avg_length date_stocked in
      Some {| id := sha1 fingerprint;
              water_name := water_name;
              county := county;
              species := species;
              quantity := quantity;
              avg_length := avg_length;
              date_stocked := date_stocked;
              first_seen_at := now |}.

(** The loop; the row of index [k] reads the clock [now k]. *)
Fixpoint parseRows (now : nat -> string) (k : nat) (rows : list string)
  : list event :=
  match rows with
  | [] => []
  | row :: rest =>
      match parseRow (now k) row with
      | Some e => e :: parseRows now (S k) rest
      | None => parseRows now (S k) rest
      end
  end.

(** [events.filter((e) => (seen.has(e.id) ? false : (seen.add(e.id), true)))] *)
Fixpoint dedupFrom (seen : list string) (events : list event) : list event :=
  match events with
  | [] => []
  | e :: rest =>
      if includes (id e) seen then dedupFrom seen rest
      else e :: dedupFrom (id e :: seen) rest
  end.

Definition dedupById (events : list event) : list event := dedupFrom [] events.

Definition parseDwrFishStockingHtml (now : nat -> string) (html : string)
  : list event :=
  let rowMatches := matchAll trAt html in
  dedupById (parseRows now 0 rowMatches).

(** A table row with the given cell texts, for the examples. *)
Definition tableRow (cells : list string) : string :=
  "<tr>" ++ concat "" (map (fun c => "<td>" ++ c ++ "</td>") cells) ++ "</tr>".

Definition blueLakeRow : string :=
  tableRow ["Blue Lake"; "Wasatch"; "Rainbow Trout"; "1,200"; "10.5"; "3/4/2026"].

(** ** coParser.js *)

Definition headChar (s : string) : option ascii :=
  match s with "" => None | String c _ => Some c end.

Fixpoint lastChar (s : string) : option ascii :=
  match s with
  | "" => None
  | String c "" => Some c
  | String _ r => lastChar r
  end.

Definition isWordOpt (c : option ascii) : bool :=
  match c with Some x => isWord x | None => false end.

(** [\b] between the character [prev] and the head of [s]. *)
Definition wordBoundary (prev : option ascii) (s : string) : bool :=
  xorb (isWordOpt prev) (isWordOpt (headChar s)).

(** [/\b\d{1,2}\/\d{1,2}\/\d{4}\b/] at one position, [prev] being the
    character before it. *)
Definition boundedDateAt (prev : option ascii) (s : string) : bool :=
  wordBoundary prev s &&
  match
    digits12 s (fun m r1 =>
    lit "/" r1 (fun r2 =>
    digits12 r2 (fun d r3 =>
    lit "/" r3 (fun r4 =>
    digits4 r4 (fun y r5 =>
      if wordBoundary (lastChar y) r5 then Some tt else None)))))
  with
  | Some _ => true
  | None => false
  end.

Fixpoint boundedDateFrom (prev : option ascii) (s : string) : bool :=
  boundedDateAt prev s ||
  match s with
  | "" => false
  | String c r => boundedDateFrom (Some c) r
  end.

(** [isDate]: the test of the bounded pattern anywhere in the text. *)
Definition isDate (x : string) : bool := boundedDateFrom None x.

Definition bad : list string :=
  [ "trout stocking report"; "body of water"; "region"; "report date";
    "link"; "atlas"; "atlas+"; "view stocking report archive" ].

Definition clean (s : string) : string := trim s.
Definition isBad (s : string) : bool := includes (toLowerCase (clean s)) bad.

(** The normalizeDate of coParser.js: [String(s || "")] is the text itself. *)
Definition coNormalizeDate (s : string) : string :=
  match dateSearch s with
  | None => ""
  | Some (m, d, y) => y ++ "-" ++ padStart 2 "0" m ++ "-" ++ padStart 2 "0" d
  end.

(** The fingerprint of the free-text parser. *)
Definition coFingerprint (water_name county species date_stocked : string)
  : string :=
  "CO|" ++ water_name ++ "|" ++ county ++ "|" ++ species ++ "|" ++ date_stocked.

(** One window of the walk: the three lines at [i], [i + 1], [i + 2].
    [None] is [continue]. *)
Definition coTriple (now : string) (l0 l1 l2 : string) : option event :=
  let a := clean l0 in
  let b := clean l1 in
  let c := clean l2 in
  if isEmpty a || isEmpty b || isEmpty c then None
  else if isBad a || isBad b || isBad c then None
  else if isDate a || isDate b || negb (isDate c) then None
  else
    let water_name := a in
    let region := b in
    let date_stocked := coNormalizeDate c in
    if isEmpty date_stocked then None
    else
      let county := toUpperCase region in
      let species := "TROUT" in
      Some {| id := sha1 (coFingerprint water_name county species date_stocked);
              water_name := water_name;
              county := county;
              species := species;
              quantity := None;
              avg_length := None;
              date_stocked := date_stocked;
              first_seen_at := now |}.

(** The loop [for (let i = 0; i < lines.length - 2; i++)], on the lines
    from index [i] on: a pushed event ends with [i += 2] before the [i++]
    of the loop, a [continue] leaves the [i++] alone. *)
Fixpoint coWalk (now : nat -> string) (i : nat) (lines : list string)
  : list event :=
  match lines with
  | l0 :: ((l1 :: l2 :: rest) as tl) =>
      match coTriple (now i) l0 l1 l2 with
      | Some e => e :: coWalk now (i + 3) rest
      | None => coWalk now (S i) tl
      end
  | _ => []
  end.

(** [/<\/(tr|p|div|li|h\d|section|article)>/gi] *)
Definition closingTagAt (s : string) : option nat :=
  if prefix_ci "</" s then
    let r := drop 2 s in
    let alt (name : string) := prefix_ci (name ++ ">") r in
    if alt "tr" then Some 5
    else if alt "p" then Some 4
    else if alt "div" then Some 6
    else if alt "li" then Some 5
    else if
      match r with
      | String h (String d (String ">" _)) =>
          Ascii.eqb (lowerChar h) "h" && isDigit d
      | _ => false
      end
    then Some 5
    else if alt "section" then Some 10
    else if alt "article" then Some 10
    else None
  else None.

(** [/<br\s*\/?>/gi] *)
Definition brAt (s : string) : option nat :=
  if prefix_ci "<br" s then
    let r := drop 3 s in
    let k := countWhile isSpace r in
    match drop k r with
    | String "/" (String ">" _) => Some (3 + k + 2)
    | String ">" _ => Some (3 + k + 1)
    | _ => None
    end
  else None.

(** [/[ \t\r]+/g] *)
Definition blanksAt (s : string) : option nat :=
  match
    countWhile (fun c => Ascii.eqb c " " || Ascii.eqb c "009" || Ascii.eqb c "013") s
  with
  | O => None
  | n => Some n
  end.

(** [/\n\s+/g] *)
Definition newlineSpacesAt (s : string) : option nat :=
  match s with
  | String "010" r =>
      match countWhile isSpace r with
      | O => None
      | n => Some (S n)
      end
  | _ => None
  end.

(** [/\n{2,}/g] *)
Definition newlinesAt (s : string) : option nat :=
  match countWhile (fun c => Ascii.eqb c "010") s with
  | O | 1 => None
  | n => Some n
  end.

Definition newline : string := String "010" "".

Definition extractText (html : string) : string :=
  trim
    (replaceAll newlinesAt newline
       (replaceAll newlineSpacesAt newline
          (replaceAll blanksAt " "
             (replaceAll tagAt " "
                (replaceAll brAt newline
                   (replaceAll closingTagAt newline
                      (replaceAll styleAt " "
                         (replaceAll scriptAt " " html)))))))).

Definition columnLabels : list string :=
  [ "body of water"; "region"; "report date"; "link"; "atlas"; "atlas+" ].

(** The lines of the report section, labels removed. *)
Definition sectionLines (section : string) : list string :=
  filter (fun l => negb (includes (toLowerCase l) columnLabels))
    (filter (fun l => negb (isEmpty l))
       (map trim (splitLines section))).

(** fetchColoradoEvents after the page has been fetched. *)
Definition coEventsOfHtml (now : nat -> string) (html : string) : list event :=
  let text := extractText html in
  match indexOf "trout stocking report" (toLowerCase text) with
  | None => []
  | Some startIdx =>
      let tail := drop startIdx text in
      let section :=
        match indexOf "view stocking report archive" (toLowerCase tail) with
        | Some (S endIdx) => take (S endIdx) tail
        | _ => tail
        end in
      dedupById (coWalk now 0 (sectionLines section))
  end.

(** The outcome of a call that may throw. *)
Inductive result (A : Type) : Type :=
| Ok (a : A)
| Throw (msg : string).
Arguments Ok {A} a.
Arguments Throw {A} msg.

(** What [fetch] resolves to. *)
Record response : Type := { ok : bool; status : N; text : string }.

Definition fetchColoradoEvents (POLL_URL_CO : option string)
    (fetch : string -> result response) (now : nat -> string)
  : result (list event) :=
  match POLL_URL_CO with
  | None => Throw "Missing POLL_URL_CO in env"
  | Some url =>
      if isEmpty url then Throw "Missing POLL_URL_CO in env"
      else
        match fetch url with
        | Throw msg => Throw msg
        | Ok res =>
            if negb (ok res) then Throw ("CO fetch failed: " ++ stringOfN (status res))
            else Ok (coEventsOfHtml now (text res))
        end
  end.

Definition misalignedLines : list string :=
  [ "Blue Lake"; "Wasatch"; "3/4/2026"; "Body of Water";
    "Green Lake"; "Summit"; "3/5/2026" ].

(** ** notify.js *)

Record subscription : Type := {
  sub_id : N;
  expo_push_token : string;
  counties : list string;
  sub_species : list string;
  waters : list string
}.

Record notification : Type := {
  n_title : string;
  n_body : string;
  n_eventId : string
}.

Record message : Type := {
  to : string;
  sound : string;
  title : string;
  body : string;
  data_eventId : string
}.

(** [n.toLocaleString()] of a count in the en-US locale: groups of three
    digits separated by commas. *)
Fixpoint groupThousands (digits : string) : string :=
  match digits with
  | "" => ""
  | String c r =>
      String c ((if (0 <? length r)%nat && (length r mod 3 =? 0)%nat then "," else "")
                ++ groupThousands r)
  end.

Definition toLocaleString (n : N) : string := groupThousands (stringOfN n).

Definition dquote : string := String "034" "".

Definition formatNotification (e : event) : notification :=
  let qty :=
    if truthyN (quantity e)
    then toLocaleString (match quantity e with Some n => n | None => 0%N end) ++ " fish"
    else "Fish stocked" in
  let len :=
    if truthyDecimal (avg_length e)
    then " • " ++ textOfLength (avg_length e) ++ dquote ++ " avg"
    else "" in
  {| n_title := "Stocked: " ++ species e;
     n_body := water_name e ++ " (" ++ county e ++ ") — " ++ qty ++ len
               ++ " — " ++ date_stocked e;
     n_eventId := id e |}.

Definition matchesSubscription (e : event) (sub : subscription) : bool :=
  let evCounty := trim (toUpperCase (county e)) in
  let evSpecies := trim (toUpperCase (species e)) in
  let evWater := trim (toUpperCase (water_name e)) in
  let subCounties := map (fun x => trim (toUpperCase x)) (counties sub) in
  let subSpecies := map (fun x => trim (toUpperCase x)) (sub_species sub) in
  let subWaters := map (fun x => trim (toUpperCase x)) (waters sub) in
  let countyOk := (List.length subCounties =? 0)%nat || includes evCounty subCounties in
  let speciesOk := (List.length subSpecies =? 0)%nat || includes evSpecies subSpecies in
  let waterOk := (List.length subWaters =? 0)%nat || includes evWater subWaters in
  countyOk && speciesOk && waterOk.

(** What the push service answers. *)
Record pushResponse : Type := { push_ok : bool; push_status : N; push_json : string }.

Record sendResult : Type := { sent : nat; sent_response : option string }.

Definition sendExpoPushMessages (post : list message -> result pushResponse)
    (messages : list message) : result sendResult :=
  match messages with
  | [] => Ok {| sent := 0; sent_response := None |}
  | _ =>
      match post messages with
      | Throw msg => Throw msg
      | Ok res =>
          if negb (push_ok res)
          then Throw ("Expo push failed: " ++ stringOfN (push_status res)
                      ++ " " ++ push_json res)
          else Ok {| sent := List.length messages;
                     sent_response := Some (push_json res) |}
      end
  end.

(** ** db.js *)

(** The two tables; the JSON columns of a subscription are kept decoded. *)
Record db : Type := {
  stock_events : list event;
  subscriptions : list subscription
}.

Definition hasId (i : string) (rows : list event) : bool :=
  existsb (fun r => String.eqb (id r) i) rows.

(** [INSERT OR IGNORE INTO stock_events]: the new table and [info.changes]. *)
Definition insertOrIgnore (e : event) (rows : list event) : list event * nat :=
  if hasId (id e) rows then (rows, 0) else ((rows ++ [e])%list, 1).

(** The transaction: every event of the batch in turn. *)
Fixpoint tx (evs : list event) (rows : list event) (inserted : nat)
  : list event * nat :=
  match evs with
  | [] => (rows, inserted)
  | e :: rest =>
      let '(rows', changes) := insertOrIgnore e rows in
      tx rest rows' (if (0 <? changes)%nat then inserted + 1 else inserted)
  end.

(** [ORDER BY first_seen_at DESC]: texts compared byte by byte; rows with
    equal keys are left in rowid order. *)
Fixpoint insertDesc (e : event) (sorted : list event) : list event :=
  match sorted with
  | [] => [e]
  | x :: r =>
      if String.leb (first_seen_at x) (first_seen_at e) then e :: sorted
      else x :: insertDesc e r
  end.

Definition orderByFirstSeenDesc (rows : list event) : list event :=
  fold_right insertDesc [] rows.

Record insertOutcome : Type := { insertedCount : nat; newOnes : list event }.

Definition insertNewEvents (events : list event) (d : db) : db * insertOutcome :=
  let '(rows, count) := tx events (stock_events d) 0 in
  (* SELECT * FROM stock_events ORDER BY first_seen_at DESC LIMIT ? *)
  let newOnes := firstn count (orderByFirstSeenDesc rows) in
  ({| stock_events := rows; subscriptions := subscriptions d |},
   {| insertedCount := count; newOnes := newOnes |}).

Definition listSubscriptions (d : db) : list subscription := subscriptions d.

(** ** runPollOnce.js *)

Record summary : Type := {
  parsed : nat;
  inserted : nat;
  subscriptions_count : nat;
  matchedMessages : nat;
  pushed : nat;
  expoResponse : option string
}.

(** What the process reads from outside. *)
Record env : Type := {
  POLL_URL : option string;
  fetch : string -> result response;
  now : nat -> string;
  post : list message -> result pushResponse
}.

(** The store and the batches handed to the push transport so far. *)
Record world : Type := { store : db; outbox : list (list message) }.

(** The two nested loops over the new records and the subscriptions. *)
Definition collectMessages (newOnes : list event) (subs : list subscription)
  : list message :=
  flat_map (fun ev =>
    flat_map (fun sub =>
      if isEmpty (expo_push_token sub) then []
      else if negb (matchesSubscription ev sub) then []
      else
        let n := formatNotification ev in
        [ {| to := expo_push_token sub;
             sound := "default";
             title := n_title n;
             body := n_body n;
             data_eventId := n_eventId n |} ]) subs) newOnes.

(** [Map.prototype.set]: a known key keeps its place and takes the new
    value, a new key goes last. *)
Fixpoint mapSet (key : string) (m : message) (entries : list (string * message))
  : list (string * message) :=
  match entries with
  | [] => [(key, m)]
  | (k, v) :: r =>
      if String.eqb k key then (k, m) :: r else (k, v) :: mapSet key m r
  end.

Definition dedupMessages (messages : list message) : list message :=
  map snd
    (fold_left (fun dedup m => mapSet (to m ++ "|" ++ data_eventId m) m dedup)
       messages []).

Definition runPollOnce (E : env) (w : world) : world * result summary :=
  match POLL_URL E with
  | None => (w, Throw "Missing POLL_URL in env")
  | Some url =>
    if isEmpty url then (w, Throw "Missing POLL_URL in env")
    else
    match fetch E url with
    | Throw msg => (w, Throw msg)
    | Ok res =>
      if negb (ok res) then (w, Throw ("Fetch failed: " ++ stringOfN (status res)))
      else
        let html := text res in
        let events := parseDwrFishStockingHtml (now E) html in
        let '(d, out) := insertNewEvents events (store w) in
        let subs := listSubscriptions d in
        let messages := collectMessages (newOnes out) subs in
        let finalMsgs := dedupMessages messages in
        let summarise (pushed : nat) (expoResponse : option string) :=
          {| parsed := List.length events;
             inserted := insertedCount out;
             subscriptions_count := List.length subs;
             matchedMessages := List.length finalMsgs;
             pushed := pushed;
             expoResponse := expoResponse |} in
        match finalMsgs with
        | [] => ({| store := d; outbox := outbox w |}, Ok (summarise 0 None))
        | _ =>
            let w' := {| store := d; outbox := (outbox w ++ [finalMsgs])%list |} in
            match sendExpoPushMessages (post E) finalMsgs with
            | Throw msg => (w', Throw msg)
            | Ok r => (w', Ok (summarise (sent r) (sent_response r)))
            end
        end
    end
  end.

(** The scenario of the specification: the page holds the one row, the
    store is empty but for one subscription. *)
Definition tok1 : subscription :=
  {| sub_id := 1; expo_push_token := "TOK1";
     counties := ["WASATCH"]; sub_species := []; waters := [] |}.

Definition scenarioWorld : world :=
  {| store := {| stock_events := []; subscriptions := [tok1] |}; outbox := [] |}.

Definition scenarioEnv : env :=
  {| POLL_URL := Some "https://dwr.example/stocking";
     fetch := fun _ => Ok {| ok := true; status := 200; text := blueLakeRow |};
     now := fun _ => "2026-03-04T12:00:00.000Z";
     post := fun _ => Ok {| push_ok := true; push_status := 200; push_json := "{}" |} |}.

Definition greenLakeRow : string :=
  tableRow ["Green Lake"; "Wasatch"; "Rainbow Trout"; "1,200"; "10.5"; "3/4/2026"].

(** The report page of the free-text examples. *)
Definition troutReport : string :=
  "<h2>Trout Stocking Report</h2><p>Blue Lake</p><p>wasatch</p><p>3/4/2026</p>".

(** The event of [blueLakeRow] read at the instant [t]. *)
Definition blueLakeEvent (t : string) : event :=
  {| id := "7b1a10ccfd7b15a6b337bc046a254c9c40303fae";
     water_name := "Blue Lake";
     county := "Wasatch";
     species := "Rainbow Trout";
     quantity := Some 1200%N;
     avg_length := Some {| int_part := 10; frac := "5" |};
     date_stocked := "2026-03-04";
     first_seen_at := t |}.

(** The body the specification expects in the scenario, and the body the
    poll cycle sends. *)
Definition expectedBody : string :=
  "Blue Lake (WASATCH) — 1,200 fish • 10.5" ++ dquote ++ " avg — 2026-03-04".
Definition sentBody : string :=
  "Blue Lake (Wasatch) — 1,200 fish • 10.5" ++ dquote ++ " avg — 2026-03-04".

Definition noFilters (token : string) : subscription :=
  {| sub_id := 1; expo_push_token := token;
     counties := []; sub_species := []; waters := [] |}.

Definition emptyDb : db := {| stock_events := []; subscriptions := [] |}.

(** The message of the scenario. *)
Definition blueLakeMessage : message :=
  {| to := "TOK1";
     sound := "default";
     title := "Stocked: Rainbow Trout";
     body := sentBody;
     data_eventId := "7b1a10ccfd7b15a6b337bc046a254c9c40303fae" |}.

(** ** Notions used to state the properties *)

(** [hay.includes(needle)] *)
Definition containsText (needle hay : string) : bool :=
  match indexOf needle hay with Some _ => true | None => false end.

Definition allDigits (s : string) : bool := forallb_string isDigit s.

(** The three groups of a text of the shape M[M]/D[D]/YYYY. *)
Definition dateShaped (m d y : string) : Prop :=
  allDigits m = true /\ (length m = 1 \/ length m = 2) /\
  allDigits d = true /\ (length d = 1 \/ length d = 2) /\
  allDigits y = true /\ length y = 4.

Definition dateText (m d y : string) : string := m ++ "/" ++ d ++ "/" ++ y.

(** The text holds the shape somewhere. *)
Definition containsDate (s : string) : Prop :=
  exists pre m d y post, dateShaped m d y /\ s = pre ++ dateText m d y ++ post.

(** The fingerprint an event has under either parser. *)
Definition dwrFingerprintOf (e : event) : string :=
  dwrFingerprint (water_name e) (county e) (species e)
    (quantity e) (avg_length e) (date_stocked e).

Definition coFingerprintOf (e : event) : string :=
  coFingerprint (water_name e) (county e) (species e) (date_stocked e).

(** The two events have the same six defining values. *)
Definition sameSixFields (e1 e2 : event) : Prop :=
  water_name e1 = water_name e2 /\ county e1 = county e2 /\
  species e1 = species e2 /\ quantity e1 = quantity e2 /\
  avg_length e1 = avg_length e2 /\ date_stocked e1 = date_stocked e2.

(** The two events differ in one of the six values and agree on the
    other five. *)
Definition differInOneField (e1 e2 : event) : Prop :=
  (water_name e1 <> water_name e2 /\ county e1 = county e2 /\
   species e1 = species e2 /\ quantity e1 = quantity e2 /\
   avg_length e1 = avg_length e2 /\ date_stocked e1 = date_stocked e2)
  \/ (water_name e1 = water_name e2 /\ county e1 <> county e2 /\
      species e1 = species e2 /\ quantity e1 = quantity e2 /\
      avg_length e1 = avg_length e2 /\ date_stocked e1 = date_stocked e2)
  \/ (water_name e1 = water_name e2 /\ county e1 = county e2 /\
      species e1 <> species e2 /\ quantity e1 = quantity e2 /\
      avg_length e1 = avg_length e2 /\ date_stocked e1 = date_stocked e2)
  \/ (water_name e1 = water_name e2 /\ county e1 = county e2 /\
      species e1 = species e2 /\ quantity e1 <> quantity e2 /\
      avg_length e1 = avg_length e2 /\ date_stocked e1 = date_stocked e2)
  \/ (water_name e1 = water_name e2 /\ county e1 = county e2 /\
      species e1 = species e2 /\ quantity e1 = quantity e2 /\
      avg_length e1 <> avg_length e2 /\ date_stocked e1 = date_stocked e2)
  \/ (water_name e1 = water_name e2 /\ county e1 = county e2 /\
      species e1 = species e2 /\ quantity e1 = quantity e2 /\
      avg_length e1 = avg_length e2 /\ date_stocked e1 <> date_stocked e2).

(** Two different texts of one digest. *)
Definition sha1Collision (a b : string) : Prop := a <> b /\ sha1 a = sha1 b.

(** One dimension of a subscription: no filter value, or the normalised
    value of the event among the normalised filter values. *)
Definition dimensionMatches (filter : list string) (value : string) : Prop :=
  filter = [] \/
  In (trim (toUpperCase value)) (map (fun x => trim (toUpperCase x)) filter).

(** The event with another quantity, another length. *)
Definition withQuantity (q : option N) (e : event) : event :=
  {| id := id e; water_name := water_name e; county := county e;
     species := species e; quantity := q; avg_length := avg_length e;
     date_stocked := date_stocked e; first_seen_at := first_seen_at e |}.

Definition withLength (x : option decimal) (e : event) : event :=
  {| id := id e; water_name := water_name e; county := county e;
     species := species e; quantity := quantity e; avg_length := x;
     date_stocked := date_stocked e; first_seen_at := first_seen_at e |}.

Definition zeroDecimal : decimal := {| int_part := 0; frac := "" |}.

(** The text holds the shape between two word boundaries: no letter,
    digit or underscore right before it or right after it. *)
Definition dateShapedText (s : string) : Prop :=
  exists pre m d y post,
    dateShaped m d y /\ s = pre ++ dateText m d y ++ post
    /\ isWordOpt (lastChar pre) = false /\ isWordOpt (headChar post) = false.

(** The preceding character of the text after [pre], [prev] coming before
    [pre]. *)
Definition lastOr (prev : option ascii) (pre : string) : option ascii :=
  match lastChar pre with Some c => Some c | None => prev end.

(** The events of a batch that the transaction appends to the table
    [rows]: those whose identifier is not stored when their turn comes. *)
Fixpoint appended (evs rows : list event) : list event :=
  match evs with
  | [] => []
  | e :: rest =>
      if hasId (id e) rows then appended rest rows
      else e :: appended rest (rows ++ [e])
  end.

(** ** db.js, continued *)

(** [INSERT ... ON CONFLICT(expo_push_token) DO UPDATE SET ...]: the row
    of the token takes the new filter sets and keeps its place and its id;
    a token not stored yet gets a new last row, [rowid] being the id the
    engine gives it. *)
Fixpoint upsertRow (rowid : N) (token : string) (cs ss ws : list string)
    (rows : list subscription) : list subscription :=
  match rows with
  | [] =>
      [ {| sub_id := rowid; expo_push_token := token;
           counties := cs; sub_species := ss; waters := ws |} ]
  | r :: rest =>
      if String.eqb (expo_push_token r) token
      then {| sub_id := sub_id r; expo_push_token := token;
              counties := cs; sub_species := ss; waters := ws |} :: rest
      else r :: upsertRow rowid token cs ss ws rest
  end.

Definition upsertSubscription (rowid : N) (token : string)
    (cs ss ws : list string) (d : db) : db :=
  {| stock_events := stock_events d;
     subscriptions := upsertRow rowid token cs ss ws (subscriptions d) |}.

(** A stable sort by insertion: [before e x] tells that [e] may stand
    before [x]; the rows are taken from the last to the first, so that
    rows that may stand either way keep their order. *)
Section InsertionSort.
Context {A : Type}.
Variable before : A -> A -> bool.

Fixpoint insertSorted (e : A) (sorted : list A) : list A :=
  match sorted with
  | [] => [e]
  | x :: r => if before e x then e :: sorted else x :: insertSorted e r
  end.

Definition stableSort (l : list A) : list A := fold_right insertSorted [] l.
End InsertionSort.

(** [ORDER BY date_stocked DESC, first_seen_at DESC]: [e] may stand before
    [x] when its date is later, or the same with an instant not earlier. *)
Definition recentBefore (e x : event) : bool :=
  match String.compare (date_stocked x) (date_stocked e) with
  | Lt => true
  | Eq => String.leb (first_seen_at x) (first_seen_at e)
  | Gt => false
  end.

(** [LIMIT ?]: a negative limit is no limit. *)
Definition limitRows {A : Type} (limit : Z) (rows : list A) : list A :=
  if (limit <? 0)%Z then rows else firstn (Z.to_nat limit) rows.

(** The number the code holds for an integer read from a text: the double
    nearest to it, ties going to the even significand.  Beyond the range of
    the doubles the result stands for the infinity of its sign. *)
Definition toDouble (n : Z) : Z :=
  let a := Z.abs n in
  let bits := (Z.log2 a + 1)%Z in
  if (bits <=? 53)%Z then n
  else
    let e := (bits - 53)%Z in
    let q := Z.shiftr a e in
    let r := Z.land a (Z.ones e) in
    let half := Z.shiftl 1 (e - 1) in
    let q' :=
      if (half <? r)%Z || ((r =? half)%Z && Z.odd q) then (q + 1)%Z else q in
    (Z.sgn n * Z.shiftl q' e)%Z.

(** Whether the engine takes the number bound to [LIMIT ?] as an integer:
    a double that is an integer strictly between the least and the
    greatest 64-bit integers.  Any other number makes the statement fail
    with a datatype mismatch. *)
Definition bindsAsInteger (limit : Z) : bool :=
  (- 2 ^ 63 <? toDouble limit)%Z && (toDouble limit <? 2 ^ 63)%Z.

(** [getRecentEvents(limit)]; [limit] is the integer the number stands
    for. *)
Definition getRecentEvents (limit : Z) (d : db) : result (list event) :=
  if bindsAsInteger limit
  then Ok (limitRows limit (stableSort recentBefore (stock_events d)))
  else Throw "datatype mismatch".

(** [find] a stored record by its identifier. *)
Definition lookupEvent (i : string) (rows : list event) : option event :=
  find (fun r => String.eqb (id r) i) rows.

(** ** index.js *)

(** [parseInt(s, 10)] on any text: leading white space, a sign, then the
    longest run of digits; [None] is NaN. *)
Definition parseIntJs (s : string) : option Z :=
  let t := trimStart s in
  let '(negative, r) :=
    match t with
    | String "-" r => (true, r)
    | String "+" r => (false, r)
    | _ => (false, t)
    end in
  let digits := take (countWhile isDigit r) r in
  if isEmpty digits then None
  else
    let n := Z.of_N (digitsValue digits) in
    Some (if negative then (- n)%Z else n).

(** A query parameter that may be missing: [q || fallback]. *)
Definition orText (q : option string) (fallback : string) : string :=
  match q with
  | Some s => if isEmpty s then fallback else s
  | None => fallback
  end.

(** [parseInt(q || fallback, 10) || other]: NaN and zero give [other]. *)
Definition intOr (q : option string) (fallback : string) (other : Z) : Z :=
  match parseIntJs (orText q fallback) with
  | Some n => if (n =? 0)%Z then other else n
  | None => other
  end.

(** [Math.min(parseInt(req.query.limit || "50", 10) || 50, 200)] *)
Definition limitOfQuery (q : option string) : Z := Z.min (intOr q "50" 50) 200.

(** What a route answers: the status, the [ok] flag, the error text and
    the payload. *)
Record httpReply (A : Type) : Type := {
  http_status : N;
  reply_ok : bool;
  reply_error : option string;
  reply_payload : option A
}.
Arguments http_status {A} _.
Arguments reply_ok {A} _.
Arguments reply_error {A} _.
Arguments reply_payload {A} _.

Definition replyOk {A : Type} (payload : A) : httpReply A :=
  {| http_status := 200; reply_ok := true; reply_error := None;
     reply_payload := Some payload |}.

Definition replyError {A : Type} (status : N) (msg : string) : httpReply A :=
  {| http_status := status; reply_ok := false; reply_error := Some msg;
     reply_payload := None |}.

(** An exception that leaves a handler without [try]: the framework
    answers 500, without the body of the routes. *)
Definition replyThrown {A : Type} : httpReply A :=
  {| http_status := 500; reply_ok := false; reply_error := None;
     reply_payload := None |}.

(** GET /events/recent *)
Definition eventsRecentRoute (limit : option string) (d : db)
  : httpReply (list event) :=
  match getRecentEvents (limitOfQuery limit) d with
  | Ok events => replyOk events
  | Throw _ => replyThrown
  end.

(** A value of a request body; the items of an array are kept as the
    texts [String(x)] the matcher makes of them. *)
Inductive jsValue : Type :=
| JsUndefined
| JsString (s : string)
| JsArray (items : list string)
| JsOther.

Record subscribeBody : Type := {
  body_token : jsValue;
  body_counties : jsValue;
  body_species : jsValue;
  body_waters : jsValue
}.

(** [Array.isArray(v) ? v : []] *)
Definition arrayOrEmpty (v : jsValue) : list string :=
  match v with JsArray items => items | _ => [] end.

(** POST /subscribe; [None] is a request without body. *)
Definition subscribeRoute (rowid : N) (body : option subscribeBody) (d : db)
  : db * httpReply unit :=
  let refused := (d, replyError 400 "expo_push_token required") in
  match body with
  | None => refused
  | Some b =>
      match body_token b with
      | JsString token =>
          if isEmpty token then refused
          else
            (upsertSubscription rowid token
               (arrayOrEmpty (body_counties b))
               (arrayOrEmpty (body_species b))
               (arrayOrEmpty (body_waters b)) d,
             replyOk tt)
      | _ => refused
      end
  end.

(** POST /run-poller: [cronKey] is the CRON_KEY of the environment, [key]
    the query parameter. *)
Definition runPollerRoute (cronKey key : option string) (E : env) (w : world)
  : world * httpReply summary :=
  let key := orText key "" in
  let expected := orText cronKey "" in
  if isEmpty expected || negb (String.eqb key expected)
  then (w, replyError 401 "Unauthorized")
  else
    match runPollOnce E w with
    | (w', Ok result) => (w', replyOk result)
    | (w', Throw msg) => (w', replyError 500 msg)
    end.

(** ** The poller script *)

Inductive pollerOutcome : Type :=
| NoSubscriptions
| NoMatches
| TestMode (wouldSend : list message)
| Pushed (count : nat).

(** [main] of the script that polls once from the command line. *)
Definition pollerMain (E : env) (w : world) : world * result pollerOutcome :=
  match POLL_URL E with
  | None => (w, Throw "Missing POLL_URL in env")
  | Some url =>
    if isEmpty url then (w, Throw "Missing POLL_URL in env")
    else
    match fetch E url with
    | Throw msg => (w, Throw msg)
    | Ok res =>
      if negb (ok res) then (w, Throw ("Fetch failed: " ++ stringOfN (status res)))
      else
        let html := text res in
        let events := parseDwrFishStockingHtml (now E) html in
        let '(d, out) := insertNewEvents events (store w) in
        let w1 := {| store := d; outbox := outbox w |} in
        let subs := listSubscriptions d in
        match subs with
        | [] => (w1, Ok NoSubscriptions)
        | _ =>
          let eventsToCheck :=
            if (0 <? insertedCount out)%nat then newOnes out else firstn 10 events in
          let finalMsgs := dedupMessages (collectMessages eventsToCheck subs) in
          match finalMsgs with
          | [] => (w1, Ok NoMatches)
          | _ =>
            if existsb (fun m => containsText "TESTTOKEN" (to m)) finalMsgs
            then (w1, Ok (TestMode finalMsgs))
            else
              let w2 := {| store := d; outbox := (outbox w ++ [finalMsgs])%list |} in
              match sendExpoPushMessages (post E) finalMsgs with
              | Throw msg => (w2, Throw msg)
              | Ok r => (w2, Ok (Pushed (sent r)))
              end
          end
        end
    end
  end.

(** ** The search routes of the server *)

(** The filter of GET /events, on parameters already trimmed and in upper
    case: county and species as a whole, water as a part; an empty
    parameter lets all pass. *)
Definition eventFilter (qCounty qSpecies qWater : string) (e : event) : bool :=
  let eCounty := toUpperCase (trim (county e)) in
  let eSpecies := toUpperCase (trim (species e)) in
  let eWater := toUpperCase (trim (water_name e)) in
  let cOk := isEmpty qCounty || String.eqb eCounty qCounty in
  let sOk := isEmpty qSpecies || String.eqb eSpecies qSpecies in
  let wOk := isEmpty qWater || containsText qWater eWater in
  cOk && sOk && wOk.

(** [String(q || "").trim().toUpperCase()] *)
Definition upperParam (q : option string) : string :=
  toUpperCase (trim (orText q "")).

(** [Math.max(parseInt(req.query.offset || "0", 10) || 0, 0)] *)
Definition offsetOfQuery (q : option string) : Z := Z.max (intOr q "0" 0) 0.

(** [a.slice(start, stop)] *)
Definition sliceZ {A : Type} (start stop : Z) (a : list A) : list A :=
  let len := Z.of_nat (List.length a) in
  let k := if (start <? 0)%Z then Z.max (len + start) 0 else Z.min start len in
  let final := if (stop <? 0)%Z then Z.max (len + stop) 0 else Z.min stop len in
  firstn (Z.to_nat (final - k)) (skipn (Z.to_nat k) a).

Record eventsPage : Type := {
  total : nat;
  page_limit : Z;
  page_offset : Z;
  page_events : list event
}.

Section SearchRoutes.
(** [a.localeCompare(b)], whatever the collation of the host is. *)
Variable localeCompare : string -> string -> comparison.

(** The comparator [(a, b) => String(b.date_stocked).localeCompare(
    String(a.date_stocked))] of the sorts: [a] may stand before [b] when it
    is not positive. *)
Definition dateBefore (a b : event) : bool :=
  match localeCompare (date_stocked b) (date_stocked a) with
  | Gt => false
  | _ => true
  end.

(** GET /events, once the events of the page have been fetched. *)
Definition eventsRoute (qCounty qSpecies qWater qLimit qOffset : option string)
    (events : list event) : eventsPage :=
  let county := upperParam qCounty in
  let species := upperParam qSpecies in
  let water := upperParam qWater in
  let limit := limitOfQuery qLimit in
  let offset := offsetOfQuery qOffset in
  let filtered := filter (eventFilter county species water) events in
  let sorted := stableSort dateBefore filtered in
  let page := sliceZ offset (offset + limit) sorted in
  {| total := List.length filtered;
     page_limit := limit;
     page_offset := offset;
     page_events := page |}.
End SearchRoutes.

(** [Array.from(new Set(a))]: the first occurrence of every text. *)
Fixpoint uniqueFrom (seen : list string) (a : list string) : list string :=
  match a with
  | [] => []
  | x :: r =>
      if includes x seen then uniqueFrom seen r else x :: uniqueFrom (x :: seen) r
  end.

(** [a.sort()]: ascending, texts compared unit by unit. *)
Definition sortStrings (a : list string) : list string := stableSort String.leb a.

(** GET /meta/counties and GET /meta/waters, once the events have been
    fetched. *)
Definition metaCounties (events : list event) : list string :=
  sortStrings
    (uniqueFrom []
       (filter (fun x => negb (isEmpty x)) (map (fun e => trim (county e)) events))).

Definition metaWaters (qCounty : option string) (events : list event)
  : list string :=
  let county0 := upperParam qCounty in
  sortStrings
    (uniqueFrom []
       (filter (fun x => negb (isEmpty x))
          (map (fun e => trim (water_name e))
             (filter (fun e =>
                        if isEmpty county0 then true
                        else String.eqb (toUpperCase (trim (county e))) county0)
                events)))).

(** [normState]: the state of a request, Utah when none is given. *)
Definition normState (s : option string) : string :=
  let t := upperParam s in
  if isEmpty t then "UT" else t.

(** [getEventsForState]: the Colorado events for CO, the Utah events for
    everything else. *)
Definition getEventsForState {A : Type} (state : option string)
    (colorado utah : A) : A :=
  if String.eqb (normState state) "CO" then colorado else utah.

(** The matcher's order of the two operations, for comparison. *)
Definition singleCounty (token c : string) : subscription :=
  {| sub_id := 1; expo_push_token := token;
     counties := [c]; sub_species := []; waters := [] |}.

(** The event of [greenLakeRow] read at the instant [t]. *)
Definition greenLakeEvent (t : string) : event :=
  {| id := "315ca20eff0cfc1b663b27e109731f72be14e81f";
     water_name := "Green Lake";
     county := "Wasatch";
     species := "Rainbow Trout";
     quantity := Some 1200%N;
     avg_length := Some {| int_part := 10; frac := "5" |};
     date_stocked := "2026-03-04";
     first_seen_at := t |}.

(** ** Notions for the further properties *)

(** A text of the shape YYYY-MM-DD. *)
Definition isoDateShaped (s : string) : Prop :=
  exists y m d,
    allDigits y = true /\ length y = 4 /\
    allDigits m = true /\ length m = 2 /\
    allDigits d = true /\ length d = 2 /\
    s = y ++ "-" ++ m ++ "-" ++ d.

Definition headIsSpace (s : string) : bool :=
  match s with "" => false | String c _ => isSpace c end.

(** White space occurs only as single blanks between other characters:
    the only white-space character is the blank, and no blank is followed
    by another blank. *)
Fixpoint singleSpaced (s : string) : bool :=
  match s with
  | "" => true
  | String c r =>
      (if isSpace c then Ascii.eqb c " " && negb (headIsSpace r) else true)
      && singleSpaced r
  end.

(** No markup tag begins anywhere in the text. *)
Fixpoint tagFree (s : string) : bool :=
  match tagAt s with
  | Some _ => false
  | None => match s with "" => true | String _ r => tagFree r end
  end.

(** Cleaned text: trimmed, single-spaced, without tags. *)
Definition cleanText (s : string) : Prop :=
  trim s = s /\ singleSpaced s = true /\ tagFree s = true.

Definition isHexDigit (c : ascii) : bool :=
  isDigit c || ((97 <=? code c) && (code c <=? 102))%N.

(** Forty lower-case hexadecimal digits. *)
Definition isDigest (s : string) : Prop :=
  length s = 40 /\ forallb_string isHexDigit s = true.

(** The event without the instant it was read at. *)
Definition eraseClock (e : event) : event :=
  {| id := id e; water_name := water_name e; county := county e;
     species := species e; quantity := quantity e; avg_length := avg_length e;
     date_stocked := date_stocked e; first_seen_at := "" |}.

(** A decimal as the parser produces it: the fraction is made of digits
    and does not end with a zero. *)
Definition canonicalDecimal (x : decimal) : Prop :=
  allDigits (frac x) = true /\ stripTrailingZeros (frac x) = frac x.

Definition isGt (c : ascii) : bool := Ascii.eqb c ">".
Definition gtFree (s : string) : bool := forallb_string (fun c => negb (isGt c)) s.
Definition headIsGt (s : string) : bool :=
  match s with "" => false | String c _ => isGt c end.

(** Every [<] of the text is directly followed by [>] or has no [>] after
    it: what [tagFree] amounts to. *)
Fixpoint noTagStart (s : string) : bool :=
  match s with
  | "" => true
  | String c r =>
      (if Ascii.eqb c "<" then headIsGt r || gtFree r else true) && noTagStart r
  end.

(** The characters of a normalised date. *)
Definition dateChar (c : ascii) : bool := isDigit c || Ascii.eqb c "-".

(** The key under which the cycle keeps a message, the message a
    matching pair of an event and a subscription gives, and the table of
    the de-duplication after a run of messages. *)
Definition messageKey (m : message) : string := to m ++ "|" ++ data_eventId m.

Definition messageFor (ev : event) (sub : subscription) : message :=
  let n := formatNotification ev in
  {| to := expo_push_token sub;
     sound := "default";
     title := n_title n;
     body := n_body n;
     data_eventId := n_eventId n |}.

Definition dedupInto (entries : list (string * message)) (messages : list message)
  : list (string * message) :=
  fold_left (fun dedup m => mapSet (to m ++ "|" ++ data_eventId m) m dedup)
    messages entries.

(** Every entry of the table stands under the key of its message. *)
Definition keyed (entries : list (string * message)) : Prop :=
  forall k v, In (k, v) entries -> k = messageKey v.

(** A world without events, subscriptions or batches. *)
Definition emptyDbWorld : world := {| store := emptyDb; outbox := [] |}.

(** The world of the scenario once the Blue Lake event is stored. *)
Definition storedWorld (t : string) : world :=
  {| store := {| stock_events := [blueLakeEvent t]; subscriptions := [tok1] |};
     outbox := [] |}.

(** The range in which the numbers of the model are the doubles of the
    code, and are printed by it in plain decimal: a count below 10^15; a
    decimal of at most 15 significant digits that is zero or at least
    0.000001. *)
Definition leadingZeros (f : string) : nat :=
  countWhile (fun c => Ascii.eqb c "0") f.

Definition significantDigits (x : decimal) : nat :=
  if (int_part x =? 0)%N then length (frac x) - leadingZeros (frac x)
  else length (stringOfN (int_part x)) + length (frac x).

Definition exactCount (n : N) : Prop := (n < 10 ^ 15)%N.

Definition exactDecimal (x : decimal) : Prop :=
  significantDigits x <= 15
  /\ ((int_part x =? 0)%N = true -> leadingZeros (frac x) <= 5).

(** The world of the scenario with one more subscription, to every event,
    whose token is a test token. *)
Definition testTokenWorld : world :=
  {| store := {| stock_events := [];
                 subscriptions := [tok1; noFilters "ExponentPushToken[TESTTOKEN]"] |};
     outbox := [] |}.

(** The message of the scenario to the test token. *)
Definition testTokenMessage : message :=
  {| to := "ExponentPushToken[TESTTOKEN]";
     sound := "default";
     title := "Stocked: Rainbow Trout";
     body := sentBody;
     data_eventId := "7b1a10ccfd7b15a6b337bc046a254c9c40303fae" |}.

(** * Properties *)

(** ** SHA-1 test vectors *)

Example sha1_empty : sha1 "" = "da39a3ee5e6b4b0d3255bfef95601890afd80709".
Proof. vm_compute. reflexivity. Qed.

Example sha1_abc : sha1 "abc" = "a9993e364706816aba3e25717850c26c9cd0d89d".
Proof. vm_compute. reflexivity. Qed.

Example sha1_two_blocks :
  sha1 "abcdbcdecdefdefgefghfghighijhijkijkljklmklmnlmnomnopnopq"
  = "84983e441c3bd26ebaae4aa1f95129e5e54670f1".
Proof. vm_compute. reflexivity. Qed.

(** ** Strings *)

Arguments isDigit : simpl never.
Arguments isSpace : simpl never.
Arguments isWord : simpl never.
Arguments upperChar : simpl never.
Arguments lowerChar : simpl never.

Lemma append_assoc (a b c : string) : (a ++ b) ++ c = a ++ (b ++ c).
Proof. induction a as [|x a IH]; simpl; [reflexivity | now rewrite IH]. Qed.

Lemma append_nil_r (a : string) : a ++ "" = a.
Proof. induction a as [|x a IH]; simpl; [reflexivity | now rewrite IH]. Qed.

Lemma isEmpty_true (s : string) : isEmpty s = true <-> s = "".
Proof. destruct s; simpl; split; intros H; try reflexivity; discriminate. Qed.

Lemma isEmpty_false (s : string) : isEmpty s = false <-> s <> "".
Proof. destruct s; simpl; split; intros H; try discriminate; congruence. Qed.

Lemma digit_not_slash (c : ascii) : isDigit c = true -> Ascii.eqb c "/" = false.
Proof.
  intros H. destruct (Ascii.eqb_spec c "/") as [->|]; [discriminate H | reflexivity].
Qed.

(** ** The date pattern *)

Lemma digits12_inv {A : Type} (s : string) (k : string -> string -> option A) (x : A) :
  digits12 s k = Some x ->
  exists m r, s = m ++ r /\ allDigits m = true /\
              (length m = 1 \/ length m = 2) /\ k m r = Some x.
Proof.
  unfold digits12, allDigits. destruct s as [|a r]; [discriminate|].
  destruct (isDigit a) eqn:Ha; [|discriminate].
  destruct r as [|b r'].
  - intros H. exists (String a ""), "". simpl. rewrite Ha. auto.
  - destruct (isDigit b) eqn:Hb.
    + destruct (k (String a (String b "")) r') eqn:Hk.
      * intros H. exists (String a (String b "")), r'. simpl.
        rewrite Ha, Hb. repeat split; auto. congruence.
      * intros H. exists (String a ""), (String b r'). simpl. rewrite Ha. auto.
    + intros H. exists (String a ""), (String b r'). simpl. rewrite Ha. auto.
Qed.

Lemma lit_inv {A : Type} (c : ascii) (s : string) (k : string -> option A) (x : A) :
  lit c s k = Some x -> exists r, s = String c r /\ k r = Some x.
Proof.
  unfold lit. destruct s as [|a r]; [discriminate|].
  destruct (Ascii.eqb_spec a c) as [->|]; [|discriminate].
  intros H. now exists r.
Qed.

Lemma digits4_inv {A : Type} (s : string) (k : string -> string -> option A) (x : A) :
  digits4 s k = Some x ->
  exists y r, s = y ++ r /\ allDigits y = true /\ length y = 4 /\ k y r = Some x.
Proof.
  unfold digits4, allDigits.
  destruct s as [|a [|b [|c [|d r]]]]; try discriminate.
  destruct (isDigit a && isDigit b && isDigit c && isDigit d) eqn:H; [|discriminate].
  intros Hk.
  exists (String a (String b (String c (String d "")))), r.
  apply andb_prop in H as [H Hd]. apply andb_prop in H as [H Hc].
  apply andb_prop in H as [Ha Hb].
  simpl. rewrite Ha, Hb, Hc, Hd. auto.
Qed.

Lemma dateAt_sound (s m d y r : string) :
  dateAt s = Some (m, d, y, r) ->
  dateShaped m d y /\ s = dateText m d y ++ r.
Proof.
  unfold dateAt. intros H.
  apply digits12_inv in H as (m' & r1 & -> & Hm & Lm & H).
  apply lit_inv in H as (r2 & -> & H).
  apply digits12_inv in H as (d' & r3 & -> & Hd & Ld & H).
  apply lit_inv in H as (r4 & -> & H).
  apply digits4_inv in H as (y' & r5 & -> & Hy & Ly & H).
  injection H as -> -> -> ->.
  split; [unfold dateShaped; auto 10|].
  unfold dateText. rewrite !append_assoc. reflexivity.
Qed.

Lemma digits12_one {A : Type} (a : ascii) (r : string)
    (k : string -> string -> option A) :
  isDigit a = true ->
  digits12 (String a (String "/" r)) k = k (String a "") (String "/" r).
Proof. intros Ha. unfold digits12. rewrite Ha. reflexivity. Qed.

Lemma digits12_two {A : Type} (a b : ascii) (r : string)
    (k : string -> string -> option A) (x : A) :
  isDigit a = true -> isDigit b = true ->
  k (String a (String b "")) r = Some x ->
  digits12 (String a (String b r)) k = Some x.
Proof. intros Ha Hb Hk. unfold digits12. now rewrite Ha, Hb, Hk. Qed.

(** One or two digits followed by a slash are taken whole. *)
Lemma digits12_group {A : Type} (m r : string)
    (k : string -> string -> option A) (x : A) :
  allDigits m = true -> (length m = 1 \/ length m = 2) ->
  k m (String "/" r) = Some x ->
  digits12 (m ++ String "/" r) k = Some x.
Proof.
  unfold allDigits. intros Hm Lm Hk.
  destruct m as [|a [|b [|c m]]]; simpl in Lm; try (destruct Lm; discriminate).
  - simpl in Hm. rewrite andb_true_r in Hm.
    cbn [append]. rewrite digits12_one; assumption.
  - simpl in Hm. rewrite andb_true_r in Hm. apply andb_prop in Hm as [Ha Hb].
    cbn [append]. apply digits12_two; assumption.
Qed.

Lemma dateAt_shape (m d y post : string) :
  dateShaped m d y ->
  dateAt (dateText m d y ++ post) = Some (m, d, y, post).
Proof.
  intros (Hm & Lm & Hd & Ld & Hy & Ly).
  unfold dateAt, dateText. rewrite !append_assoc. cbn [append].
  apply digits12_group; auto. cbn [lit]. rewrite Ascii.eqb_refl.
  apply digits12_group; auto. cbn [lit]. rewrite Ascii.eqb_refl.
  destruct y as [|a [|b [|c [|e [|f y]]]]]; try discriminate Ly.
  unfold allDigits in Hy. simpl in Hy. rewrite andb_true_r in Hy.
  simpl. rewrite !andb_assoc in Hy. rewrite Hy. reflexivity.
Qed.

Lemma dateSearch_eq (s : string) :
  dateSearch s =
  match dateAt s with
  | Some (m, d, y, _) => Some (m, d, y)
  | None => match s with "" => None | String _ r => dateSearch r end
  end.
Proof. destruct s; reflexivity. Qed.

Lemma dateSearch_sound (s m d y : string) :
  dateSearch s = Some (m, d, y) ->
  exists pre post, dateShaped m d y /\ s = pre ++ dateText m d y ++ post.
Proof.
  induction s as [|c s IH]; rewrite dateSearch_eq.
  - destruct (dateAt "") as [[[[m' d'] y'] r]|] eqn:E; [discriminate E | discriminate].
  - destruct (dateAt (String c s)) as [[[[m' d'] y'] r]|] eqn:E.
    + intros H. injection H as -> -> ->.
      apply dateAt_sound in E as [Hs E]. exists "", r. split; [assumption|].
      exact E.
    + intros H. destruct (IH H) as (pre & post & Hs & ->).
      exists (String c pre), post. split; [assumption | reflexivity].
Qed.

Lemma dateSearch_complete (s : string) :
  containsDate s -> dateSearch s <> None.
Proof.
  intros (pre & m & d & y & post & Hs & ->).
  induction pre as [|c pre IH]; rewrite dateSearch_eq.
  - simpl. rewrite (dateAt_shape _ _ _ post Hs). discriminate.
  - destruct (dateAt _) as [[[[m' d'] y'] r]|]; [discriminate | exact IH].
Qed.

Lemma dateSearch_none_no_date (s : string) :
  dateSearch s = None -> ~ containsDate s.
Proof. intros H C. exact (dateSearch_complete s C H). Qed.

Lemma no_date_dateSearch_none (s : string) :
  ~ containsDate s -> dateSearch s = None.
Proof.
  intros H. destruct (dateSearch s) as [[[m d] y]|] eqn:E; [|reflexivity].
  exfalso. apply H. apply dateSearch_sound in E as (pre & post & Hs & ->).
  now exists pre, m, d, y, post.
Qed.

Lemma padStart_two (m : string) :
  length m = 1 \/ length m = 2 -> length (padStart 2 "0" m) = 2.
Proof.
  destruct m as [|a [|b [|c m]]]; simpl; intros [H|H]; try discriminate H;
    reflexivity.
Qed.

Lemma normalizeDate_at_shape (m d y post : string) :
  dateShaped m d y ->
  normalizeDate (dateText m d y ++ post)
  = y ++ "-" ++ padStart 2 "0" m ++ "-" ++ padStart 2 "0" d.
Proof.
  intros Hs. unfold normalizeDate. rewrite dateSearch_eq.
  now rewrite (dateAt_shape _ _ _ post Hs).
Qed.

Lemma normalizeDate_nonempty (s : string) :
  normalizeDate s <> "" ->
  exists pre m d y post,
    dateShaped m d y /\ s = pre ++ dateText m d y ++ post /\
    normalizeDate s = y ++ "-" ++ padStart 2 "0" m ++ "-" ++ padStart 2 "0" d.
Proof.
  unfold normalizeDate.
  destruct (dateSearch s) as [[[m d] y]|] eqn:E; [|congruence].
  intros _. apply dateSearch_sound in E as (pre & post & Hs & ->).
  now exists pre, m, d, y, post.
Qed.

Lemma parseRow_without_date (now row : string) :
  normalizeDate (nth 5 (map stripTags (matchAll tdAt row)) "") = "" ->
  parseRow now row = None.
Proof.
  intros H. unfold parseRow.
  destruct (List.length (matchAll tdAt row) <? 6)%nat; [reflexivity|].
  cbv zeta. rewrite H. cbn [isEmpty]. now rewrite !orb_true_r.
Qed.

Lemma coTriple_without_date (now l0 l1 l2 : string) :
  coNormalizeDate (clean l2) = "" -> coTriple now l0 l1 l2 = None.
Proof.
  intros H. unfold coTriple. cbv zeta. rewrite H. cbn [isEmpty].
  repeat match goal with |- context [if ?b then _ else _] => destruct b end;
    reflexivity.
Qed.

Lemma dateAt_needs_digit (c : ascii) (r : string) :
  isDigit c = false -> dateAt (String c r) = None.
Proof. intros H. unfold dateAt, digits12. now rewrite H. Qed.

(** The leftmost shape of the text is the one that is reformatted. *)
Lemma normalizeDate_leftmost (pre m d y post : string) :
  dateShaped m d y ->
  (forall pre' m' d' y' post',
     dateShaped m' d' y' ->
     pre ++ dateText m d y ++ post = pre' ++ dateText m' d' y' ++ post' ->
     length pre <= length pre') ->
  normalizeDate (pre ++ dateText m d y ++ post)
  = y ++ "-" ++ padStart 2 "0" m ++ "-" ++ padStart 2 "0" d.
Proof.
  intros Hs. induction pre as [|c pre IH]; intros Hmin.
  - now apply normalizeDate_at_shape.
  - unfold normalizeDate. rewrite dateSearch_eq. cbn [append].
    destruct (dateAt (String c (pre ++ dateText m d y ++ post)))
      as [[[[m' d'] y'] r]|] eqn:E.
    + exfalso. apply dateAt_sound in E as [Hs' E].
      specialize (Hmin "" m' d' y' r Hs' E). simpl in Hmin. lia.
    + apply IH. intros pre' m' d' y' post' Hs' E'.
      specialize (Hmin (String c pre') m' d' y' post' Hs').
      cbn [append] in Hmin. rewrite E' in Hmin. specialize (Hmin eq_refl).
      simpl in Hmin. lia.
Qed.

Lemma normalizeDate_after_text (pre m d y post : string) :
  dateShaped m d y ->
  forallb_string (fun c => negb (isDigit c)) pre = true ->
  normalizeDate (pre ++ dateText m d y ++ post)
  = y ++ "-" ++ padStart 2 "0" m ++ "-" ++ padStart 2 "0" d.
Proof.
  intros Hs. induction pre as [|c pre IH]; intros Hp.
  - now apply normalizeDate_at_shape.
  - cbn [forallb_string] in Hp. apply andb_prop in Hp as [Hc Hp].
    apply negb_true_iff in Hc.
    unfold normalizeDate. rewrite dateSearch_eq. cbn [append].
    rewrite (dateAt_needs_digit _ _ Hc). exact (IH Hp).
Qed.

Lemma normalizeDate_complete (s : string) : containsDate s -> normalizeDate s <> "".
Proof.
  intros C. pose proof (dateSearch_complete s C) as H. unfold normalizeDate.
  destruct (dateSearch s) as [[[m d] y]|] eqn:E; [|now elim H].
  apply dateSearch_sound in E as (_ & _ & (_ & _ & _ & _ & _ & Ly) & _).
  destruct y as [|a y]; [discriminate Ly | discriminate].
Qed.

(** C9. Date normalization finds the shape M[M]/D[D]/YYYY, pads month and
    day with a zero to two digits and answers YYYY-MM-DD, whatever the
    digits are (no calendar check): "3/4/2026" gives "2026-03-04" and
    "13/40/2026" gives "2026-13-40".  A non-empty answer always comes from
    such a shape in the text; a text that holds no such shape gives the
    empty text, and the row is then dropped by either parser.  The two
    parsers normalise dates alike.  The shape is found wherever it stands
    in the text: a text that holds the shape never gives the empty text,
    the shape reformatted is the leftmost one, and so the one that comes
    after a text without digits. *)
Theorem normalizeDate_reformats :
  (forall m d y post, dateShaped m d y ->
     normalizeDate (dateText m d y ++ post)
     = y ++ "-" ++ padStart 2 "0" m ++ "-" ++ padStart 2 "0" d
     /\ length (padStart 2 "0" m) = 2 /\ length (padStart 2 "0" d) = 2)
  /\ (forall s, normalizeDate s <> "" ->
        exists pre m d y post,
          dateShaped m d y /\ s = pre ++ dateText m d y ++ post /\
          normalizeDate s = y ++ "-" ++ padStart 2 "0" m ++ "-" ++ padStart 2 "0" d)
  /\ (forall s, ~ containsDate s -> normalizeDate s = "")
  /\ normalizeDate "3/4/2026" = "2026-03-04"
  /\ normalizeDate "13/40/2026" = "2026-13-40"
  /\ (forall s, coNormalizeDate s = normalizeDate s)
  /\ (forall now row,
        normalizeDate (nth 5 (map stripTags (matchAll tdAt row)) "") = "" ->
        parseRow now row = None)
  /\ (forall now l0 l1 l2,
        coNormalizeDate (clean l2) = "" -> coTriple now l0 l1 l2 = None)
  /\ (forall s, containsDate s -> normalizeDate s <> "")
  /\ (forall pre m d y post,
        dateShaped m d y ->
        (forall pre' m' d' y' post',
           dateShaped m' d' y' ->
           pre ++ dateText m d y ++ post = pre' ++ dateText m' d' y' ++ post' ->
           length pre <= length pre') ->
        normalizeDate (pre ++ dateText m d y ++ post)
        = y ++ "-" ++ padStart 2 "0" m ++ "-" ++ padStart 2 "0" d)
  /\ (forall pre m d y post,
        dateShaped m d y ->
        forallb_string (fun c => negb (isDigit c)) pre = true ->
        normalizeDate (pre ++ dateText m d y ++ post)
        = y ++ "-" ++ padStart 2 "0" m ++ "-" ++ padStart 2 "0" d)
  /\ normalizeDate "on 3/7/2026." = "2026-03-07"
  /\ normalizeDate "123/4/2026 and 5/6/2027" = "2026-23-04".
Proof.
  split; [|split; [|split; [|split; [|split; [|split; [|split; [|split;
    [|split; [|split; [|split; [|split]]]]]]]]]]].
  - intros m d y post Hs. split; [now apply normalizeDate_at_shape|].
    destruct Hs as (_ & Lm & _ & Ld & _). split; now apply padStart_two.
  - exact normalizeDate_nonempty.
  - intros s H. unfold normalizeDate. now rewrite (no_date_dateSearch_none s H).
  - reflexivity.
  - reflexivity.
  - reflexivity.
  - exact parseRow_without_date.
  - exact coTriple_without_date.
  - exact normalizeDate_complete.
  - exact normalizeDate_leftmost.
  - exact normalizeDate_after_text.
  - reflexivity.
  - reflexivity.
Qed.

Lemma normalizeDate_reformats_witness :
  (dateShaped "13" "40" "2026"
   /\ normalizeDate (dateText "13" "40" "2026" ++ " (planned)") = "2026-13-40")
  /\ (~ containsDate "next week" /\ normalizeDate "next week" = "")
  /\ parseRow "t" (tableRow ["Blue Lake"; "Wasatch"; "Rainbow Trout"; "1,200"; "10.5"; "soon"])
     = None
  /\ (containsDate "on 3/7/2026." /\ normalizeDate "on 3/7/2026." <> "")
  /\ normalizeDate ("stocked on " ++ dateText "3" "7" "2026" ++ ".") = "2026-03-07"
  /\ normalizeDate ("" ++ dateText "3" "7" "2026" ++ ", 4/8/2026") = "2026-03-07".
Proof.
  assert (Hs : dateShaped "13" "40" "2026") by (vm_compute; auto 10).
  assert (Ht : dateShaped "3" "7" "2026") by (vm_compute; auto 10).
  assert (Hn : ~ containsDate "next week")
    by (apply dateSearch_none_no_date; reflexivity).
  assert (Hc : containsDate "on 3/7/2026.").
  { exists "on ", "3", "7", "2026", ".". split; [exact Ht | reflexivity]. }
  split; [split; [exact Hs|] | split; [split; [exact Hn|] | split; [| split;
    [split; [exact Hc|] | split]]]].
  - exact (proj1 (proj1 normalizeDate_reformats "13" "40" "2026" " (planned)" Hs)).
  - exact (proj1 (proj2 (proj2 normalizeDate_reformats)) "next week" Hn).
  - apply (proj1 (proj2 (proj2 (proj2 (proj2 (proj2 (proj2 normalizeDate_reformats))))))).
    reflexivity.
  - destruct normalizeDate_reformats as (_ & _ & _ & _ & _ & _ & _ & _ & H & _).
    exact (H "on 3/7/2026." Hc).
  - destruct normalizeDate_reformats
      as (_ & _ & _ & _ & _ & _ & _ & _ & _ & _ & H & _).
    apply (H "stocked on " "3" "7" "2026" "." Ht). reflexivity.
  - destruct normalizeDate_reformats as (_ & _ & _ & _ & _ & _ & _ & _ & _ & H & _).
    apply (H "" "3" "7" "2026" ", 4/8/2026" Ht).
    intros pre' m' d' y' post' _ _. simpl. lia.
Defined.

(** ** The tabular parser *)

Lemma dedupFrom_subset (seen : list string) (events : list event) (e : event) :
  In e (dedupFrom seen events) -> In e events.
Proof.
  revert seen. induction events as [|x r IH]; intros seen; simpl; [auto|].
  destruct (includes (id x) seen); simpl; intros H.
  - right. exact (IH _ H).
  - destruct H as [H|H]; [now left | right; exact (IH _ H)].
Qed.

Lemma includes_In (x : string) (a : list string) :
  includes x a = true <-> In x a.
Proof.
  unfold includes. rewrite existsb_exists. split.
  - intros (y & Hy & E). apply String.eqb_eq in E. now subst.
  - intros H. exists x. split; [assumption | apply String.eqb_refl].
Qed.

(** Every identifier of the batch survives, once. *)
Lemma dedupFrom_keeps_ids (seen : list string) (events : list event) (e : event) :
  In e events ->
  In (id e) seen \/ In (id e) (map id (dedupFrom seen events)).
Proof.
  revert seen. induction events as [|x r IH]; intros seen; simpl; [tauto|].
  intros [->|H].
  - destruct (includes (id e) seen) eqn:E.
    + left. now apply includes_In.
    + right. now left.
  - destruct (includes (id x) seen) eqn:E.
    + exact (IH seen H).
    + destruct (IH (id x :: seen) H) as [[Hx|Hs]|Hd].
      * right. left. exact Hx.
      * now left.
      * right. now right.
Qed.

Lemma parseRows_In (now : nat -> string) (rows : list string) (k : nat) (e : event) :
  In e (parseRows now k rows) <->
  exists j row, nth_error rows j = Some row /\ parseRow (now (k + j)) row = Some e.
Proof.
  revert k. induction rows as [|row rest IH]; intros k; simpl.
  - split; [tauto|]. intros (j & r & H & _). destruct j; discriminate H.
  - split.
    + intros H.
      assert (Hcase : parseRow (now k) row = Some e \/ In e (parseRows now (S k) rest)).
      { destruct (parseRow (now k) row) as [x|]; [|now right].
        destruct H as [->|H]; [now left | now right]. }
      destruct Hcase as [H0|H1].
      * exists 0, row. rewrite Nat.add_0_r. now split.
      * apply IH in H1 as (j & r & Hj & Hr). exists (S j), r.
        rewrite Nat.add_succ_r. now split.
    + intros (j & r & Hj & Hr). destruct j as [|j].
      * simpl in Hj. injection Hj as ->. rewrite Nat.add_0_r in Hr.
        rewrite Hr. now left.
      * simpl in Hj. rewrite Nat.add_succ_r in Hr.
        assert (H1 : In e (parseRows now (S k) rest))
          by (apply IH; now exists j, r).
        destruct (parseRow (now k) row); [now right | assumption].
Qed.

(** An event of the answer is the event of one row of the page. *)
Lemma dwr_event_from_row (now : nat -> string) (html : string) (e : event) :
  In e (parseDwrFishStockingHtml now html) ->
  exists j row, nth_error (matchAll trAt html) j = Some row
                /\ parseRow (now j) row = Some e.
Proof.
  unfold parseDwrFishStockingHtml, dedupById. intros H.
  apply dedupFrom_subset in H. apply parseRows_In in H. exact H.
Qed.

(** The event of an accepted row is in the answer, up to the removal of
    a second event of the same identifier. *)
Lemma dwr_row_represented (now : nat -> string) (html : string)
    (j : nat) (row : string) (e : event) :
  nth_error (matchAll trAt html) j = Some row ->
  parseRow (now j) row = Some e ->
  In (id e) (map id (parseDwrFishStockingHtml now html)).
Proof.
  intros Hj Hr. unfold parseDwrFishStockingHtml, dedupById.
  assert (H : In e (parseRows now 0 (matchAll trAt html)))
    by (apply parseRows_In; now exists j, row).
  destruct (dedupFrom_keeps_ids [] _ e H) as [[]|H']; exact H'.
Qed.

Lemma parseRow_some (now row : string) (e : event) :
  parseRow now row = Some e ->
  let cells := map stripTags (matchAll tdAt row) in
  6 <= List.length cells
  /\ water_name e = nth 0 cells "" /\ water_name e <> ""
  /\ county e = nth 1 cells "" /\ county e <> ""
  /\ species e = nth 2 cells "" /\ species e <> ""
  /\ quantity e = parseInt (filterString isDigit (nth 3 cells ""))
  /\ avg_length e
     = parseFloat (filterString (fun c => isDigit c || Ascii.eqb c ".") (nth 4 cells ""))
  /\ date_stocked e = normalizeDate (nth 5 cells "") /\ date_stocked e <> ""
  /\ first_seen_at e = now
  /\ id e = sha1 (dwrFingerprint (water_name e) (county e) (species e)
                    (quantity e) (avg_length e) (date_stocked e)).
Proof.
  unfold parseRow. cbv zeta.
  destruct (List.length (matchAll tdAt row) <? 6)%nat eqn:L; [discriminate|].
  apply Nat.ltb_ge in L.
  destruct (isEmpty (nth 0 (map stripTags (matchAll tdAt row)) "")) eqn:E0;
    [discriminate|].
  destruct (isEmpty (nth 1 (map stripTags (matchAll tdAt row)) "")) eqn:E1;
    [discriminate|].
  destruct (isEmpty (nth 2 (map stripTags (matchAll tdAt row)) "")) eqn:E2;
    [discriminate|].
  destruct (isEmpty (normalizeDate (nth 5 (map stripTags (matchAll tdAt row)) "")))
    eqn:E5; [discriminate|].
  cbn [orb]. intros H. injection H as <-. cbn [id water_name county species
    quantity avg_length date_stocked first_seen_at].
  apply isEmpty_false in E0, E1, E2, E5.
  rewrite length_map. repeat split; auto.
Qed.

Lemma parseRow_accepts (now row : string) :
  let cells := map stripTags (matchAll tdAt row) in
  6 <= List.length cells ->
  nth 0 cells "" <> "" -> nth 1 cells "" <> "" -> nth 2 cells "" <> "" ->
  normalizeDate (nth 5 cells "") <> "" ->
  exists e, parseRow now row = Some e.
Proof.
  cbv zeta. rewrite length_map. intros L H0 H1 H2 H5.
  unfold parseRow. cbv zeta.
  apply Nat.ltb_ge in L. rewrite L.
  apply isEmpty_false in H0, H1, H2, H5. rewrite H0, H1, H2, H5.
  cbn [orb]. eexists. reflexivity.
Qed.

(** C8. In the tabular parser a row of fewer than six cells is dropped; a
    row of six cells whose water, county and species texts and whose
    normalised date are non-empty is accepted with those values, whatever
    its quantity and length cells hold; a row whose water name is empty
    after cleaning is dropped whatever its other cells hold.  The events of
    the answer are events of accepted rows, and every accepted row is
    represented in the answer. *)
Theorem tabular_row_boundary :
  (forall now row,
     let cells := map stripTags (matchAll tdAt row) in
     (List.length cells < 6 -> parseRow now row = None)
     /\ (List.length cells = 6 ->
         nth 0 cells "" <> "" -> nth 1 cells "" <> "" -> nth 2 cells "" <> "" ->
         normalizeDate (nth 5 cells "") <> "" ->
         exists e, parseRow now row = Some e
                   /\ water_name e = nth 0 cells ""
                   /\ county e = nth 1 cells ""
                   /\ species e = nth 2 cells ""
                   /\ date_stocked e = normalizeDate (nth 5 cells ""))
     /\ (nth 0 cells "" = "" -> parseRow now row = None))
  /\ (forall now html e,
        In e (parseDwrFishStockingHtml now html) ->
        exists j row, nth_error (matchAll trAt html) j = Some row
                      /\ parseRow (now j) row = Some e)
  /\ (forall now html j row e,
        nth_error (matchAll trAt html) j = Some row ->
        parseRow (now j) row = Some e ->
        In (id e) (map id (parseDwrFishStockingHtml now html)))
  /\ (forall now,
        parseRow now (tableRow ["Blue Lake"; "Wasatch"; "Rainbow Trout"; "1,200"; "10.5"])
        = None)
  /\ (forall now,
        parseRow now (tableRow [" "; "Wasatch"; "Rainbow Trout"; "1,200"; "10.5"; "3/4/2026"])
        = None)
  /\ (forall now,
        exists e,
          parseRow now (tableRow ["Blue Lake"; "Wasatch"; "Rainbow Trout"; ""; ""; "3/4/2026"])
          = Some e /\ quantity e = None /\ avg_length e = None).
Proof.
  split; [|split; [|split; [|split; [|split]]]].
  - intros now row cells. subst cells. split; [|split].
    + rewrite length_map. intros L. unfold parseRow.
      apply Nat.ltb_lt in L. now rewrite L.
    + intros L H0 H1 H2 H5.
      destruct (parseRow_accepts now row) as [e He]; auto.
      { rewrite L. apply Nat.le_refl. }
      exists e. split; [exact He|].
      apply parseRow_some in He. cbv zeta in He. tauto.
    + intros H0. unfold parseRow.
      destruct (List.length (matchAll tdAt row) <? 6)%nat; [reflexivity|].
      cbv zeta. rewrite H0. reflexivity.
  - exact dwr_event_from_row.
  - exact dwr_row_represented.
  - intros now. reflexivity.
  - intros now. reflexivity.
  - intros now. eexists. split; [reflexivity|]. split; reflexivity.
Qed.

Lemma tabular_row_boundary_witness :
  exists e,
    parseRow "t" blueLakeRow = Some e
    /\ water_name e = "Blue Lake" /\ county e = "Wasatch"
    /\ species e = "Rainbow Trout" /\ date_stocked e = "2026-03-04".
Proof.
  destruct (proj1 (proj2 (proj1 tabular_row_boundary "t" blueLakeRow)))
    as (e & He & H0 & H1 & H2 & H5);
    try (vm_compute; congruence).
  exists e. split; [exact He|].
  rewrite H0, H1, H2, H5. repeat split; reflexivity.
Defined.

(** ** Fingerprints and identifiers *)

Lemma length_append (a b : string) : length (a ++ b) = length a + length b.
Proof. induction a as [|x a IH]; simpl; [reflexivity | now rewrite IH]. Qed.

Lemma append_inj_l (a x y : string) : a ++ x = a ++ y -> x = y.
Proof.
  induction a as [|c a IH]; simpl; intros H; [exact H|].
  injection H as H. exact (IH H).
Qed.

Lemma append_inj_r (b x y : string) : x ++ b = y ++ b -> x = y.
Proof.
  intros H.
  assert (L : length x = length y).
  { apply (f_equal length) in H. rewrite !length_append in H. lia. }
  revert y H L. induction x as [|c x IH]; intros [|d y] H L;
    try discriminate L; [reflexivity|].
  simpl in H. injection H as -> H. f_equal. apply IH; [exact H|].
  simpl in L. lia.
Qed.

(** The value between the same texts is determined by the whole. *)
Lemma append_mid_inj (a b x y : string) : a ++ x ++ b = a ++ y ++ b -> x = y.
Proof. intros H. apply append_inj_l in H. now apply append_inj_r in H. Qed.

Lemma string_of_uint_digits (d : Decimal.uint) :
  allDigits (NilEmpty.string_of_uint d) = true.
Proof. unfold allDigits. induction d; simpl; auto. Qed.

Lemma stringOfN_digits (n : N) : allDigits (stringOfN n) = true.
Proof. apply string_of_uint_digits. Qed.

Lemma stringOfN_inj (n m : N) : stringOfN n = stringOfN m -> n = m.
Proof.
  unfold stringOfN. intros H.
  apply DecimalN.Unsigned.to_uint_inj.
  pose proof (NilEmpty.usu (N.to_uint n)) as Hn.
  pose proof (NilEmpty.usu (N.to_uint m)) as Hm.
  rewrite H in Hn. congruence.
Qed.

Lemma stringOfN_nonempty (n : N) : stringOfN n <> "".
Proof.
  unfold stringOfN. intros H.
  pose proof (NilEmpty.usu (N.to_uint n)) as Hn. rewrite H in Hn.
  simpl in Hn. injection Hn as Hn.
  destruct n as [|p]; [discriminate Hn|].
  simpl in Hn. symmetry in Hn. exact (DecimalPos.Unsigned.to_uint_nonnil p Hn).
Qed.

Lemma textOfQuantity_inj (q1 q2 : option N) :
  textOfQuantity q1 = textOfQuantity q2 -> q1 = q2.
Proof.
  destruct q1 as [n|], q2 as [m|]; simpl; intros H.
  - f_equal. now apply stringOfN_inj.
  - now apply stringOfN_nonempty in H.
  - symmetry in H. now apply stringOfN_nonempty in H.
  - reflexivity.
Qed.

(** A text of digits, a dot and more is split in one way only. *)
Lemma digits_dot_inj (a b f g : string) :
  allDigits a = true -> allDigits b = true ->
  a ++ String "." f = b ++ String "." g -> a = b /\ f = g.
Proof.
  unfold allDigits. revert b.
  induction a as [|x a IH]; intros [|y b] Ha Hb H; simpl in *.
  - injection H as ->. auto.
  - injection H as <- _. apply andb_prop in Hb as [Hb _]. discriminate Hb.
  - injection H as -> _. apply andb_prop in Ha as [Ha _]. discriminate Ha.
  - injection H as -> H. apply andb_prop in Ha as [_ Ha].
    apply andb_prop in Hb as [_ Hb].
    destruct (IH b Ha Hb H) as [-> ->]. auto.
Qed.

Lemma digits_no_dot (a b f : string) :
  allDigits a = true -> a <> b ++ String "." f.
Proof.
  unfold allDigits. revert a. induction b as [|y b IH]; intros [|x a] Ha H;
    simpl in *; try discriminate H.
  - injection H as -> _. apply andb_prop in Ha as [Ha _]. discriminate Ha.
  - injection H as _ H. apply andb_prop in Ha as [_ Ha]. exact (IH a Ha H).
Qed.

Lemma stringOfDecimal_inj (x y : decimal) :
  stringOfDecimal x = stringOfDecimal y -> x = y.
Proof.
  destruct x as [i f], y as [j g]. unfold stringOfDecimal.
  cbn [int_part frac].
  pose proof (stringOfN_digits i) as Di. pose proof (stringOfN_digits j) as Dj.
  destruct f as [|c f], g as [|d g]; cbn [isEmpty append]; intros H.
  - rewrite !append_nil_r in H. apply stringOfN_inj in H. now subst.
  - rewrite append_nil_r in H. now apply digits_no_dot in H.
  - rewrite append_nil_r in H. symmetry in H. now apply digits_no_dot in H.
  - apply digits_dot_inj in H as [H1 H2]; auto.
    apply stringOfN_inj in H1. congruence.
Qed.

Lemma stringOfDecimal_nonempty (x : decimal) : stringOfDecimal x <> "".
Proof.
  unfold stringOfDecimal. intros H.
  destruct (stringOfN (int_part x)) eqn:E; [|discriminate H].
  now apply stringOfN_nonempty in E.
Qed.

Lemma textOfLength_inj (x y : option decimal) :
  textOfLength x = textOfLength y -> x = y.
Proof.
  destruct x as [a|], y as [b|]; simpl; intros H.
  - f_equal. now apply stringOfDecimal_inj.
  - now apply stringOfDecimal_nonempty in H.
  - symmetry in H. now apply stringOfDecimal_nonempty in H.
  - reflexivity.
Qed.

Lemma dwrFingerprint_one_field (e1 e2 : event) :
  differInOneField e1 e2 -> dwrFingerprintOf e1 <> dwrFingerprintOf e2.
Proof.
  unfold differInOneField, dwrFingerprintOf, dwrFingerprint.
  intros H E.
  destruct H as [H|[H|[H|[H|[H|H]]]]];
    destruct H as (Hw & Hc & Hs & Hq & Hl & Hd);
    rewrite ?Hw, ?Hc, ?Hs, ?Hq, ?Hl, ?Hd in E.
  - apply append_inj_r in E. contradiction.
  - apply append_inj_l in E. apply append_inj_l in E.
    apply append_inj_r in E. contradiction.
  - do 4 apply append_inj_l in E. apply append_inj_r in E. contradiction.
  - do 6 apply append_inj_l in E. apply append_inj_r in E.
    apply textOfQuantity_inj in E. contradiction.
  - do 8 apply append_inj_l in E. apply append_inj_r in E.
    apply textOfLength_inj in E. contradiction.
  - do 10 apply append_inj_l in E. contradiction.
Qed.

Lemma coFingerprint_one_field (e1 e2 : event) :
  differInOneField e1 e2 ->
  quantity e1 = quantity e2 -> avg_length e1 = avg_length e2 ->
  coFingerprintOf e1 <> coFingerprintOf e2.
Proof.
  unfold differInOneField, coFingerprintOf, coFingerprint.
  intros H Q L E.
  destruct H as [H|[H|[H|[H|[H|H]]]]];
    destruct H as (Hw & Hc & Hs & Hq & Hl & Hd);
    try contradiction;
    rewrite ?Hw, ?Hc, ?Hs, ?Hd in E.
  - apply append_inj_l in E. apply append_inj_r in E. contradiction.
  - do 3 apply append_inj_l in E. apply append_inj_r in E. contradiction.
  - do 5 apply append_inj_l in E. apply append_inj_r in E. contradiction.
  - do 7 apply append_inj_l in E. contradiction.
Qed.

(** ** The free-text parser *)

Lemma coTriple_some (now l0 l1 l2 : string) (e : event) :
  coTriple now l0 l1 l2 = Some e ->
  isBad (clean l0) = false /\ isBad (clean l1) = false /\ isBad (clean l2) = false
  /\ isDate (clean l0) = false /\ isDate (clean l1) = false
  /\ isDate (clean l2) = true
  /\ water_name e = clean l0
  /\ county e = toUpperCase (clean l1)
  /\ species e = "TROUT"
  /\ quantity e = None /\ avg_length e = None
  /\ date_stocked e = coNormalizeDate (clean l2)
  /\ first_seen_at e = now
  /\ id e = sha1 (coFingerprintOf e).
Proof.
  unfold coTriple. cbv zeta.
  destruct (isEmpty (clean l0) || isEmpty (clean l1) || isEmpty (clean l2));
    [discriminate|].
  destruct (isBad (clean l0)); [discriminate|].
  destruct (isBad (clean l1)); [discriminate|].
  destruct (isBad (clean l2)); [discriminate|].
  destruct (isDate (clean l0)); [discriminate|].
  destruct (isDate (clean l1)); [discriminate|].
  destruct (isDate (clean l2)); [|discriminate].
  cbn [orb negb].
  destruct (isEmpty (coNormalizeDate (clean l2))); [discriminate|].
  intros H. injection H as <-. unfold coFingerprintOf.
  cbn [id water_name county species quantity avg_length date_stocked first_seen_at].
  repeat split; reflexivity.
Qed.

Lemma coWalk_accept (now : nat -> string) (i : nat) (l0 l1 l2 : string)
    (rest : list string) (e : event) :
  coTriple (now i) l0 l1 l2 = Some e ->
  coWalk now i (l0 :: l1 :: l2 :: rest) = e :: coWalk now (i + 3) rest.
Proof. intros H. cbn [coWalk]. now rewrite H. Qed.

Lemma coWalk_reject (now : nat -> string) (i : nat) (l0 l1 l2 : string)
    (rest : list string) :
  coTriple (now i) l0 l1 l2 = None ->
  coWalk now i (l0 :: l1 :: l2 :: rest) = coWalk now (S i) (l1 :: l2 :: rest).
Proof. intros H. cbn [coWalk]. now rewrite H. Qed.

Lemma coWalk_short (now : nat -> string) (i : nat) (lines : list string) :
  List.length lines < 3 -> coWalk now i lines = [].
Proof.
  destruct lines as [|l0 [|l1 [|l2 rest]]]; simpl; intros H;
    try reflexivity; lia.
Qed.

(** An event of the walk is the event of three consecutive lines. *)
Lemma coWalk_In (now : nat -> string) (e : event) (lines : list string) (i : nat) :
  In e (coWalk now i lines) ->
  exists pre l0 l1 l2 post,
    lines = (pre ++ l0 :: l1 :: l2 :: post)%list
    /\ coTriple (now (i + List.length pre)) l0 l1 l2 = Some e.
Proof.
  remember (List.length lines) as n eqn:Hn.
  assert (Hle : List.length lines <= n) by lia. clear Hn.
  revert lines i Hle. induction n as [|n IH]; intros lines i Hle.
  - destruct lines; [|simpl in Hle; lia]. simpl. tauto.
  - destruct lines as [|l0 [|l1 [|l2 rest]]]; try (simpl; tauto).
    destruct (coTriple (now i) l0 l1 l2) as [e0|] eqn:E.
    + rewrite (coWalk_accept _ _ _ _ _ _ _ E). intros [->|H].
      * exists [], l0, l1, l2, rest. simpl. rewrite Nat.add_0_r. auto.
      * apply IH in H; [|simpl in Hle; lia].
        destruct H as (pre & a & b & c & post & -> & H).
        exists (l0 :: l1 :: l2 :: pre), a, b, c, post. split; [reflexivity|].
        simpl. replace (i + S (S (S (List.length pre))))
          with (i + 3 + List.length pre) by lia. exact H.
    + rewrite (coWalk_reject _ _ _ _ _ _ E). intros H.
      apply IH in H; [|simpl in Hle; simpl; lia].
      destruct H as (pre & a & b & c & post & Hl & H).
      exists (l0 :: pre), a, b, c, post. split.
      * simpl. now rewrite <- Hl.
      * simpl. replace (i + S (List.length pre)) with (S i + List.length pre) by lia.
        exact H.
Qed.

Lemma co_event_from_triple (now : nat -> string) (html : string) (e : event) :
  In e (coEventsOfHtml now html) ->
  exists t l0 l1 l2, coTriple t l0 l1 l2 = Some e.
Proof.
  unfold coEventsOfHtml. cbv zeta.
  destruct (indexOf _ _) as [startIdx|]; [|simpl; tauto].
  unfold dedupById. intros H. apply dedupFrom_subset in H.
  apply coWalk_In in H as (pre & l0 & l1 & l2 & post & _ & H).
  now exists (now (0 + List.length pre)), l0, l1, l2.
Qed.

(** *** The bounded date pattern *)

Lemma boundedDateFrom_eq (prev : option ascii) (s : string) :
  boundedDateFrom prev s =
  boundedDateAt prev s ||
  match s with "" => false | String c r => boundedDateFrom (Some c) r end.
Proof. destruct s; reflexivity. Qed.

Lemma isDigit_isWord (c : ascii) : isDigit c = true -> isWord c = true.
Proof. intros H. unfold isWord. now rewrite H. Qed.

Lemma lastChar_some (s : string) (c : ascii) :
  exists x, lastChar (String c s) = Some x.
Proof.
  revert c. induction s as [|d s IH]; intros c; [now exists c|].
  destruct (IH d) as [x Hx]. exists x. exact Hx.
Qed.

Lemma lastChar_cons (c : ascii) (s : string) :
  lastChar (String c s) = match lastChar s with Some x => Some x | None => Some c end.
Proof.
  destruct s as [|d s]; [reflexivity|].
  destruct (lastChar_some s d) as [x Hx]. rewrite Hx. exact Hx.
Qed.

Lemma lastChar_digits (y : string) :
  allDigits y = true -> y <> "" -> isWordOpt (lastChar y) = true.
Proof.
  unfold allDigits. induction y as [|c y IH]; [congruence|].
  cbn [forallb_string]. intros H _. apply andb_prop in H as [Hc Hy].
  rewrite lastChar_cons. destruct y as [|d y].
  - simpl. now apply isDigit_isWord.
  - assert (K : isWordOpt (lastChar (String d y)) = true) by (apply IH; [exact Hy | discriminate]).
    destruct (lastChar (String d y)); [exact K | discriminate K].
Qed.

Lemma headChar_group (m r : string) :
  allDigits m = true -> (length m = 1 \/ length m = 2) ->
  isWordOpt (headChar (m ++ r)) = true.
Proof.
  unfold allDigits. destruct m as [|a m]; simpl; intros H L.
  - destruct L; discriminate.
  - apply andb_prop in H as [H _]. now apply isDigit_isWord.
Qed.

Lemma boundedDateAt_sound (prev : option ascii) (s : string) :
  boundedDateAt prev s = true ->
  exists m d y post,
    dateShaped m d y /\ s = dateText m d y ++ post
    /\ isWordOpt prev = false /\ isWordOpt (headChar post) = false.
Proof.
  unfold boundedDateAt. intros H. apply andb_prop in H as [Hb H].
  destruct (digits12 s _) as [[]|] eqn:E; [clear H | discriminate H].
  apply digits12_inv in E as (m & r1 & -> & Hm & Lm & E).
  apply lit_inv in E as (r2 & -> & E).
  apply digits12_inv in E as (d & r3 & -> & Hd & Ld & E).
  apply lit_inv in E as (r4 & -> & E).
  apply digits4_inv in E as (y & r5 & -> & Hy & Ly & E).
  destruct (wordBoundary (lastChar y) r5) eqn:Hb'; [clear E | discriminate E].
  exists m, d, y, r5. split; [unfold dateShaped; auto 10|].
  split; [unfold dateText; rewrite !append_assoc; reflexivity|].
  unfold wordBoundary in Hb, Hb'.
  rewrite headChar_group in Hb by assumption.
  assert (Hl : isWordOpt (lastChar y) = true).
  { apply lastChar_digits; [assumption|]. intros ->. discriminate Ly. }
  rewrite Hl in Hb'.
  split.
  - now destruct (isWordOpt prev).
  - now destruct (isWordOpt (headChar r5)).
Qed.

Lemma boundedDateAt_shape (prev : option ascii) (m d y post : string) :
  dateShaped m d y ->
  isWordOpt prev = false -> isWordOpt (headChar post) = false ->
  boundedDateAt prev (dateText m d y ++ post) = true.
Proof.
  intros (Hm & Lm & Hd & Ld & Hy & Ly) Hp Hq.
  unfold boundedDateAt, wordBoundary, dateText. rewrite !append_assoc.
  rewrite headChar_group, Hp by assumption. cbn [xorb andb append].
  erewrite digits12_group; [reflexivity | assumption | assumption |].
  cbn [lit]. rewrite Ascii.eqb_refl.
  apply digits12_group; [assumption | assumption |].
  cbn [lit]. rewrite Ascii.eqb_refl.
  assert (Hl : isWordOpt (lastChar y) = true).
  { apply lastChar_digits; [assumption|]. intros ->. discriminate Ly. }
  destruct y as [|a [|b [|c [|e [|f y]]]]]; try discriminate Ly.
  unfold allDigits in Hy. cbn [forallb_string] in Hy. rewrite andb_true_r in Hy.
  rewrite !andb_assoc in Hy. cbn [digits4 append]. rewrite Hy.
  unfold wordBoundary. rewrite Hl, Hq. reflexivity.
Qed.

Lemma boundedDateFrom_sound (s : string) (prev : option ascii) :
  boundedDateFrom prev s = true ->
  exists pre m d y post,
    dateShaped m d y /\ s = pre ++ dateText m d y ++ post
    /\ isWordOpt (lastOr prev pre) = false /\ isWordOpt (headChar post) = false.
Proof.
  revert prev. induction s as [|c s IH]; intros prev; rewrite boundedDateFrom_eq;
    intros H; apply orb_prop in H as [H|H]; try discriminate H.
  - apply boundedDateAt_sound in H as (m & d & y & post & Hs & E & Hp & Hq).
    now exists "", m, d, y, post.
  - apply boundedDateAt_sound in H as (m & d & y & post & Hs & E & Hp & Hq).
    now exists "", m, d, y, post.
  - apply IH in H as (pre & m & d & y & post & Hs & -> & Hp & Hq).
    exists (String c pre), m, d, y, post.
    split; [exact Hs|]. split; [reflexivity|]. split; [|exact Hq].
    unfold lastOr in *. rewrite lastChar_cons.
    destruct (lastChar pre); exact Hp.
Qed.

Lemma boundedDateFrom_complete (pre m d y post : string) (prev : option ascii) :
  dateShaped m d y ->
  isWordOpt (lastOr prev pre) = false -> isWordOpt (headChar post) = false ->
  boundedDateFrom prev (pre ++ dateText m d y ++ post) = true.
Proof.
  intros Hs. revert prev. induction pre as [|c pre IH]; intros prev Hp Hq;
    rewrite boundedDateFrom_eq.
  - cbn [append]. rewrite boundedDateAt_shape; auto.
  - cbn [append]. rewrite IH; [apply orb_true_r | | exact Hq].
    unfold lastOr in *. rewrite lastChar_cons in Hp.
    destruct (lastChar pre); exact Hp.
Qed.

Lemma isDate_dateShapedText (s : string) : isDate s = true <-> dateShapedText s.
Proof.
  unfold isDate, dateShapedText. split.
  - intros H. apply boundedDateFrom_sound in H
      as (pre & m & d & y & post & Hs & E & Hp & Hq).
    exists pre, m, d, y, post.
    split; [exact Hs|]. split; [exact E|]. split; [|exact Hq].
    unfold lastOr in Hp. now destruct (lastChar pre).
  - intros (pre & m & d & y & post & Hs & -> & Hp & Hq).
    apply boundedDateFrom_complete; try assumption.
    unfold lastOr. now destruct (lastChar pre).
Qed.

(** C5. In the free-text parser three consecutive lines give an event
    only if none of them is a header or footer label, the first two are
    not date-shaped and the third is; the event then carries the first
    line as water, the second in upper case as county and the normalised
    third as date.  After an accepted triple the walk goes on behind its
    three lines, after a rejected one it goes on one line further; fewer
    than three lines left end it.  On the lines "Blue Lake", "Wasatch",
    "3/4/2026", "Body of Water", "Green Lake", "Summit", "3/5/2026" it
    finds exactly two events, dated 2026-03-04 and 2026-03-05.  A text is
    date-shaped when it holds D[D]/D[D]/DDDD between two word
    boundaries. *)
Theorem free_text_sliding_window :
  (forall s, isDate s = true <-> dateShapedText s)
  /\ (forall now l0 l1 l2 e,
        coTriple now l0 l1 l2 = Some e ->
        isBad (clean l0) = false /\ isBad (clean l1) = false
        /\ isBad (clean l2) = false
        /\ isDate (clean l0) = false /\ isDate (clean l1) = false
        /\ isDate (clean l2) = true
        /\ water_name e = clean l0 /\ county e = toUpperCase (clean l1)
        /\ date_stocked e = coNormalizeDate (clean l2))
  /\ (forall now i l0 l1 l2 rest e,
        coTriple (now i) l0 l1 l2 = Some e ->
        coWalk now i (l0 :: l1 :: l2 :: rest) = e :: coWalk now (i + 3) rest)
  /\ (forall now i l0 l1 l2 rest,
        coTriple (now i) l0 l1 l2 = None ->
        coWalk now i (l0 :: l1 :: l2 :: rest) = coWalk now (S i) (l1 :: l2 :: rest))
  /\ (forall now i lines, List.length lines < 3 -> coWalk now i lines = [])
  /\ (forall now,
        map (fun e => (water_name e, county e, date_stocked e))
          (coWalk now 0 misalignedLines)
        = [ ("Blue Lake", "WASATCH", "2026-03-04");
            ("Green Lake", "SUMMIT", "2026-03-05") ])
  /\ (forall now,
        map (fun e => (water_name e, county e, date_stocked e))
          (dedupById (coWalk now 0 (sectionLines (join newline misalignedLines))))
        = [ ("Blue Lake", "WASATCH", "2026-03-04");
            ("Green Lake", "SUMMIT", "2026-03-05") ]).
Proof.
  split; [|split; [|split; [|split; [|split; [|split]]]]].
  - exact isDate_dateShapedText.
  - intros now l0 l1 l2 e H. apply coTriple_some in H. tauto.
  - exact coWalk_accept.
  - exact coWalk_reject.
  - exact coWalk_short.
  - intros now. vm_compute. reflexivity.
  - intros now. vm_compute. reflexivity.
Qed.

Lemma free_text_sliding_window_witness :
  exists e,
    coTriple "t" "Green Lake" "Summit" "3/5/2026" = Some e
    /\ coWalk (fun _ => "t") 0 ["Green Lake"; "Summit"; "3/5/2026"; "Link"]
       = e :: coWalk (fun _ => "t") 3 ["Link"]
    /\ isBad (clean "Green Lake") = false /\ isDate (clean "3/5/2026") = true
    /\ coWalk (fun _ => "t") 0 ["Body of Water"; "Green Lake"; "Summit"; "3/5/2026"]
       = coWalk (fun _ => "t") 1 ["Green Lake"; "Summit"; "3/5/2026"]
    /\ coWalk (fun _ => "t") 5 ["Summit"; "3/5/2026"] = [].
Proof.
  destruct (coTriple "t" "Green Lake" "Summit" "3/5/2026") as [e|] eqn:E;
    [|vm_compute in E; discriminate E].
  exists e. split; [reflexivity|].
  pose proof (proj2 free_text_sliding_window) as W.
  split; [exact (proj1 (proj2 W) (fun _ => "t") 0 _ _ _ ["Link"] e E)|].
  pose proof (proj1 W "t" _ _ _ e E) as H.
  split; [tauto|]. split; [tauto|].
  split.
  - apply (proj1 (proj2 (proj2 W))). reflexivity.
  - apply (proj1 (proj2 (proj2 (proj2 W)))). simpl. lia.
Defined.

(** ** Identifier scheme *)

Lemma dwr_event_id (now : nat -> string) (html : string) (e : event) :
  In e (parseDwrFishStockingHtml now html) -> id e = sha1 (dwrFingerprintOf e).
Proof.
  intros H. apply dwr_event_from_row in H as (j & row & _ & H).
  apply parseRow_some in H. cbv zeta in H. unfold dwrFingerprintOf. tauto.
Qed.

Lemma co_event_id (now : nat -> string) (html : string) (e : event) :
  In e (coEventsOfHtml now html) ->
  id e = sha1 (coFingerprintOf e) /\ quantity e = None /\ avg_length e = None.
Proof.
  intros H. apply co_event_from_triple in H as (t & l0 & l1 & l2 & H).
  apply coTriple_some in H. tauto.
Qed.

Lemma dwrFingerprintOf_same (e1 e2 : event) :
  sameSixFields e1 e2 -> dwrFingerprintOf e1 = dwrFingerprintOf e2.
Proof.
  intros (Hw & Hc & Hs & Hq & Hl & Hd). unfold dwrFingerprintOf.
  now rewrite Hw, Hc, Hs, Hq, Hl, Hd.
Qed.

Lemma coFingerprintOf_same (e1 e2 : event) :
  sameSixFields e1 e2 -> coFingerprintOf e1 = coFingerprintOf e2.
Proof.
  intros (Hw & Hc & Hs & Hq & Hl & Hd). unfold coFingerprintOf.
  now rewrite Hw, Hc, Hs, Hd.
Qed.

(** C1, as the code has it.  An event of the tabular parser is identified
    by the SHA-1 hex digest of its six values joined by a bar: water name,
    county, species, quantity (empty when absent), average length (empty
    when absent), normalised date.  An event of the free-text parser is
    identified by the digest of the source tag CO, water name, county,
    species and normalised date joined by a bar; its quantity and length
    are always absent and have no place in the fingerprint.  Two events of
    the same parser with the same six values have the same identifier; two
    that differ in one of the six values have different fingerprints, so
    that equal identifiers would be a SHA-1 collision. *)
Theorem event_id_is_fingerprint_digest :
  (forall now html e,
     In e (parseDwrFishStockingHtml now html) ->
     id e = sha1 (dwrFingerprintOf e)
     /\ dwrFingerprintOf e
        = join "|" [ water_name e; county e; species e;
                     textOfQuantity (quantity e); textOfLength (avg_length e);
                     date_stocked e ])
  /\ (forall now html e,
        In e (coEventsOfHtml now html) ->
        id e = sha1 (coFingerprintOf e)
        /\ coFingerprintOf e
           = join "|" [ "CO"; water_name e; county e; species e; date_stocked e ]
        /\ quantity e = None /\ avg_length e = None)
  /\ (forall now1 html1 now2 html2 e1 e2,
        In e1 (parseDwrFishStockingHtml now1 html1) ->
        In e2 (parseDwrFishStockingHtml now2 html2) ->
        (sameSixFields e1 e2 -> id e1 = id e2)
        /\ (differInOneField e1 e2 ->
            dwrFingerprintOf e1 <> dwrFingerprintOf e2
            /\ (id e1 = id e2 ->
                sha1Collision (dwrFingerprintOf e1) (dwrFingerprintOf e2))))
  /\ (forall now1 html1 now2 html2 e1 e2,
        In e1 (coEventsOfHtml now1 html1) ->
        In e2 (coEventsOfHtml now2 html2) ->
        (sameSixFields e1 e2 -> id e1 = id e2)
        /\ (differInOneField e1 e2 ->
            coFingerprintOf e1 <> coFingerprintOf e2
            /\ (id e1 = id e2 ->
                sha1Collision (coFingerprintOf e1) (coFingerprintOf e2)))).
Proof.
  split; [|split; [|split]].
  - intros now html e H. split; [exact (dwr_event_id _ _ _ H) | reflexivity].
  - intros now html e H. destruct (co_event_id _ _ _ H) as (Hi & Hq & Hl).
    repeat split; assumption.
  - intros now1 html1 now2 html2 e1 e2 H1 H2.
    apply dwr_event_id in H1, H2. split.
    + intros S. rewrite H1, H2. f_equal. now apply dwrFingerprintOf_same.
    + intros D. pose proof (dwrFingerprint_one_field _ _ D) as N.
      split; [exact N|]. intros E. split; [exact N | congruence].
  - intros now1 html1 now2 html2 e1 e2 H1 H2.
    apply co_event_id in H1 as (H1 & Q1 & L1), H2 as (H2 & Q2 & L2). split.
    + intros S. rewrite H1, H2. f_equal. now apply coFingerprintOf_same.
    + intros D.
      assert (N : coFingerprintOf e1 <> coFingerprintOf e2)
        by (apply coFingerprint_one_field; congruence).
      split; [exact N|]. intros E. split; [exact N | congruence].
Qed.

Lemma event_id_is_fingerprint_digest_witness :
  exists e1 e2,
    In e1 (parseDwrFishStockingHtml (fun _ => "t1") blueLakeRow)
    /\ In e2 (parseDwrFishStockingHtml (fun _ => "t2") (blueLakeRow ++ greenLakeRow))
    /\ id e1 = sha1 "Blue Lake|Wasatch|Rainbow Trout|1200|10.5|2026-03-04"
    /\ differInOneField e1 e2
    /\ dwrFingerprintOf e1 <> dwrFingerprintOf e2.
Proof.
  destruct (parseDwrFishStockingHtml (fun _ => "t1") blueLakeRow)
    as [|e1 l1] eqn:E1; [vm_compute in E1; discriminate E1|].
  destruct (parseDwrFishStockingHtml (fun _ => "t2") (blueLakeRow ++ greenLakeRow))
    as [|e0 [|e2 l2]] eqn:E2; try (vm_compute in E2; discriminate E2).
  assert (I1 : In e1 (parseDwrFishStockingHtml (fun _ => "t1") blueLakeRow))
    by (rewrite E1; now left).
  assert (I2 : In e2 (parseDwrFishStockingHtml (fun _ => "t2") (blueLakeRow ++ greenLakeRow)))
    by (rewrite E2; right; now left).
  assert (D : differInOneField e1 e2).
  { vm_compute in E1. vm_compute in E2.
    injection E1 as <- _. injection E2 as _ <- _.
    left. cbn. repeat split; congruence. }
  exists e1, e2. rewrite <- E1, <- E2.
  split; [exact I1|]. split; [exact I2|].
  pose proof (proj1 event_id_is_fingerprint_digest _ _ _ I1) as [Hid Hfp].
  split.
  - rewrite Hid. f_equal. vm_compute in E1. injection E1 as <- _. reflexivity.
  - split; [exact D|].
    exact (proj1 (proj2 (proj1 (proj2 (proj2 event_id_is_fingerprint_digest))
                           _ _ _ _ _ _ I1 I2) D)).
Defined.

(** C1, counterexample.  The event the free-text parser makes of the lines
    "Blue Lake", "wasatch", "3/4/2026" is not identified by the digest of
    its six values joined in the stated order: its fingerprint starts with
    the tag CO and has no place for quantity and length. *)
Lemma free_text_id_is_not_six_field_digest :
  exists e,
    In e (coEventsOfHtml (fun _ => "t") troutReport)
    /\ join "|" [ water_name e; county e; species e;
                  textOfQuantity (quantity e); textOfLength (avg_length e);
                  date_stocked e ]
       = "Blue Lake|WASATCH|TROUT|||2026-03-04"
    /\ id e <> sha1 "Blue Lake|WASATCH|TROUT|||2026-03-04"
    /\ id e = sha1 "CO|Blue Lake|WASATCH|TROUT|2026-03-04".
Proof.
  eexists. split; [vm_compute; left; reflexivity|].
  split; [reflexivity|]. split; [vm_compute; discriminate | vm_compute; reflexivity].
Qed.

(** Two rows that differ in two values can share a fingerprint when a
    cell holds the bar itself. *)
Example bar_in_cells_shares_fingerprint :
  forall now1 now2,
    map id (parseDwrFishStockingHtml now1
              (tableRow ["Mill|Pond"; "Cache"; "Rainbow"; "5"; "9"; "3/4/2026"]))
    = map id (parseDwrFishStockingHtml now2
                (tableRow ["Mill"; "Pond|Cache"; "Rainbow"; "5"; "9"; "3/4/2026"])).
Proof. intros now1 now2. vm_compute. reflexivity. Qed.

(** ** Letter case of county and species *)

Lemma upperChar_idem (c : ascii) : upperChar (upperChar c) = upperChar c.
Proof.
  destruct c as [[] [] [] [] [] [] [] []]; vm_compute; reflexivity.
Qed.

Lemma toUpperCase_idem (s : string) : toUpperCase (toUpperCase s) = toUpperCase s.
Proof.
  unfold toUpperCase. induction s as [|c s IH]; simpl; [reflexivity|].
  now rewrite upperChar_idem, IH.
Qed.

(** C4, as the code has it.  The free-text parser puts the county in upper
    case, whatever the case of the region line, and its species is the
    constant TROUT.  The tabular parser copies county and species from the
    cleaned cells of the row, letter case unchanged. *)
Theorem county_and_species_case :
  (forall now html e,
     In e (coEventsOfHtml now html) ->
     toUpperCase (county e) = county e
     /\ species e = "TROUT" /\ toUpperCase (species e) = species e)
  /\ (forall now l0 l1 l2 e,
        coTriple now l0 l1 l2 = Some e -> county e = toUpperCase (clean l1))
  /\ (forall now row e,
        parseRow now row = Some e ->
        county e = nth 1 (map stripTags (matchAll tdAt row)) ""
        /\ species e = nth 2 (map stripTags (matchAll tdAt row)) "")
  /\ (forall now html e,
        In e (parseDwrFishStockingHtml now html) ->
        exists row,
          In row (matchAll trAt html)
          /\ county e = nth 1 (map stripTags (matchAll tdAt row)) ""
          /\ species e = nth 2 (map stripTags (matchAll tdAt row)) "").
Proof.
  split; [|split; [|split]].
  - intros now html e H. apply co_event_from_triple in H as (t & l0 & l1 & l2 & H).
    apply coTriple_some in H.
    destruct H as (_ & _ & _ & _ & _ & _ & _ & Hc & Hs & _).
    rewrite Hc, Hs. split; [apply toUpperCase_idem | split; reflexivity].
  - intros now l0 l1 l2 e H. apply coTriple_some in H. tauto.
  - intros now row e H. apply parseRow_some in H. cbv zeta in H. tauto.
  - intros now html e H. apply dwr_event_from_row in H as (j & row & Hj & H).
    exists row. split; [exact (nth_error_In _ _ Hj)|].
    apply parseRow_some in H. cbv zeta in H. tauto.
Qed.

Lemma county_and_species_case_witness :
  exists e,
    In e (coEventsOfHtml (fun _ => "t") troutReport)
    /\ county e = "WASATCH" /\ toUpperCase (county e) = county e
    /\ species e = "TROUT".
Proof.
  destruct (coEventsOfHtml (fun _ => "t") troutReport) as [|e l] eqn:E;
    [vm_compute in E; discriminate E|].
  assert (I : In e (coEventsOfHtml (fun _ => "t") troutReport))
    by (rewrite E; now left).
  exists e. rewrite <- E. split; [exact I|].
  destruct (proj1 county_and_species_case _ _ _ I) as (Hc & Hs & _).
  split; [|split; [exact Hc | exact Hs]].
  vm_compute in E. injection E as <- _. reflexivity.
Defined.

(** C4, counterexample.  The tabular parser leaves the county Wasatch and
    the species Rainbow Trout of the row as they are written. *)
Lemma tabular_county_not_uppercased :
  exists e,
    In e (parseDwrFishStockingHtml (fun _ => "t") blueLakeRow)
    /\ county e = "Wasatch" /\ toUpperCase (county e) <> county e
    /\ species e = "Rainbow Trout" /\ toUpperCase (species e) <> species e.
Proof.
  eexists. split; [vm_compute; left; reflexivity|].
  repeat split; try reflexivity; vm_compute; discriminate.
Qed.

(** ** The subscription matcher *)

Lemma dimension_ok (filter : list string) (value : string) :
  (List.length (map (fun x => trim (toUpperCase x)) filter) =? 0)%nat
  || includes (trim (toUpperCase value)) (map (fun x => trim (toUpperCase x)) filter)
  = true
  <-> dimensionMatches filter value.
Proof.
  unfold dimensionMatches. rewrite orb_true_iff, includes_In, Nat.eqb_eq, length_map.
  split; intros [H|H]; auto.
  - left. now apply length_zero_iff_nil.
  - left. now subst.
Qed.

(** C6. An event matches a subscription exactly when its county, its
    species and its water all match; a dimension without filter values
    always matches, a dimension with filter values matches only when the
    event's value, in upper case and trimmed, is one of the filter values
    (in upper case and trimmed) as a whole.  A subscription for the county
    WASATCH matches neither an event of the county SUMMIT nor one of the
    county WASATCH COUNTY. *)
Theorem matchesSubscription_all_dimensions :
  (forall e sub,
     matchesSubscription e sub = true
     <-> dimensionMatches (counties sub) (county e)
         /\ dimensionMatches (sub_species sub) (species e)
         /\ dimensionMatches (waters sub) (water_name e))
  /\ (forall value, dimensionMatches [] value)
  /\ (forall filter value,
        filter <> [] ->
        (dimensionMatches filter value
         <-> exists x, In x filter
                       /\ trim (toUpperCase x) = trim (toUpperCase value)))
  /\ (forall e sub,
        counties sub = ["WASATCH"] -> county e = "SUMMIT" ->
        matchesSubscription e sub = false)
  /\ (forall e sub,
        counties sub = ["WASATCH"] -> county e = "WASATCH COUNTY" ->
        matchesSubscription e sub = false).
Proof.
  split; [|split; [|split; [|split]]].
  - intros e sub. unfold matchesSubscription. cbv zeta.
    rewrite !andb_true_iff, !dimension_ok. tauto.
  - intros value. now left.
  - intros filter value Hne. unfold dimensionMatches. rewrite in_map_iff.
    split.
    + intros [H|(x & Hx & Hin)]; [contradiction|]. now exists x.
    + intros (x & Hin & Hx). right. now exists x.
  - intros e sub Hc He. unfold matchesSubscription. cbv zeta.
    rewrite Hc, He. reflexivity.
  - intros e sub Hc He. unfold matchesSubscription. cbv zeta.
    rewrite Hc, He. reflexivity.
Qed.

Lemma matchesSubscription_all_dimensions_witness :
  matchesSubscription (blueLakeEvent "t") tok1 = true
  /\ matchesSubscription
       {| id := "e"; water_name := "Rockport"; county := "SUMMIT";
          species := "RAINBOW"; quantity := None; avg_length := None;
          date_stocked := "2026-03-05"; first_seen_at := "t" |} tok1 = false
  /\ (dimensionMatches ["Wasatch "; "utah"] "wasatch"
      <-> exists x, In x ["Wasatch "; "utah"]
                    /\ trim (toUpperCase x) = trim (toUpperCase "wasatch")).
Proof.
  split; [|split].
  - apply (proj1 matchesSubscription_all_dimensions).
    split; [right; simpl; now left | split; now left].
  - apply (proj1 (proj2 (proj2 (proj2 matchesSubscription_all_dimensions))));
      reflexivity.
  - apply (proj1 (proj2 (proj2 matchesSubscription_all_dimensions))).
    discriminate.
Defined.

(** ** Notifications *)

(** C10. A quantity of zero is rendered like an absent quantity, and a
    length of zero like an absent length: the body says "Fish stocked"
    instead of a count, and has no length suffix.  A non-zero quantity is
    rendered as a count with thousands separators. *)
Theorem zero_renders_as_absent :
  (forall e,
     quantity e = Some 0%N ->
     formatNotification e = formatNotification (withQuantity None e)
     /\ exists len,
          n_body (formatNotification e)
          = water_name e ++ " (" ++ county e ++ ") — " ++ "Fish stocked" ++ len
            ++ " — " ++ date_stocked e)
  /\ (forall e,
        avg_length e = Some zeroDecimal ->
        formatNotification e = formatNotification (withLength None e)
        /\ exists qty,
             n_body (formatNotification e)
             = water_name e ++ " (" ++ county e ++ ") — " ++ qty ++ ""
               ++ " — " ++ date_stocked e)
  /\ (forall e n,
        quantity e = Some n -> n <> 0%N ->
        exists len,
          n_body (formatNotification e)
          = water_name e ++ " (" ++ county e ++ ") — "
            ++ (toLocaleString n ++ " fish") ++ len ++ " — " ++ date_stocked e)
  /\ (forall e x,
        avg_length e = Some x -> x <> zeroDecimal ->
        exists qty,
          n_body (formatNotification e)
          = water_name e ++ " (" ++ county e ++ ") — " ++ qty
            ++ (" • " ++ stringOfDecimal x ++ dquote ++ " avg")
            ++ " — " ++ date_stocked e).
Proof.
  split; [|split; [|split]].
  - intros e H. unfold formatNotification, withQuantity.
    cbn [id water_name county species quantity avg_length date_stocked].
    rewrite H. cbn [truthyN N.eqb negb n_body]. split; [reflexivity|].
    eexists. reflexivity.
  - intros e H. unfold formatNotification, withLength.
    cbn [id water_name county species quantity avg_length date_stocked].
    rewrite H. cbn [truthyDecimal zeroDecimal int_part frac N.eqb isEmpty andb negb n_body].
    split; [reflexivity|]. eexists. reflexivity.
  - intros e n H Hn. unfold formatNotification. rewrite H.
    cbn [truthyN n_body]. apply N.eqb_neq in Hn. rewrite Hn. cbn [negb].
    eexists. reflexivity.
  - intros e x H Hx. unfold formatNotification. rewrite H.
    assert (T : truthyDecimal (Some x) = true).
    { unfold truthyDecimal. destruct x as [i f]. cbn [int_part frac] in *.
      destruct (N.eqb_spec i 0) as [->|]; [|reflexivity].
      destruct f; [|reflexivity]. now elim Hx. }
    rewrite T. cbn [n_body textOfLength]. eexists. reflexivity.
Qed.

Lemma zero_renders_as_absent_witness :
  n_body (formatNotification (withQuantity (Some 0%N) (blueLakeEvent "t")))
  = n_body (formatNotification (withQuantity None (blueLakeEvent "t")))
  /\ n_body (formatNotification (withLength (Some zeroDecimal) (blueLakeEvent "t")))
     = "Blue Lake (Wasatch) — 1,200 fish — 2026-03-04"
  /\ exists len,
       n_body (formatNotification (blueLakeEvent "t"))
       = "Blue Lake (Wasatch) — " ++ ("1,200" ++ " fish") ++ len ++ " — 2026-03-04".
Proof.
  split; [|split].
  - rewrite (proj1 (proj1 zero_renders_as_absent
                      (withQuantity (Some 0%N) (blueLakeEvent "t")) eq_refl)).
    reflexivity.
  - rewrite (proj1 (proj1 (proj2 zero_renders_as_absent)
                      (withLength (Some zeroDecimal) (blueLakeEvent "t")) eq_refl)).
    reflexivity.
  - destruct (proj1 (proj2 (proj2 zero_renders_as_absent))
                (blueLakeEvent "t") 1200%N eq_refl) as [len H]; [discriminate|].
    exists len. exact H.
Defined.

(** ** The record store *)

Lemma hasId_app (i : string) (rows : list event) (e : event) :
  hasId i (rows ++ [e]) = hasId i rows || String.eqb (id e) i.
Proof. unfold hasId. rewrite existsb_app. simpl. now rewrite orb_false_r. Qed.

Lemma insertOrIgnore_known (e : event) (rows : list event) :
  hasId (id e) rows = true -> insertOrIgnore e rows = (rows, 0).
Proof. intros H. unfold insertOrIgnore. now rewrite H. Qed.

Lemma insertOrIgnore_new (e : event) (rows : list event) :
  hasId (id e) rows = false -> insertOrIgnore e rows = (rows ++ [e], 1)%list.
Proof. intros H. unfold insertOrIgnore. now rewrite H. Qed.

Lemma insertOrIgnore_keeps (i : string) (e : event) (rows : list event) :
  hasId i rows = true -> hasId i (fst (insertOrIgnore e rows)) = true.
Proof.
  intros H. unfold insertOrIgnore. destruct (hasId (id e) rows); simpl; [exact H|].
  rewrite hasId_app, H. reflexivity.
Qed.

Lemma insertOrIgnore_stores (e : event) (rows : list event) :
  hasId (id e) (fst (insertOrIgnore e rows)) = true.
Proof.
  unfold insertOrIgnore. destruct (hasId (id e) rows) eqn:H; simpl; [exact H|].
  rewrite hasId_app, String.eqb_refl. apply orb_true_r.
Qed.

Lemma tx_keeps (i : string) (evs rows : list event) (n : nat) :
  hasId i rows = true -> hasId i (fst (tx evs rows n)) = true.
Proof.
  revert rows n. induction evs as [|e rest IH]; intros rows n H; simpl; [exact H|].
  pose proof (insertOrIgnore_keeps i e rows H) as K.
  destruct (insertOrIgnore e rows) as [rows' changes]. simpl in K.
  now apply IH.
Qed.

(** After the transaction every identifier of the batch is stored. *)
Lemma tx_stores (evs rows : list event) (n : nat) (e : event) :
  In e evs -> hasId (id e) (fst (tx evs rows n)) = true.
Proof.
  revert rows n. induction evs as [|x rest IH]; intros rows n; simpl; [tauto|].
  intros [->|H].
  - pose proof (insertOrIgnore_stores e rows) as K.
    destruct (insertOrIgnore e rows) as [rows' changes]. simpl in K.
    now apply tx_keeps.
  - destruct (insertOrIgnore x rows) as [rows' changes]. now apply IH.
Qed.

(** A batch of known identifiers leaves the table and the count alone. *)
Lemma tx_known (evs rows : list event) (n : nat) :
  (forall e, In e evs -> hasId (id e) rows = true) -> tx evs rows n = (rows, n).
Proof.
  revert n. induction evs as [|e rest IH]; intros n H; simpl; [reflexivity|].
  rewrite insertOrIgnore_known by (apply H; now left).
  simpl. apply IH. intros x Hx. apply H. now right.
Qed.

Lemma filter_unknown (i : string) (rows : list event) :
  hasId i rows = false -> filter (fun r => String.eqb (id r) i) rows = [].
Proof.
  unfold hasId. induction rows as [|r rows IH]; simpl; [reflexivity|].
  intros H. apply orb_false_elim in H as [H1 H2]. rewrite H1. now apply IH.
Qed.

(** C7. An event whose identifier is not stored yet, inserted by two
    separate calls (the second time possibly read at another instant), is
    counted once in all: the first call inserts it, the second inserts
    nothing, raises nothing and leaves the store as it is, with exactly
    one record of that identifier, the one of the first call.  More
    generally a batch inserted a second time inserts nothing and changes
    nothing. *)
Theorem insert_twice_counts_once :
  (forall d e e',
     id e' = id e -> hasId (id e) (stock_events d) = false ->
     exists d1 o1 o2,
       insertNewEvents [e] d = (d1, o1)
       /\ insertNewEvents [e'] d1 = (d1, o2)
       /\ insertedCount o1 = 1 /\ insertedCount o2 = 0
       /\ insertedCount o1 + insertedCount o2 = 1
       /\ stock_events d1 = (stock_events d ++ [e])%list
       /\ filter (fun r => String.eqb (id r) (id e)) (stock_events d1) = [e])
  /\ (forall d evs,
        insertNewEvents evs (fst (insertNewEvents evs d))
        = (fst (insertNewEvents evs d), {| insertedCount := 0; newOnes := [] |})).
Proof.
  split.
  - intros d e e' Hid Hnew.
    unfold insertNewEvents. cbn [tx].
    rewrite (insertOrIgnore_new e _ Hnew). cbn [Nat.ltb Nat.leb Nat.add].
    cbn [stock_events subscriptions].
    assert (K : hasId (id e') (stock_events d ++ [e]) = true)
      by (rewrite Hid, hasId_app, String.eqb_refl; apply orb_true_r).
    eexists _, _, _. split; [reflexivity|].
    cbn [stock_events subscriptions insertedCount].
    rewrite (insertOrIgnore_known e' _ K). cbn [Nat.ltb Nat.leb firstn].
    split; [reflexivity|]. cbn [insertedCount]. repeat split.
    rewrite filter_app, (filter_unknown _ _ Hnew). simpl.
    now rewrite String.eqb_refl.
  - intros d evs. unfold insertNewEvents.
    destruct (tx evs (stock_events d) 0) as [rows count] eqn:E.
    cbn [fst stock_events subscriptions].
    rewrite tx_known; [reflexivity|].
    intros e He. pose proof (tx_stores evs (stock_events d) 0 e He) as K.
    now rewrite E in K.
Qed.

Lemma insert_twice_counts_once_witness :
  exists d1 o1 o2,
    insertNewEvents [blueLakeEvent "2026-03-04T12:00:00.000Z"] emptyDb = (d1, o1)
    /\ insertNewEvents [blueLakeEvent "2026-03-05T12:00:00.000Z"] d1 = (d1, o2)
    /\ insertedCount o1 + insertedCount o2 = 1
    /\ stock_events d1 = [blueLakeEvent "2026-03-04T12:00:00.000Z"].
Proof.
  destruct (proj1 insert_twice_counts_once emptyDb
              (blueLakeEvent "2026-03-04T12:00:00.000Z")
              (blueLakeEvent "2026-03-05T12:00:00.000Z") eq_refl eq_refl)
    as (d1 & o1 & o2 & H1 & H2 & _ & _ & Hsum & Hrows & _).
  exists d1, o1, o2. repeat split; assumption.
Defined.

Lemma tx_appended (evs rows : list event) (n : nat) :
  tx evs rows n
  = ((rows ++ appended evs rows)%list, n + List.length (appended evs rows)).
Proof.
  revert rows n. induction evs as [|e rest IH]; intros rows n; simpl.
  - now rewrite app_nil_r, Nat.add_0_r.
  - unfold insertOrIgnore. destruct (hasId (id e) rows).
    + simpl. apply IH.
    + simpl. rewrite IH, <- app_assoc. simpl. f_equal. lia.
Qed.

Lemma appended_In (evs rows : list event) (a : event) :
  In a (appended evs rows) -> In a evs.
Proof.
  revert rows. induction evs as [|e rest IH]; intros rows; simpl; [auto|].
  destruct (hasId (id e) rows); simpl; intros H.
  - right. exact (IH _ H).
  - destruct H as [H|H]; [now left | right; exact (IH _ H)].
Qed.

(** The appended events were not stored before. *)
Lemma appended_new (evs rows : list event) (a : event) :
  In a (appended evs rows) -> hasId (id a) rows = false.
Proof.
  revert rows. induction evs as [|e rest IH]; intros rows; simpl; [tauto|].
  destruct (hasId (id e) rows) eqn:E; simpl; intros H.
  - exact (IH _ H).
  - destruct H as [<-|H]; [exact E|].
    apply IH in H. rewrite hasId_app in H. now apply orb_false_elim in H.
Qed.

Lemma insertDesc_In (e x : event) (l : list event) :
  In x (insertDesc e l) <-> x = e \/ In x l.
Proof.
  induction l as [|y l IH]; simpl; [intuition|].
  destruct (String.leb (first_seen_at y) (first_seen_at e)); simpl; [intuition|].
  rewrite IH. intuition.
Qed.

Lemma orderByFirstSeenDesc_In (x : event) (l : list event) :
  In x (orderByFirstSeenDesc l) <-> In x l.
Proof.
  unfold orderByFirstSeenDesc. induction l as [|y l IH]; simpl; [tauto|].
  rewrite insertDesc_In, IH. intuition.
Qed.

Lemma insertDesc_length (e : event) (l : list event) :
  List.length (insertDesc e l) = S (List.length l).
Proof.
  induction l as [|y l IH]; simpl; [reflexivity|].
  destruct (String.leb _ _); simpl; [reflexivity | now rewrite IH].
Qed.

Lemma orderByFirstSeenDesc_length (l : list event) :
  List.length (orderByFirstSeenDesc l) = List.length l.
Proof.
  unfold orderByFirstSeenDesc. induction l as [|y l IH]; simpl; [reflexivity|].
  now rewrite insertDesc_length, IH.
Qed.

Lemma ltb_not_leb (a b : string) : String.ltb a b = true -> String.leb b a = false.
Proof.
  unfold String.ltb, String.leb. rewrite (String.compare_antisym b a).
  destruct (String.compare a b); simpl; congruence.
Qed.

Lemma insertDesc_past (e : event) (l1 l2 : list event) :
  (forall x, In x l1 -> String.leb (first_seen_at x) (first_seen_at e) = false) ->
  insertDesc e (l1 ++ l2) = (l1 ++ insertDesc e l2)%list.
Proof.
  induction l1 as [|y l1 IH]; intros H; simpl; [reflexivity|].
  rewrite (H y) by now left. f_equal. apply IH. intros x Hx. apply H. now right.
Qed.

(** When every new row is later than every old row, the new rows come
    first. *)
Lemma orderByFirstSeenDesc_app (old new : list event) :
  (forall o a, In o old -> In a new ->
               String.ltb (first_seen_at o) (first_seen_at a) = true) ->
  orderByFirstSeenDesc (old ++ new)
  = (orderByFirstSeenDesc new ++ orderByFirstSeenDesc old)%list.
Proof.
  unfold orderByFirstSeenDesc. induction old as [|o old IH]; intros H; simpl.
  - now rewrite app_nil_r.
  - rewrite IH by (intros x a Hx Ha; apply H; [now right | exact Ha]).
    apply insertDesc_past. intros x Hx. apply ltb_not_leb. apply H; [now left|].
    now apply orderByFirstSeenDesc_In.
Qed.

(** What the query of insertNewEvents gives while the clock advances: when
    every event of the batch was read later than every stored record was
    first seen, the count is the number of appended events and the records
    handed back are the appended ones, latest first. *)
Lemma newOnes_when_clock_advances (d : db) (evs : list event) :
  (forall o a, In o (stock_events d) -> In a evs ->
               String.ltb (first_seen_at o) (first_seen_at a) = true) ->
  insertNewEvents evs d
  = ({| stock_events := (stock_events d ++ appended evs (stock_events d))%list;
        subscriptions := subscriptions d |},
     {| insertedCount := List.length (appended evs (stock_events d));
        newOnes := orderByFirstSeenDesc (appended evs (stock_events d)) |}).
Proof.
  intros H. unfold insertNewEvents. rewrite tx_appended. cbn [Nat.add].
  rewrite orderByFirstSeenDesc_app
    by (intros o a Ho Ha; apply H; [exact Ho | exact (appended_In _ _ _ Ha)]).
  rewrite <- (orderByFirstSeenDesc_length (appended evs (stock_events d))) at 2.
  rewrite firstn_app, firstn_all, Nat.sub_diag. simpl. now rewrite app_nil_r.
Qed.

(** C3, the code at a failing input.  A first cycle stores the Blue Lake
    event, read on 5 March.  A later cycle whose clock reads 4 March finds
    the page with the Blue Lake row and a new Green Lake row: it inserts
    one record, the Green Lake one, and yet hands back the Blue Lake record
    of the first cycle as the new one, since that record has the latest
    first-seen instant of the table. *)
Theorem newOnes_can_be_a_stored_record :
  let first := parseDwrFishStockingHtml (fun _ => "2026-03-05T09:00:00.000Z") blueLakeRow in
  let second :=
    parseDwrFishStockingHtml (fun _ => "2026-03-04T09:00:00.000Z")
      (blueLakeRow ++ greenLakeRow) in
  let '(d1, o1) := insertNewEvents first emptyDb in
  let '(d2, o2) := insertNewEvents second d1 in
  map water_name first = ["Blue Lake"]
  /\ map water_name second = ["Blue Lake"; "Green Lake"]
  /\ insertedCount o1 = 1
  /\ insertedCount o2 = 1
  /\ map water_name (stock_events d2) = ["Blue Lake"; "Green Lake"]
  /\ map water_name (newOnes o2) = ["Blue Lake"]
  /\ newOnes o2 = stock_events d1.
Proof. vm_compute. repeat split; reflexivity. Qed.

(** ** One poll cycle *)

Lemma parse_blueLakeRow (now : nat -> string) :
  parseDwrFishStockingHtml now blueLakeRow = [blueLakeEvent (now 0)].
Proof. vm_compute. reflexivity. Qed.

Lemma scenario_insert (t : string) :
  insertNewEvents [blueLakeEvent t] (store scenarioWorld)
  = ({| stock_events := [blueLakeEvent t]; subscriptions := [tok1] |},
     {| insertedCount := 1; newOnes := [blueLakeEvent t] |}).
Proof. reflexivity. Qed.

Lemma scenario_messages (t : string) :
  dedupMessages (collectMessages [blueLakeEvent t] [tok1]) = [blueLakeMessage].
Proof. vm_compute. reflexivity. Qed.

(** C2, as the code has it.  With the page holding the one row Blue Lake,
    Wasatch, Rainbow Trout, 1,200, 10.5, 3/4/2026, an empty event table and
    the one subscription of TOK1 to the county WASATCH, a poll cycle whose
    fetch and push succeed returns inserted = 1 and matchedMessages = 1 and
    sends one message to TOK1; its body is [sentBody]: the expected text
    with the county written Wasatch, as in the row. *)
Theorem poll_scenario_end_to_end :
  forall E url st,
    POLL_URL E = Some url -> url <> "" ->
    fetch E url = Ok {| ok := true; status := st; text := blueLakeRow |} ->
    (forall msgs, exists r, post E msgs = Ok r /\ push_ok r = true) ->
    exists w' s m,
      runPollOnce E scenarioWorld = (w', Ok s)
      /\ parsed s = 1 /\ inserted s = 1 /\ matchedMessages s = 1 /\ pushed s = 1
      /\ outbox w' = [[m]] /\ to m = "TOK1"
      /\ body m = sentBody
      /\ containsText sentBody (body m) = true
      /\ stock_events (store w') = [blueLakeEvent (now E 0)].
Proof.
  intros E url st Hurl Hne Hfetch Hpost.
  unfold runPollOnce. rewrite Hurl.
  apply isEmpty_false in Hne. rewrite Hne, Hfetch.
  cbn [ok negb text]. rewrite parse_blueLakeRow, scenario_insert.
  cbn [newOnes insertedCount listSubscriptions subscriptions].
  rewrite scenario_messages. unfold sendExpoPushMessages.
  destruct (Hpost [blueLakeMessage]) as (r & Hr & Hok). rewrite Hr, Hok.
  cbn [negb]. eexists _, _, _. split; [reflexivity|].
  repeat split; reflexivity.
Qed.

Lemma poll_scenario_end_to_end_witness :
  exists w' s m,
    runPollOnce scenarioEnv scenarioWorld = (w', Ok s)
    /\ inserted s = 1 /\ matchedMessages s = 1
    /\ outbox w' = [[m]] /\ body m = sentBody.
Proof.
  destruct (poll_scenario_end_to_end scenarioEnv "https://dwr.example/stocking" 200%N)
    as (w' & s & m & H & _ & Hi & Hm & _ & Ho & _ & Hb & _).
  - reflexivity.
  - discriminate.
  - reflexivity.
  - intros msgs. eexists. split; reflexivity.
  - exists w', s, m. repeat split; assumption.
Defined.

(** C2, counterexample.  In that scenario the cycle returns inserted = 1
    and matchedMessages = 1, but the body of the one message does not hold
    [expectedBody], the text with the county written WASATCH. *)
Lemma poll_scenario_body_keeps_row_case :
  exists w' s m,
    runPollOnce scenarioEnv scenarioWorld = (w', Ok s)
    /\ inserted s = 1 /\ matchedMessages s = 1
    /\ outbox w' = [[m]]
    /\ containsText expectedBody (body m) = false.
Proof.
  eexists _, _, _. split; [vm_compute; reflexivity|].
  repeat split; reflexivity.
Qed.

(** * Further properties of the code *)

(** ** Trimming and letter case *)

Lemma trimStart_head (s : string) : headIsSpace (trimStart s) = false.
Proof.
  induction s as [|c s IH]; simpl; [reflexivity|].
  destruct (isSpace c) eqn:E; [exact IH | simpl; exact E].
Qed.

Lemma trimStart_fixed (s : string) : headIsSpace s = false -> trimStart s = s.
Proof. destruct s as [|c s]; simpl; [reflexivity|]. now intros ->. Qed.

Lemma trimEnd_head (s : string) :
  headIsSpace s = false -> headIsSpace (trimEnd s) = false.
Proof.
  destruct s as [|c s]; simpl; [reflexivity|]. intros H.
  destruct (trimEnd s); [rewrite H|]; simpl; auto.
Qed.

Lemma trimEnd_idem (s : string) : trimEnd (trimEnd s) = trimEnd s.
Proof.
  induction s as [|c s IH]; simpl; [reflexivity|].
  destruct (trimEnd s) as [|d t] eqn:E.
  - destruct (isSpace c) eqn:Hc; simpl; [reflexivity | now rewrite Hc].
  - change (trimEnd (String c (String d t)))
      with (match trimEnd (String d t) with
            | "" => if isSpace c then "" else String c ""
            | String x y => String c (String x y)
            end).
    now rewrite IH.
Qed.

Lemma trim_idem (s : string) : trim (trim s) = trim s.
Proof.
  unfold trim.
  rewrite (trimStart_fixed (trimEnd (trimStart s)))
    by (apply trimEnd_head, trimStart_head).
  apply trimEnd_idem.
Qed.

Lemma trim_head (s : string) : headIsSpace (trim s) = false.
Proof. unfold trim. apply trimEnd_head, trimStart_head. Qed.

Lemma trimEnd_last (s : string) :
  match lastChar (trimEnd s) with Some c => isSpace c = false | None => True end.
Proof.
  induction s as [|c s IH]; simpl; [exact I|].
  destruct (trimEnd s) as [|d t] eqn:E.
  - destruct (isSpace c) eqn:Hc; simpl; auto.
  - destruct (lastChar_some t d) as [x Hx].
    rewrite lastChar_cons, Hx. now rewrite Hx in IH.
Qed.

Lemma trim_last (s : string) :
  match lastChar (trim s) with Some c => isSpace c = false | None => True end.
Proof. apply trimEnd_last. Qed.

Lemma isSpace_upperChar (c : ascii) : isSpace (upperChar c) = isSpace c.
Proof. destruct c as [[] [] [] [] [] [] [] []]; vm_compute; reflexivity. Qed.

Lemma isSpace_lowerChar (c : ascii) : isSpace (lowerChar c) = isSpace c.
Proof. destruct c as [[] [] [] [] [] [] [] []]; vm_compute; reflexivity. Qed.

Section MapAndTrim.
Variable f : ascii -> ascii.
Hypothesis f_space : forall c, isSpace (f c) = isSpace c.

Lemma mapString_trimStart (s : string) :
  mapString f (trimStart s) = trimStart (mapString f s).
Proof.
  induction s as [|c s IH]; simpl; [reflexivity|].
  rewrite f_space. destruct (isSpace c); [exact IH | reflexivity].
Qed.

Lemma mapString_trimEnd (s : string) :
  mapString f (trimEnd s) = trimEnd (mapString f s).
Proof.
  induction s as [|c s IH]; simpl; [reflexivity|].
  rewrite <- IH, f_space.
  destruct (trimEnd s); simpl; [destruct (isSpace c)|]; reflexivity.
Qed.

Lemma mapString_trim (s : string) : mapString f (trim s) = trim (mapString f s).
Proof. unfold trim. now rewrite mapString_trimEnd, mapString_trimStart. Qed.
End MapAndTrim.

(** Trimming and putting in upper case can be done in either order. *)
Lemma toUpperCase_trim (s : string) : toUpperCase (trim s) = trim (toUpperCase s).
Proof. apply mapString_trim, isSpace_upperChar. Qed.

Lemma toLowerCase_trim (s : string) : toLowerCase (trim s) = trim (toLowerCase s).
Proof. apply mapString_trim, isSpace_lowerChar. Qed.

Lemma mapString_empty (f : ascii -> ascii) (s : string) :
  mapString f s = "" <-> s = "".
Proof. destruct s; simpl; split; intros H; try reflexivity; discriminate. Qed.

(** ** The answer of normalizeDate *)

Lemma forallb_string_app (p : ascii -> bool) (a b : string) :
  forallb_string p (a ++ b) = forallb_string p a && forallb_string p b.
Proof.
  induction a as [|c a IH]; simpl; [reflexivity|]. now rewrite IH, andb_assoc.
Qed.

Lemma forallb_string_impl (p q : ascii -> bool) (s : string) :
  (forall c, p c = true -> q c = true) ->
  forallb_string p s = true -> forallb_string q s = true.
Proof.
  intros H. induction s as [|c s IH]; simpl; [auto|].
  intros E. apply andb_prop in E as [E1 E2]. now rewrite (H c E1), IH.
Qed.

Lemma padStart_digits (m : string) :
  allDigits m = true -> length m = 1 \/ length m = 2 ->
  allDigits (padStart 2 "0" m) = true.
Proof.
  unfold allDigits.
  destruct m as [|a [|b [|c m]]]; simpl; intros H [L|L]; try discriminate L;
    exact H.
Qed.

Lemma normalizeDate_iso (s : string) :
  normalizeDate s <> "" -> isoDateShaped (normalizeDate s).
Proof.
  intros H. apply normalizeDate_nonempty in H
    as (pre & m & d & y & post & (Hm & Lm & Hd & Ld & Hy & Ly) & _ & ->).
  exists y, (padStart 2 "0" m), (padStart 2 "0" d).
  repeat split; auto using padStart_digits, padStart_two.
Qed.

Lemma iso_dateChars (s : string) :
  isoDateShaped s -> forallb_string dateChar s = true.
Proof.
  intros (y & m & d & Hy & _ & Hm & _ & Hd & _ & ->).
  assert (D : forall t, allDigits t = true -> forallb_string dateChar t = true).
  { intros t. apply forallb_string_impl. intros c Hc. unfold dateChar.
    now rewrite Hc. }
  rewrite !forallb_string_app, (D y Hy), (D m Hm), (D d Hd). reflexivity.
Qed.

Lemma dateChars_no_date (s : string) :
  forallb_string dateChar s = true -> dateSearch s = None.
Proof.
  intros H. destruct (dateSearch s) as [[[m d] y]|] eqn:E; [|reflexivity].
  apply dateSearch_sound in E as (pre & post & _ & ->).
  unfold dateText in H. rewrite !forallb_string_app in H.
  cbn [forallb_string] in H.
  replace (dateChar "/") with false in H by reflexivity.
  rewrite ?andb_false_r, ?andb_false_l in H. discriminate H.
Qed.

(** X1. normalizeDate answers the empty text or a text of the shape
    YYYY-MM-DD (four digits, two digits, two digits); a text that is
    already of that shape is not a date for it, so that normalising twice
    always gives the empty text. *)
Theorem normalizeDate_answer_shape :
  forall s,
    (normalizeDate s = "" \/ isoDateShaped (normalizeDate s))
    /\ (isoDateShaped s -> normalizeDate s = "")
    /\ normalizeDate (normalizeDate s) = "".
Proof.
  intros s.
  assert (I : forall t, isoDateShaped t -> normalizeDate t = "").
  { intros t H. unfold normalizeDate.
    now rewrite (dateChars_no_date t (iso_dateChars t H)). }
  split; [|split].
  - destruct (string_dec (normalizeDate s) "") as [E|E]; [now left|].
    right. now apply normalizeDate_iso.
  - apply I.
  - destruct (string_dec (normalizeDate s) "") as [E|E].
    + rewrite E. reflexivity.
    + apply I. now apply normalizeDate_iso.
Qed.

Lemma normalizeDate_answer_shape_witness :
  isoDateShaped "2026-03-04" /\ normalizeDate "2026-03-04" = "".
Proof.
  assert (H : isoDateShaped "2026-03-04").
  { exists "2026", "03", "04". repeat split; reflexivity. }
  split; [exact H|].
  exact (proj1 (proj2 (normalizeDate_answer_shape "2026-03-04")) H).
Defined.

(** ** What stripTags leaves *)

Lemma spacesAt_space (c : ascii) (r : string) :
  isSpace c = true -> spacesAt (String c r) = Some (S (countWhile isSpace r)).
Proof. intros H. unfold spacesAt. simpl. now rewrite H. Qed.

Lemma spacesAt_other (c : ascii) (r : string) :
  isSpace c = false -> spacesAt (String c r) = None.
Proof. intros H. unfold spacesAt. simpl. now rewrite H. Qed.

(** After a run of white space has been passed, what follows starts with
    another character; the whole answer is single-spaced. *)
Lemma collapse_spaces_spec (s : string) :
  (forall k, k = countWhile isSpace s ->
     singleSpaced (replaceAllFrom spacesAt " " k s) = true
     /\ headIsSpace (replaceAllFrom spacesAt " " k s) = false)
  /\ singleSpaced (replaceAllFrom spacesAt " " 0 s) = true.
Proof.
  induction s as [|c s [IH1 IH2]]; [simpl; auto|].
  split.
  - intros k Hk. simpl in Hk. destruct (isSpace c) eqn:Hc; subst k.
    + cbn [replaceAllFrom]. now apply IH1.
    + cbn [replaceAllFrom]. rewrite (spacesAt_other c s Hc).
      cbn [singleSpaced headIsSpace]. rewrite Hc, IH2. auto.
  - cbn [replaceAllFrom]. destruct (isSpace c) eqn:Hc.
    + rewrite (spacesAt_space c s Hc).
      destruct (IH1 _ eq_refl) as [S1 S2].
      cbn [append singleSpaced]. rewrite S1, S2. reflexivity.
    + rewrite (spacesAt_other c s Hc). cbn [singleSpaced]. now rewrite Hc, IH2.
Qed.

Lemma collapse_spaces_single (s : string) :
  singleSpaced (replaceAll spacesAt " " s) = true.
Proof. apply collapse_spaces_spec. Qed.

Lemma singleSpaced_tail (c : ascii) (r : string) :
  singleSpaced (String c r) = true -> singleSpaced r = true.
Proof. simpl. intros H. now apply andb_prop in H. Qed.

Lemma trimStart_single (s : string) :
  singleSpaced s = true -> singleSpaced (trimStart s) = true.
Proof.
  induction s as [|c s IH]; [auto|]. intros H. cbn [trimStart].
  destruct (isSpace c); [apply IH; exact (singleSpaced_tail _ _ H) | exact H].
Qed.

Lemma trimEnd_headIsSpace (s : string) :
  headIsSpace s = false -> headIsSpace (trimEnd s) = false.
Proof. apply trimEnd_head. Qed.

Lemma trimEnd_single (s : string) :
  singleSpaced s = true -> singleSpaced (trimEnd s) = true.
Proof.
  induction s as [|c s IH]; [auto|]. intros H.
  pose proof (IH (singleSpaced_tail _ _ H)) as T.
  cbn [singleSpaced] in H. apply andb_prop in H as [Hc _].
  cbn [trimEnd]. destruct (trimEnd s) as [|d t] eqn:E.
  - destruct (isSpace c) eqn:Sc; [reflexivity|]. cbn [singleSpaced]. now rewrite Sc.
  - cbn [singleSpaced]. fold singleSpaced. cbn [singleSpaced] in T. rewrite T.
    destruct (isSpace c) eqn:Sc; [|reflexivity].
    apply andb_prop in Hc as [Hb Hn]. rewrite Hb. cbn [andb].
    apply negb_true_iff in Hn.
    pose proof (trimEnd_head s Hn) as K. rewrite E in K. cbn [headIsSpace] in *.
    now rewrite K.
Qed.

Lemma trim_single (s : string) :
  singleSpaced s = true -> singleSpaced (trim s) = true.
Proof. intros H. unfold trim. now apply trimEnd_single, trimStart_single. Qed.

(** *** No tag is left *)

Lemma countWhile_drop (p : ascii -> bool) (s : string) :
  match drop (countWhile p s) s with
  | "" => forallb_string p s = true
  | String c _ => p c = false
  end.
Proof.
  induction s as [|c s IH]; simpl; [reflexivity|].
  destruct (p c) eqn:E; simpl; [|exact E].
  destruct (drop (countWhile p s) s); [now rewrite IH | exact IH].
Qed.

Lemma countWhile_all (p : ascii -> bool) (s : string) :
  forallb_string p s = true -> drop (countWhile p s) s = "".
Proof.
  induction s as [|c s IH]; simpl; [reflexivity|].
  intros H. apply andb_prop in H as [H1 H2]. rewrite H1. simpl. now apply IH.
Qed.

Lemma tagAt_none (c : ascii) (r : string) :
  tagAt (String c r) = None
  <-> (if Ascii.eqb c "<" then headIsGt r || gtFree r else true) = true.
Proof.
  unfold tagAt. destruct (Ascii.eqb_spec c "<") as [->|N].
  - cbv zeta.
    pose proof (countWhile_drop (fun c => negb (Ascii.eqb c ">")) r) as D.
    destruct (countWhile (fun c => negb (Ascii.eqb c ">")) r) as [|k] eqn:K.
    + split; [intros _ | reflexivity].
      destruct r as [|x r]; [reflexivity|]. simpl in K.
      destruct (Ascii.eqb x ">") eqn:X; [|discriminate K].
      unfold headIsGt, isGt. now rewrite X.
    + destruct (drop (S k) r) as [|x t] eqn:E.
      * split; [intros _ | reflexivity]. unfold gtFree, isGt.
        rewrite D. apply orb_true_r.
      * apply negb_false_iff in D. apply Ascii.eqb_eq in D. subst x.
        split; [discriminate|]. intros H. exfalso.
        apply orb_prop in H as [H|H].
        -- destruct r as [|y r]; [discriminate H|]. unfold headIsGt, isGt in H.
           simpl in K. rewrite H in K. discriminate K.
        -- unfold gtFree, isGt in H. apply countWhile_all in H.
           rewrite K in H. rewrite H in E. discriminate E.
  - split; [reflexivity|]. intros _.
    destruct c as [[] [] [] [] [] [] [] []]; try reflexivity. now elim N.
Qed.

Lemma tagFree_noTagStart (s : string) : tagFree s = noTagStart s.
Proof.
  induction s as [|c s IH]; [reflexivity|].
  cbn [tagFree noTagStart].
  destruct (tagAt (String c s)) eqn:E.
  - destruct (if Ascii.eqb c "<" then headIsGt s || gtFree s else true) eqn:F;
      [|reflexivity].
    apply tagAt_none in F. congruence.
  - apply tagAt_none in E. rewrite E, IH. reflexivity.
Qed.

Section Replacement.
Variable matchAt : string -> option nat.
Variable rep : string.
Hypothesis rep_gtFree : gtFree rep = true.

(** A replacement that brings no [>] leaves a text without [>] so. *)
Lemma replaceAllFrom_gtFree (s : string) (k : nat) :
  gtFree s = true -> gtFree (replaceAllFrom matchAt rep k s) = true.
Proof.
  unfold gtFree in *. revert k. induction s as [|c s IH]; intros k H; [auto|].
  cbn [forallb_string] in H. apply andb_prop in H as [Hc Hs].
  cbn [replaceAllFrom]. destruct k as [|k]; [|now apply IH].
  destruct (matchAt (String c s)) as [[|n]|].
  - cbn [forallb_string]. now rewrite Hc, IH.
  - rewrite forallb_string_app, rep_gtFree. now apply IH.
  - cbn [forallb_string]. now rewrite Hc, IH.
Qed.
End Replacement.

Lemma tagAt_gt (r : string) : tagAt (String ">" r) = None.
Proof. reflexivity. Qed.

Lemma headIsGt_inv (s : string) :
  headIsGt s = true -> exists r, s = String ">" r.
Proof.
  destruct s as [|c r]; [discriminate|]. unfold headIsGt, isGt.
  intros H. apply Ascii.eqb_eq in H. subst. now exists r.
Qed.

Lemma tagAt_positive (s : string) : tagAt s <> Some 0.
Proof.
  destruct s as [|c r]; [discriminate|].
  destruct (Ascii.eqb_spec c "<") as [->|N].
  - unfold tagAt. cbv zeta.
    destruct (countWhile _ r) as [|k]; [discriminate|].
    destruct (drop (S k) r) as [|x t]; [discriminate|].
    destruct (Ascii.eqb_spec x ">") as [->|M]; [discriminate|].
    destruct x as [[] [] [] [] [] [] [] []]; discriminate.
  - destruct c as [[] [] [] [] [] [] [] []]; try discriminate. now elim N.
Qed.

Lemma remove_tags_noTagStart (s : string) (k : nat) :
  noTagStart (replaceAllFrom tagAt " " k s) = true.
Proof.
  revert k. induction s as [|c s IH]; intros k; [reflexivity|].
  cbn [replaceAllFrom]. destruct k as [|k]; [|apply IH].
  destruct (tagAt (String c s)) as [[|n]|] eqn:E.
  - now apply tagAt_positive in E.
  - cbn [append noTagStart]. replace (Ascii.eqb " " "<") with false by reflexivity.
    cbn [andb]. apply IH.
  - cbn [noTagStart]. rewrite IH, andb_true_r.
    apply tagAt_none in E. destruct (Ascii.eqb c "<"); [|reflexivity].
    apply orb_prop in E as [H|H].
    + apply headIsGt_inv in H as [r ->]. cbn [replaceAllFrom].
      rewrite tagAt_gt. reflexivity.
    + rewrite (replaceAllFrom_gtFree tagAt " " eq_refl s 0 H). apply orb_true_r.
Qed.

Lemma collapse_headIsGt (s : string) :
  headIsGt s = true -> headIsGt (replaceAllFrom spacesAt " " 0 s) = true.
Proof. intros H. apply headIsGt_inv in H as [r ->]. reflexivity. Qed.

Lemma collapse_noTagStart (s : string) (k : nat) :
  noTagStart s = true -> noTagStart (replaceAllFrom spacesAt " " k s) = true.
Proof.
  revert k. induction s as [|c s IH]; intros k H; [reflexivity|].
  cbn [noTagStart] in H. apply andb_prop in H as [Hc Hs].
  cbn [replaceAllFrom]. destruct k as [|k]; [|now apply IH].
  destruct (spacesAt (String c s)) as [[|n]|] eqn:E.
  - unfold spacesAt in E. destruct (countWhile isSpace (String c s)); discriminate E.
  - cbn [append noTagStart]. replace (Ascii.eqb " " "<") with false by reflexivity.
    now apply IH.
  - cbn [noTagStart]. rewrite (IH 0 Hs), andb_true_r.
    destruct (Ascii.eqb c "<"); [|reflexivity].
    apply orb_prop in Hc as [H|H].
    + now rewrite collapse_headIsGt.
    + rewrite (replaceAllFrom_gtFree spacesAt " " eq_refl s 0 H). apply orb_true_r.
Qed.

Lemma trimStart_noTagStart (s : string) :
  noTagStart s = true -> noTagStart (trimStart s) = true.
Proof.
  induction s as [|c s IH]; [auto|]. intros H. cbn [trimStart].
  destruct (isSpace c); [|exact H]. apply IH. cbn [noTagStart] in H.
  now apply andb_prop in H.
Qed.

Lemma trimEnd_gtFree (s : string) : gtFree s = true -> gtFree (trimEnd s) = true.
Proof.
  unfold gtFree. induction s as [|c s IH]; [auto|]. cbn [forallb_string].
  intros H. apply andb_prop in H as [Hc Hs]. cbn [trimEnd].
  destruct (trimEnd s) as [|d t].
  - destruct (isSpace c); [reflexivity|]. cbn [forallb_string]. now rewrite Hc.
  - cbn [forallb_string]. rewrite Hc. exact (IH Hs).
Qed.

Lemma trimEnd_headIsGt (s : string) :
  headIsGt s = true -> headIsGt (trimEnd s) = true.
Proof.
  intros H. apply headIsGt_inv in H as [r ->]. cbn [trimEnd].
  destruct (trimEnd r); reflexivity.
Qed.

Lemma trimEnd_noTagStart (s : string) :
  noTagStart s = true -> noTagStart (trimEnd s) = true.
Proof.
  induction s as [|c s IH]; [auto|]. cbn [noTagStart]. intros H.
  apply andb_prop in H as [Hc Hs]. specialize (IH Hs). cbn [trimEnd].
  destruct (trimEnd s) as [|d t] eqn:E.
  - destruct (isSpace c); [reflexivity|]. cbn [noTagStart].
    destruct (Ascii.eqb c "<"); reflexivity.
  - cbn [noTagStart]. fold noTagStart. cbn [noTagStart] in IH. rewrite IH, andb_true_r.
    destruct (Ascii.eqb c "<"); [|reflexivity].
    apply orb_prop in Hc as [H|H].
    + apply trimEnd_headIsGt in H. rewrite E in H. now rewrite H.
    + apply trimEnd_gtFree in H. rewrite E in H. rewrite H. apply orb_true_r.
Qed.

Lemma stripTags_clean (html : string) :
  trim (stripTags html) = stripTags html
  /\ headIsSpace (stripTags html) = false
  /\ singleSpaced (stripTags html) = true
  /\ tagFree (stripTags html) = true.
Proof.
  unfold stripTags.
  split; [apply trim_idem|]. split; [apply trim_head|].
  split; [apply trim_single, collapse_spaces_single|].
  rewrite tagFree_noTagStart. unfold trim.
  apply trimEnd_noTagStart, trimStart_noTagStart.
  unfold replaceAll at 1. apply collapse_noTagStart.
  unfold replaceAll at 1. apply remove_tags_noTagStart.
Qed.

(** X2. Whatever the markup, the text stripTags answers is trimmed, has
    white space only as single blanks between other characters, and holds
    no tag any more. *)
Theorem stripTags_leaves_clean_text :
  forall html,
    trim (stripTags html) = stripTags html
    /\ headIsSpace (stripTags html) = false
    /\ singleSpaced (stripTags html) = true
    /\ tagFree (stripTags html) = true.
Proof. exact stripTags_clean. Qed.

(** ** The shape of the identifiers *)

Lemma hex_length (n : nat) (x : N) : length (SHA1.hex n x) = n.
Proof. induction n as [|n IH]; simpl; [reflexivity | now rewrite IH]. Qed.

Lemma hexDigit_isHexDigit (v : N) : (v < 16)%N -> isHexDigit (SHA1.hexDigit v) = true.
Proof.
  intros H. destruct v as [|p]; [reflexivity|].
  destruct p as [[[[p|p|]|[p|p|]|]|[[p|p|]|[p|p|]|]|]|[[[p|p|]|[p|p|]|]|[[p|p|]|[p|p|]|]|]|];
    try reflexivity; exfalso; lia.
Qed.

Lemma hex_digits (n : nat) (x : N) : forallb_string isHexDigit (SHA1.hex n x) = true.
Proof.
  induction n as [|n IH]; [reflexivity|].
  cbn [SHA1.hex forallb_string]. rewrite IH, andb_true_r.
  apply hexDigit_isHexDigit.
  change 15%N with (N.ones 4). rewrite N.land_ones.
  apply N.mod_lt. discriminate.
Qed.

Lemma sha1_isDigest (s : string) : isDigest (sha1 s).
Proof.
  unfold isDigest, sha1, SHA1.digest. cbv zeta.
  destruct (fold_left SHA1.compress _ SHA1.init) as [[[[h0 h1] h2] h3] h4].
  rewrite !length_append, !hex_length, !forallb_string_app, !hex_digits.
  split; reflexivity.
Qed.

(** ** The events of the tabular parser *)

Lemma nth_map_stripTags (k : nat) (tds : list string) :
  k < List.length tds ->
  nth k (map stripTags tds) "" = stripTags (nth k tds "").
Proof.
  intros H. rewrite (nth_indep _ "" (stripTags "")) by (now rewrite length_map).
  apply map_nth.
Qed.

(** X3. Every event of the tabular parser has a water name, a county and a
    species that are non-empty cleaned texts (trimmed, single-spaced, free
    of tags), a date of the shape YYYY-MM-DD, an identifier of forty
    hexadecimal digits, and an instant read from the clock. *)
Theorem tabular_event_invariants :
  forall now html e,
    In e (parseDwrFishStockingHtml now html) ->
    (water_name e <> "" /\ cleanText (water_name e))
    /\ (county e <> "" /\ cleanText (county e))
    /\ (species e <> "" /\ cleanText (species e))
    /\ isoDateShaped (date_stocked e)
    /\ isDigest (id e)
    /\ exists j, first_seen_at e = now j.
Proof.
  intros now html e H.
  apply dwr_event_from_row in H as (j & row & _ & H).
  apply parseRow_some in H. cbv zeta in H.
  destruct H as (L & Hw & Nw & Hc & Nc & Hs & Ns & _ & _ & Hd & Nd & Hf & Hi).
  rewrite length_map in L.
  assert (C : forall k, k < 6 ->
              cleanText (nth k (map stripTags (matchAll tdAt row)) "")).
  { intros k Hk. rewrite nth_map_stripTags by lia.
    destruct (stripTags_clean (nth k (matchAll tdAt row) ""))
      as (T & _ & S & F).
    repeat split; assumption. }
  split; [split; [exact Nw | rewrite Hw; apply C; lia]|].
  split; [split; [exact Nc | rewrite Hc; apply C; lia]|].
  split; [split; [exact Ns | rewrite Hs; apply C; lia]|].
  split; [rewrite Hd in *; now apply normalizeDate_iso|].
  split; [rewrite Hi; apply sha1_isDigest|].
  now exists j.
Qed.

Lemma tabular_event_invariants_witness :
  exists e,
    In e (parseDwrFishStockingHtml (fun _ => "t") blueLakeRow)
    /\ cleanText (water_name e) /\ isoDateShaped (date_stocked e)
    /\ isDigest (id e).
Proof.
  exists (blueLakeEvent "t").
  assert (I : In (blueLakeEvent "t") (parseDwrFishStockingHtml (fun _ => "t") blueLakeRow))
    by (rewrite parse_blueLakeRow; now left).
  split; [exact I|].
  destruct (tabular_event_invariants _ _ _ I) as ((_ & W) & _ & _ & D & G & _).
  split; [exact W|]. split; [exact D | exact G].
Defined.

(** ** The removal of repeated identifiers *)

Lemma dedupFrom_NoDup (seen : list string) (events : list event) :
  NoDup (map id (dedupFrom seen events))
  /\ forall x, In x seen -> ~ In x (map id (dedupFrom seen events)).
Proof.
  revert seen. induction events as [|e rest IH]; intros seen; simpl.
  - split; [constructor | auto].
  - destruct (includes (id e) seen) eqn:E; [apply IH|].
    destruct (IH (id e :: seen)) as [N D]. simpl. split.
    + constructor; [apply D; now left | exact N].
    + intros x Hx [Hi|Hi].
      * subst x. apply includes_In in Hx. congruence.
      * apply (D x); [now right | exact Hi].
Qed.

Lemma dedupFrom_distinct (seen : list string) (events : list event) :
  NoDup (map id events) ->
  (forall e, In e events -> ~ In (id e) seen) ->
  dedupFrom seen events = events.
Proof.
  revert seen. induction events as [|e rest IH]; intros seen N D; simpl;
    [reflexivity|].
  simpl in N. apply NoDup_cons_iff in N as [N1 N2].
  destruct (includes (id e) seen) eqn:E.
  - apply includes_In in E. now elim (D e (or_introl eq_refl)).
  - f_equal. apply IH; [exact N2|].
    intros x Hx [Hi|Hi].
    + apply N1. rewrite Hi. now apply in_map.
    + apply (D x); [now right | exact Hi].
Qed.

Lemma dedupFrom_first (seen : list string) (pre post : list event) (e : event) :
  ~ In (id e) seen -> ~ In (id e) (map id pre) ->
  In e (dedupFrom seen (pre ++ e :: post)).
Proof.
  revert seen. induction pre as [|x pre IH]; intros seen Hs Hp; simpl.
  - destruct (includes (id e) seen) eqn:E; [|now left].
    apply includes_In in E. contradiction.
  - simpl in Hp.
    assert (K : In e (dedupFrom (id x :: seen) (pre ++ e :: post))).
    { apply IH; [|tauto]. intros [H|H]; [apply Hp; now left | contradiction]. }
    destruct (includes (id x) seen) eqn:E; [apply IH; tauto | now right].
Qed.

Lemma dedupFrom_length (seen : list string) (events : list event) :
  List.length (dedupFrom seen events) <= List.length events.
Proof.
  revert seen. induction events as [|e rest IH]; intros seen; simpl; [lia|].
  destruct (includes (id e) seen); simpl.
  - specialize (IH seen). lia.
  - specialize (IH (id e :: seen)). lia.
Qed.

(** X4. The answer of either parser never holds two events of the same
    identifier.  Of the events of a batch, one is kept whenever no earlier
    event has its identifier; a batch of distinct identifiers is kept
    whole, and no batch grows. *)
Theorem batch_identifiers_distinct :
  (forall now html, NoDup (map id (parseDwrFishStockingHtml now html)))
  /\ (forall now html, NoDup (map id (coEventsOfHtml now html)))
  /\ (forall events, NoDup (map id (dedupById events)))
  /\ (forall pre e post,
        ~ In (id e) (map id pre) -> In e (dedupById (pre ++ e :: post)))
  /\ (forall events, NoDup (map id events) -> dedupById events = events)
  /\ (forall events, List.length (dedupById events) <= List.length events).
Proof.
  split; [|split; [|split; [|split; [|split]]]].
  - intros now html. apply dedupFrom_NoDup.
  - intros now html. unfold coEventsOfHtml. cbv zeta.
    destruct (indexOf _ _); [apply dedupFrom_NoDup | constructor].
  - intros events. apply dedupFrom_NoDup.
  - intros pre e post H. now apply dedupFrom_first.
  - intros events H. apply dedupFrom_distinct; auto.
  - intros events. apply dedupFrom_length.
Qed.

Lemma batch_identifiers_distinct_witness :
  In (blueLakeEvent "t2")
     (dedupById ([blueLakeEvent "t2"] ++ blueLakeEvent "t3" :: []))
  /\ dedupById [blueLakeEvent "t"] = [blueLakeEvent "t"].
Proof.
  split.
  - apply (proj1 (proj2 (proj2 (proj2 batch_identifiers_distinct)))
             [] (blueLakeEvent "t2") [blueLakeEvent "t3"]).
    simpl. tauto.
  - apply (proj1 (proj2 (proj2 (proj2 (proj2 batch_identifiers_distinct))))).
    simpl. constructor; [simpl; tauto | constructor].
Defined.

(** ** The clock and the answer of the parsers *)

Lemma parseRow_clock (t1 t2 row : string) :
  option_map eraseClock (parseRow t1 row) = option_map eraseClock (parseRow t2 row).
Proof.
  unfold parseRow. cbv zeta.
  destruct (List.length (matchAll tdAt row) <? 6)%nat; [reflexivity|].
  destruct (_ || _); reflexivity.
Qed.

Lemma parseRows_clock (now1 now2 : nat -> string) (rows : list string) (k1 k2 : nat) :
  map eraseClock (parseRows now1 k1 rows) = map eraseClock (parseRows now2 k2 rows).
Proof.
  revert k1 k2. induction rows as [|row rest IH]; intros k1 k2; simpl;
    [reflexivity|].
  pose proof (parseRow_clock (now1 k1) (now2 k2) row) as H.
  destruct (parseRow (now1 k1) row), (parseRow (now2 k2) row); simpl in H;
    try discriminate H.
  - assert (H' : eraseClock e = eraseClock e0) by congruence.
    cbn [map]. now rewrite H', (IH (S k1) (S k2)).
  - apply IH.
Qed.

Lemma dedupFrom_eraseClock (seen : list string) (events : list event) :
  map eraseClock (dedupFrom seen events) = dedupFrom seen (map eraseClock events).
Proof.
  revert seen. induction events as [|e rest IH]; intros seen; simpl;
    [reflexivity|].
  destruct (includes (id e) seen); simpl; now rewrite IH.
Qed.

Lemma coTriple_clock (t1 t2 l0 l1 l2 : string) :
  option_map eraseClock (coTriple t1 l0 l1 l2)
  = option_map eraseClock (coTriple t2 l0 l1 l2).
Proof.
  unfold coTriple. cbv zeta.
  repeat match goal with |- context [if ?b then _ else _] => destruct b end;
    reflexivity.
Qed.

Lemma coWalk_clock (now1 now2 : nat -> string) (lines : list string) (i1 i2 : nat) :
  map eraseClock (coWalk now1 i1 lines) = map eraseClock (coWalk now2 i2 lines).
Proof.
  remember (List.length lines) as n eqn:Hn.
  assert (Hle : List.length lines <= n) by lia. clear Hn.
  revert lines i1 i2 Hle. induction n as [|n IH]; intros lines i1 i2 Hle.
  - destruct lines; [reflexivity | simpl in Hle; lia].
  - destruct lines as [|l0 [|l1 [|l2 rest]]]; try reflexivity.
    pose proof (coTriple_clock (now1 i1) (now2 i2) l0 l1 l2) as H.
    destruct (coTriple (now1 i1) l0 l1 l2) as [a|] eqn:E1,
             (coTriple (now2 i2) l0 l1 l2) as [b|] eqn:E2;
      simpl in H; try discriminate H.
    + rewrite (coWalk_accept _ _ _ _ _ _ _ E1), (coWalk_accept _ _ _ _ _ _ _ E2).
      assert (H' : eraseClock a = eraseClock b) by congruence.
      cbn [map]. rewrite H'. f_equal.
      apply IH. simpl in Hle. lia.
    + rewrite (coWalk_reject _ _ _ _ _ _ E1), (coWalk_reject _ _ _ _ _ _ E2).
      apply IH. simpl in Hle. simpl. lia.
Qed.

Lemma map_id_eraseClock (events : list event) :
  map id (map eraseClock events) = map id events.
Proof. rewrite map_map. reflexivity. Qed.

(** X5. What either parser answers for a page depends on the clock only
    in the instants of first sight: two readings of the same page give the
    same events in the same order but for those instants, and so the same
    identifiers. *)
Theorem parsers_ignore_the_clock :
  forall now1 now2 html,
    (map eraseClock (parseDwrFishStockingHtml now1 html)
     = map eraseClock (parseDwrFishStockingHtml now2 html)
     /\ map id (parseDwrFishStockingHtml now1 html)
        = map id (parseDwrFishStockingHtml now2 html))
    /\ (map eraseClock (coEventsOfHtml now1 html)
        = map eraseClock (coEventsOfHtml now2 html)
        /\ map id (coEventsOfHtml now1 html) = map id (coEventsOfHtml now2 html)).
Proof.
  intros now1 now2 html.
  assert (A : map eraseClock (parseDwrFishStockingHtml now1 html)
              = map eraseClock (parseDwrFishStockingHtml now2 html)).
  { unfold parseDwrFishStockingHtml, dedupById. cbv zeta.
    rewrite !dedupFrom_eraseClock. f_equal. apply parseRows_clock. }
  assert (B : map eraseClock (coEventsOfHtml now1 html)
              = map eraseClock (coEventsOfHtml now2 html)).
  { unfold coEventsOfHtml, dedupById. cbv zeta.
    destruct (indexOf _ _); [|reflexivity].
    rewrite !dedupFrom_eraseClock. f_equal. apply coWalk_clock. }
  split; (split; [assumption|]).
  - rewrite <- (map_id_eraseClock (parseDwrFishStockingHtml now1 html)), A.
    apply map_id_eraseClock.
  - rewrite <- (map_id_eraseClock (coEventsOfHtml now1 html)), B.
    apply map_id_eraseClock.
Qed.

(** ** Printing and parsing numbers *)

Lemma digits_fold_pos (d : Decimal.uint) (acc : positive) :
  fold_left (fun a c => 10 * a + digitValue c)%N
    (list_ascii_of_string (NilEmpty.string_of_uint d)) (Npos acc)
  = Npos (Pos.of_uint_acc d acc).
Proof.
  revert acc. induction d; intros acc;
    cbn [NilEmpty.string_of_uint list_ascii_of_string fold_left Pos.of_uint_acc];
    [reflexivity|..];
    rewrite <- IHd; f_equal; vm_compute digitValue; lia.
Qed.

Lemma digits_fold_zero (d : Decimal.uint) :
  fold_left (fun a c => 10 * a + digitValue c)%N
    (list_ascii_of_string (NilEmpty.string_of_uint d)) 0%N
  = Pos.of_uint d.
Proof.
  induction d;
    cbn [NilEmpty.string_of_uint list_ascii_of_string fold_left Pos.of_uint];
    [reflexivity | exact IHd | ..];
    rewrite <- digits_fold_pos; f_equal.
Qed.

Lemma digitsValue_stringOfN (n : N) : digitsValue (stringOfN n) = n.
Proof.
  unfold digitsValue, stringOfN. rewrite digits_fold_zero.
  apply DecimalN.Unsigned.of_to.
Qed.

Lemma filterString_all (p : ascii -> bool) (s : string) :
  forallb_string p s = true -> filterString p s = s.
Proof.
  induction s as [|c s IH]; simpl; [reflexivity|]. intros H.
  apply andb_prop in H as [H1 H2]. now rewrite H1, IH.
Qed.

Lemma filterString_app (p : ascii -> bool) (a b : string) :
  filterString p (a ++ b) = filterString p a ++ filterString p b.
Proof.
  induction a as [|c a IH]; simpl; [reflexivity|].
  destruct (p c); simpl; now rewrite IH.
Qed.

Lemma groupThousands_digits (s : string) :
  filterString isDigit (groupThousands s) = filterString isDigit s.
Proof.
  induction s as [|c s IH]; [reflexivity|].
  cbn [groupThousands filterString].
  rewrite filterString_app, IH.
  destruct ((0 <? length s)%nat && (length s mod 3 =? 0)%nat); reflexivity.
Qed.

Lemma isEmpty_stringOfN (n : N) : isEmpty (stringOfN n) = false.
Proof. apply isEmpty_false, stringOfN_nonempty. Qed.

Lemma countWhile_prefix (p : ascii -> bool) (a : string) (c : ascii) (r : string) :
  forallb_string p a = true -> p c = false ->
  countWhile p (a ++ String c r) = length a.
Proof.
  intros Ha Hc. induction a as [|x a IH]; simpl in *; [now rewrite Hc|].
  apply andb_prop in Ha as [H1 H2]. now rewrite H1, IH.
Qed.

Lemma countWhile_whole (p : ascii -> bool) (a : string) :
  forallb_string p a = true -> countWhile p a = length a.
Proof.
  induction a as [|x a IH]; simpl; [reflexivity|]. intros H.
  apply andb_prop in H as [H1 H2]. now rewrite H1, IH.
Qed.

Lemma take_app (a b : string) : take (length a) (a ++ b) = a.
Proof.
  unfold take. induction a as [|x a IH]; simpl; [now destruct b | now rewrite IH].
Qed.

Lemma drop_app (a b : string) : drop (length a) (a ++ b) = b.
Proof. induction a as [|x a IH]; simpl; [reflexivity | exact IH]. Qed.

Lemma take_all (a : string) : take (length a) a = a.
Proof. rewrite <- (append_nil_r a) at 2. apply take_app. Qed.

Lemma drop_all (a : string) : drop (length a) a = "".
Proof. rewrite <- (append_nil_r a) at 2. apply drop_app. Qed.

Lemma take_length_le (k : nat) (s : string) : allDigits s = true -> allDigits (take k s) = true.
Proof.
  unfold allDigits, take. revert k. induction s as [|c s IH]; intros k H.
  - destruct k; reflexivity.
  - destruct k as [|k]; [reflexivity|]. simpl in *.
    apply andb_prop in H as [H1 H2]. now rewrite H1, IH.
Qed.

Lemma take_countWhile (p : ascii -> bool) (s : string) :
  forallb_string p (take (countWhile p s) s) = true.
Proof.
  unfold take. induction s as [|c s IH]; simpl; [reflexivity|].
  destruct (p c) eqn:E; simpl; [now rewrite E, IH | reflexivity].
Qed.

Lemma stripTrailingZeros_idem (s : string) :
  stripTrailingZeros (stripTrailingZeros s) = stripTrailingZeros s.
Proof.
  induction s as [|c s IH]; simpl; [reflexivity|].
  destruct (stripTrailingZeros s) as [|d t] eqn:E.
  - destruct (Ascii.eqb c "0") eqn:Hc; simpl; [reflexivity | now rewrite Hc].
  - change (stripTrailingZeros (String c (String d t)))
      with (match stripTrailingZeros (String d t) with
            | "" => if Ascii.eqb c "0" then "" else String c ""
            | String x y => String c (String x y)
            end).
    now rewrite IH.
Qed.

Lemma stripTrailingZeros_digits (s : string) :
  allDigits s = true -> allDigits (stripTrailingZeros s) = true.
Proof.
  unfold allDigits. induction s as [|c s IH]; simpl; [auto|]. intros H.
  apply andb_prop in H as [H1 H2]. specialize (IH H2).
  destruct (stripTrailingZeros s).
  - destruct (Ascii.eqb c "0"); simpl; [reflexivity | now rewrite H1].
  - cbn [forallb_string] in *. now rewrite H1, IH.
Qed.

Lemma parseFloat_canonical (s : string) (x : decimal) :
  parseFloat s = Some x -> canonicalDecimal x.
Proof.
  unfold parseFloat, spanDigits. cbv zeta.
  set (f := match drop (countWhile isDigit s) s with
            | String "." r' => fst (take (countWhile isDigit r') r', drop (countWhile isDigit r') r')
            | _ => ""
            end).
  assert (F : allDigits f = true).
  { subst f. destruct (drop (countWhile isDigit s) s) as [|c r]; [reflexivity|].
    destruct (Ascii.eqb_spec c ".") as [->|N].
    - cbn [fst]. apply take_countWhile.
    - destruct c as [[] [] [] [] [] [] [] []]; try reflexivity. now elim N. }
  destruct (_ && _); [discriminate|]. intros H. injection H as <-.
  split; cbn [frac]; [now apply stripTrailingZeros_digits | apply stripTrailingZeros_idem].
Qed.

Lemma parseFloat_of_text (x : decimal) :
  canonicalDecimal x -> parseFloat (stringOfDecimal x) = Some x.
Proof.
  destruct x as [i f]. unfold canonicalDecimal, stringOfDecimal. cbn [int_part frac].
  intros [D Z]. pose proof (stringOfN_digits i) as Di.
  unfold parseFloat, spanDigits.
  destruct f as [|c f].
  - cbn [isEmpty]. rewrite append_nil_r.
    rewrite (countWhile_whole _ _ Di), take_all, drop_all.
    rewrite isEmpty_stringOfN. cbn [andb]. now rewrite digitsValue_stringOfN.
  - cbn [isEmpty append].
    rewrite (countWhile_prefix isDigit (stringOfN i) "." (String c f) Di eq_refl).
    rewrite take_app, drop_app. cbn [fst].
    rewrite (countWhile_whole _ _ D), take_all, isEmpty_stringOfN. cbn [andb].
    now rewrite digitsValue_stringOfN, Z.
Qed.

Lemma stringOfDecimal_chars (x : decimal) :
  allDigits (frac x) = true ->
  forallb_string (fun c => isDigit c || Ascii.eqb c ".") (stringOfDecimal x) = true.
Proof.
  intros D. unfold stringOfDecimal.
  assert (K : forall t, allDigits t = true ->
                forallb_string (fun c => isDigit c || Ascii.eqb c ".") t = true).
  { intros t. apply forallb_string_impl. intros c Hc. now rewrite Hc. }
  rewrite forallb_string_app, (K _ (stringOfN_digits _)).
  destruct (frac x) as [|c f]; [reflexivity|].
  cbn [isEmpty append andb].
  change (forallb_string (fun c0 => isDigit c0 || Ascii.eqb c0 ".") (String "." (String c f)))
    with (forallb_string (fun c0 => isDigit c0 || Ascii.eqb c0 ".") (String c f)).
  exact (K _ D).
Qed.

(** X6. The numbers of an event, printed as the notification and the
    fingerprint print them, read back as the same numbers by the tabular
    parser, in the range where a double holds them exactly and prints them
    in plain decimal: a count below 10^15 printed with thousands
    separators, or plainly, parses to that count; a length of at most 15
    significant digits, zero or at least 0.000001, printed, parses to that
    length.  What the parser reads as a length has no trailing zero in its
    fraction. *)
Theorem numbers_print_parse_round_trip :
  (forall n, exactCount n ->
     parseInt (filterString isDigit (toLocaleString n)) = Some n)
  /\ (forall n, exactCount n ->
        parseInt (filterString isDigit (stringOfN n)) = Some n)
  /\ (forall s x, parseFloat s = Some x -> canonicalDecimal x)
  /\ (forall x,
        canonicalDecimal x -> exactDecimal x ->
        parseFloat (filterString (fun c => isDigit c || Ascii.eqb c ".")
                      (stringOfDecimal x)) = Some x).
Proof.
  assert (A : forall n, parseInt (filterString isDigit (stringOfN n)) = Some n).
  { intros n. rewrite (filterString_all _ _ (stringOfN_digits n)).
    unfold parseInt. now rewrite isEmpty_stringOfN, digitsValue_stringOfN. }
  split; [|split; [|split]].
  - intros n _. unfold toLocaleString. rewrite groupThousands_digits. apply A.
  - intros n _. apply A.
  - exact parseFloat_canonical.
  - intros x C _. rewrite filterString_all by (apply stringOfDecimal_chars, C).
    now apply parseFloat_of_text.
Qed.

Lemma numbers_print_parse_round_trip_witness :
  (exactCount 1200
   /\ parseInt (filterString isDigit (toLocaleString 1200)) = Some 1200%N)
  /\ parseFloat "10.50" = Some {| int_part := 10; frac := "5" |}
  /\ canonicalDecimal {| int_part := 10; frac := "5" |}
  /\ exactDecimal {| int_part := 10; frac := "5" |}
  /\ parseFloat (filterString (fun c => isDigit c || Ascii.eqb c ".")
                   (stringOfDecimal {| int_part := 10; frac := "5" |}))
     = Some {| int_part := 10; frac := "5" |}.
Proof.
  assert (R : exactCount 1200) by reflexivity.
  assert (P : parseFloat "10.50" = Some {| int_part := 10; frac := "5" |})
    by reflexivity.
  assert (E : exactDecimal {| int_part := 10; frac := "5" |}).
  { split; [vm_compute; lia | discriminate]. }
  pose proof (proj1 (proj2 (proj2 numbers_print_parse_round_trip)) _ _ P) as C.
  split; [split; [exact R|]|].
  - exact (proj1 numbers_print_parse_round_trip 1200%N R).
  - split; [exact P|]. split; [exact C|]. split; [exact E|].
    exact (proj2 (proj2 (proj2 numbers_print_parse_round_trip)) _ C E).
Defined.

(** ** The free-text parser, continued *)

Lemma coWalk_bound (now : nat -> string) (lines : list string) (i : nat) :
  3 * List.length (coWalk now i lines) <= List.length lines.
Proof.
  remember (List.length lines) as n eqn:Hn.
  assert (Hle : List.length lines <= n) by lia.
  rewrite Hn. clear Hn.
  revert lines i Hle. induction n as [|n IH]; intros lines i Hle.
  - destruct lines; [simpl; lia | simpl in Hle; lia].
  - destruct lines as [|l0 [|l1 [|l2 rest]]]; try (simpl; lia).
    destruct (coTriple (now i) l0 l1 l2) as [e|] eqn:E.
    + rewrite (coWalk_accept _ _ _ _ _ _ _ E).
      specialize (IH rest (i + 3)). simpl in *. lia.
    + rewrite (coWalk_reject _ _ _ _ _ _ E).
      specialize (IH (l1 :: l2 :: rest) (S i)). simpl in *. lia.
Qed.

(** X7. The walk of the free-text parser yields at most one event for
    every three lines, and none from fewer than three lines; the events of
    a page are no more than a third of the lines of its report section. *)
Theorem free_text_walk_bound :
  (forall now i lines,
     3 * List.length (coWalk now i lines) <= List.length lines)
  /\ (forall now i lines,
        3 * List.length (dedupById (coWalk now i lines)) <= List.length lines).
Proof.
  split.
  - intros now i lines. apply coWalk_bound.
  - intros now i lines.
    pose proof (coWalk_bound now lines i).
    pose proof (dedupFrom_length [] (coWalk now i lines)).
    unfold dedupById. lia.
Qed.

Lemma sectionLines_In (section l : string) :
  In l (sectionLines section) ->
  l <> "" /\ trim l = l /\ includes (toLowerCase l) columnLabels = false.
Proof.
  unfold sectionLines. rewrite !filter_In, in_map_iff.
  intros [[(x & <- & _) N] L].
  apply negb_true_iff in N, L. apply isEmpty_false in N.
  split; [exact N|]. split; [apply trim_idem | exact L].
Qed.

(** X8. Every line the free-text parser walks over is non-empty, trimmed
    and none of the six column labels (in any letter case); cleaning such a
    line again changes nothing. *)
Theorem section_lines_are_clean :
  forall section l,
    In l (sectionLines section) ->
    l <> "" /\ trim l = l /\ clean l = l
    /\ ~ In (toLowerCase l)
         ["body of water"; "region"; "report date"; "link"; "atlas"; "atlas+"].
Proof.
  intros section l H. apply sectionLines_In in H as (N & T & L).
  split; [exact N|]. split; [exact T|]. split; [exact T|].
  intros C. apply includes_In in C. unfold columnLabels in L. congruence.
Qed.

Lemma section_lines_are_clean_witness :
  In "Blue Lake" (sectionLines (join newline [" Blue Lake "; "Region"; ""]))
  /\ clean "Blue Lake" = "Blue Lake".
Proof.
  assert (I : In "Blue Lake" (sectionLines (join newline [" Blue Lake "; "Region"; ""])))
    by (vm_compute; now left).
  split; [exact I|].
  exact (proj1 (proj2 (proj2 (section_lines_are_clean _ _ I)))).
Defined.

Lemma coTriple_nonempty (now l0 l1 l2 : string) (e : event) :
  coTriple now l0 l1 l2 = Some e ->
  clean l0 <> "" /\ clean l1 <> "" /\ coNormalizeDate (clean l2) <> "".
Proof.
  unfold coTriple. cbv zeta.
  destruct (isEmpty (clean l0)) eqn:E0; [discriminate|].
  destruct (isEmpty (clean l1)) eqn:E1; [discriminate|].
  destruct (isEmpty (clean l2)) eqn:E2; [discriminate|]. cbn [orb].
  destruct (_ || _); [discriminate|].
  destruct (_ || _); [discriminate|].
  destruct (isEmpty (coNormalizeDate (clean l2))) eqn:E3; [discriminate|].
  intros _. apply isEmpty_false in E0, E1, E3. auto.
Qed.

(** X9. Every event of the free-text parser has a non-empty trimmed water
    name that is neither a header or footer label nor date-shaped, a
    non-empty trimmed county, a date of the shape YYYY-MM-DD, and an
    identifier of forty hexadecimal digits. *)
Theorem free_text_event_invariants :
  forall now html e,
    In e (coEventsOfHtml now html) ->
    (water_name e <> "" /\ trim (water_name e) = water_name e
     /\ isBad (water_name e) = false /\ isDate (water_name e) = false)
    /\ (county e <> "" /\ trim (county e) = county e)
    /\ isoDateShaped (date_stocked e)
    /\ isDigest (id e).
Proof.
  intros now html e H.
  apply co_event_from_triple in H as (t & l0 & l1 & l2 & H).
  destruct (coTriple_nonempty _ _ _ _ _ H) as (N0 & N1 & N2).
  apply coTriple_some in H.
  destruct H as (B0 & _ & _ & D0 & _ & _ & Hw & Hc & _ & _ & _ & Hd & _ & Hi).
  rewrite Hw, Hc, Hd, Hi. unfold clean in *.
  split; [repeat split; auto using trim_idem|].
  split; [split|].
  - intros E. apply mapString_empty in E. contradiction.
  - now rewrite <- toUpperCase_trim, trim_idem.
  - split; [|apply sha1_isDigest].
    apply normalizeDate_iso. exact N2.
Qed.

Lemma free_text_event_invariants_witness :
  exists e,
    In e (coEventsOfHtml (fun _ => "t") troutReport)
    /\ water_name e <> "" /\ isoDateShaped (date_stocked e) /\ isDigest (id e).
Proof.
  destruct (coEventsOfHtml (fun _ => "t") troutReport) as [|e l] eqn:E;
    [vm_compute in E; discriminate E|].
  assert (I : In e (coEventsOfHtml (fun _ => "t") troutReport))
    by (rewrite E; now left).
  exists e. rewrite <- E. split; [exact I|].
  destruct (free_text_event_invariants _ _ _ I) as ((W & _) & _ & D & G).
  split; [exact W|]. split; [exact D | exact G].
Defined.

(** ** Sorting *)

Section InsertionSortFacts.
Context {A : Type}.
Variable before : A -> A -> bool.

Lemma insertSorted_perm (e : A) (l : list A) :
  Permutation (insertSorted before e l) (e :: l).
Proof.
  induction l as [|x r IH]; simpl; [reflexivity|].
  destruct (before e x); [reflexivity|].
  rewrite IH. apply perm_swap.
Qed.

Lemma stableSort_perm (l : list A) : Permutation (stableSort before l) l.
Proof.
  unfold stableSort. induction l as [|x r IH]; simpl; [reflexivity|].
  rewrite insertSorted_perm. now constructor.
Qed.

Lemma stableSort_In (x : A) (l : list A) : In x (stableSort before l) <-> In x l.
Proof.
  split; apply Permutation_in; [|symmetry]; apply stableSort_perm.
Qed.

Lemma stableSort_length (l : list A) :
  List.length (stableSort before l) = List.length l.
Proof. apply Permutation_length, stableSort_perm. Qed.

Hypothesis before_total : forall a b, before a b = false -> before b a = true.
Hypothesis before_trans :
  forall a b c, before a b = true -> before b c = true -> before a c = true.

Lemma insertSorted_sorted (e : A) (l : list A) :
  StronglySorted (fun a b => before a b = true) l ->
  StronglySorted (fun a b => before a b = true) (insertSorted before e l).
Proof.
  induction l as [|x r IH]; intros S; simpl.
  - constructor; constructor.
  - apply StronglySorted_inv in S as [S F].
    destruct (before e x) eqn:E.
    + constructor; [constructor; assumption|].
      constructor; [exact E|].
      rewrite Forall_forall in *. intros y Hy.
      exact (before_trans _ _ _ E (F y Hy)).
    + constructor; [now apply IH|].
      rewrite Forall_forall in *. intros y Hy.
      apply (Permutation_in _ (insertSorted_perm e r)) in Hy.
      destruct Hy as [<-|Hy]; [now apply before_total | now apply F].
Qed.

Lemma stableSort_sorted (l : list A) :
  StronglySorted (fun a b => before a b = true) (stableSort before l).
Proof.
  unfold stableSort. induction l as [|x r IH]; simpl; [constructor|].
  now apply insertSorted_sorted.
Qed.
End InsertionSortFacts.

Lemma StronglySorted_app {A : Type} (R : A -> A -> Prop) (l1 l2 : list A) :
  StronglySorted R (l1 ++ l2) ->
  forall a b, In a l1 -> In b l2 -> R a b.
Proof.
  induction l1 as [|x l1 IH]; intros S a b Ha Hb; [contradiction|].
  simpl in S. apply StronglySorted_inv in S as [S F].
  destruct Ha as [<-|Ha].
  - rewrite Forall_forall in F. apply F. apply in_or_app. now right.
  - now apply IH.
Qed.

Lemma StronglySorted_firstn {A : Type} (R : A -> A -> Prop) (k : nat) (l : list A) :
  StronglySorted R l -> StronglySorted R (firstn k l).
Proof.
  revert k. induction l as [|x l IH]; intros k S.
  - rewrite firstn_nil. constructor.
  - destruct k as [|k]; [constructor|]. simpl.
    apply StronglySorted_inv in S as [S F]. constructor; [now apply IH|].
    rewrite Forall_forall in *. intros y Hy. apply F.
    rewrite <- (firstn_skipn k l). apply in_or_app. now left.
Qed.

(** *** The order of texts *)

Lemma compare_as_OT (a b : string) :
  String.compare a b = OrdersEx.String_as_OT.compare a b.
Proof.
  revert b. induction a as [|x a IH]; intros [|y b]; reflexivity.
Qed.

Lemma compare_refl (a : string) : String.compare a a = Eq.
Proof.
  rewrite compare_as_OT.
  destruct (OrdersEx.String_as_OT.compare_spec a a) as [_|H|H]; [reflexivity| |];
    exfalso;
    exact (@RelationClasses.StrictOrder_Irreflexive _ _
             OrdersEx.String_as_OT.lt_strorder a H).
Qed.

Lemma compare_lt_trans (a b c : string) :
  String.compare a b = Lt -> String.compare b c = Lt -> String.compare a c = Lt.
Proof.
  rewrite !compare_as_OT. intros H1 H2.
  exact (@RelationClasses.StrictOrder_Transitive _ _
           OrdersEx.String_as_OT.lt_strorder a b c H1 H2).
Qed.

Lemma leb_iff (a b : string) :
  String.leb a b = true <-> a = b \/ String.compare a b = Lt.
Proof.
  unfold String.leb. destruct (String.compare a b) eqn:E.
  - apply String.compare_eq_iff in E. split; auto.
  - split; auto.
  - split; [discriminate|]. intros [->|H]; [|discriminate H].
    rewrite compare_refl in E. discriminate E.
Qed.

Lemma leb_trans (a b c : string) :
  String.leb a b = true -> String.leb b c = true -> String.leb a c = true.
Proof.
  rewrite !leb_iff. intros [->|H1] [->|H2]; auto.
  right. exact (compare_lt_trans _ _ _ H1 H2).
Qed.

Lemma leb_false_total (a b : string) :
  String.leb a b = false -> String.leb b a = true.
Proof.
  intros H. destruct (String.leb_total a b) as [K|K]; [congruence | exact K].
Qed.

(** ** The event table *)

Lemma hasId_In (i : string) (rows : list event) :
  hasId i rows = true <-> In i (map id rows).
Proof.
  unfold hasId. rewrite existsb_exists, in_map_iff. split.
  - intros (r & Hr & E). apply String.eqb_eq in E. now exists r.
  - intros (r & E & Hr). exists r. split; [exact Hr | now apply String.eqb_eq].
Qed.

Lemma hasId_false (i : string) (rows : list event) :
  hasId i rows = false <-> ~ In i (map id rows).
Proof.
  rewrite <- hasId_In. destruct (hasId i rows); split; congruence.
Qed.

Lemma appended_length (evs rows : list event) :
  List.length (appended evs rows) <= List.length evs.
Proof.
  revert rows. induction evs as [|e rest IH]; intros rows; simpl; [lia|].
  destruct (hasId (id e) rows); simpl.
  - specialize (IH rows). lia.
  - specialize (IH (rows ++ [e])%list). lia.
Qed.

Lemma appended_NoDup (evs rows : list event) :
  NoDup (map id rows) -> NoDup (map id (rows ++ appended evs rows)).
Proof.
  revert rows. induction evs as [|e rest IH]; intros rows N; simpl.
  - now rewrite app_nil_r.
  - destruct (hasId (id e) rows) eqn:E; [now apply IH|].
    replace (rows ++ e :: appended rest (rows ++ [e]))%list
      with ((rows ++ [e]) ++ appended rest (rows ++ [e]))%list
      by (now rewrite <- app_assoc).
    apply IH. rewrite map_app. simpl.
    apply hasId_false in E.
    apply NoDup_app; [exact N | constructor; [simpl; tauto | constructor] |].
    intros x Hx [<-|[]]. contradiction.
Qed.

(** X10. insertNewEvents only ever appends to the event table: the stored
    records stay as they are and where they are, the records appended are
    events of the batch whose identifiers were not stored, the count it
    answers is their number (never more than the batch), identifiers that
    were pairwise distinct stay so, and the subscriptions are not
    touched. *)
Theorem insert_only_appends :
  forall d evs,
    let d' := fst (insertNewEvents evs d) in
    let out := snd (insertNewEvents evs d) in
    stock_events d' = (stock_events d ++ appended evs (stock_events d))%list
    /\ (forall a, In a (appended evs (stock_events d)) ->
                  In a evs /\ hasId (id a) (stock_events d) = false)
    /\ insertedCount out = List.length (appended evs (stock_events d))
    /\ insertedCount out <= List.length evs
    /\ (NoDup (map id (stock_events d)) -> NoDup (map id (stock_events d')))
    /\ subscriptions d' = subscriptions d.
Proof.
  intros d evs. unfold insertNewEvents. rewrite tx_appended.
  cbn [fst snd stock_events subscriptions insertedCount Nat.add].
  split; [reflexivity|].
  split; [intros a Ha; split; [exact (appended_In _ _ _ Ha) | exact (appended_new _ _ _ Ha)]|].
  split; [reflexivity|].
  split; [apply appended_length|].
  split; [apply appended_NoDup | reflexivity].
Qed.

Lemma insert_only_appends_witness :
  NoDup (map id (stock_events emptyDb))
  /\ NoDup (map id (stock_events
                      (fst (insertNewEvents
                              [blueLakeEvent "t1"; blueLakeEvent "t2"] emptyDb)))).
Proof.
  assert (N : NoDup (map id (stock_events emptyDb))) by constructor.
  split; [exact N|].
  exact (proj1 (proj2 (proj2 (proj2 (proj2
           (insert_only_appends emptyDb [blueLakeEvent "t1"; blueLakeEvent "t2"])))))
           N).
Defined.

Lemma lookupEvent_app (i : string) (rows more : list event) (r : event) :
  lookupEvent i rows = Some r -> lookupEvent i (rows ++ more) = Some r.
Proof.
  unfold lookupEvent. induction rows as [|x rows IH]; simpl; [discriminate|].
  destruct (String.eqb (id x) i); [auto | exact IH].
Qed.

Lemma lookupEvent_unknown (i : string) (rows more : list event) :
  hasId i rows = false -> lookupEvent i (rows ++ more) = lookupEvent i more.
Proof.
  unfold lookupEvent, hasId. induction rows as [|x rows IH]; simpl; [reflexivity|].
  intros H. apply orb_false_elim in H as [H1 H2]. rewrite H1. now apply IH.
Qed.

Lemma lookupEvent_some (i : string) (rows : list event) :
  hasId i rows = true -> exists r, lookupEvent i rows = Some r /\ id r = i.
Proof.
  unfold lookupEvent, hasId. induction rows as [|x rows IH]; simpl; [discriminate|].
  destruct (String.eqb (id x) i) eqn:E.
  - intros _. exists x. split; [reflexivity | now apply String.eqb_eq].
  - exact IH.
Qed.

Lemma appended_first (pre post rows : list event) (e : event) :
  ~ In (id e) (map id pre) -> hasId (id e) rows = false ->
  lookupEvent (id e) (appended (pre ++ e :: post) rows) = Some e.
Proof.
  revert rows. induction pre as [|x pre IH]; intros rows Hp Hr; simpl.
  - rewrite Hr. unfold lookupEvent. simpl. now rewrite String.eqb_refl.
  - simpl in Hp. destruct (hasId (id x) rows) eqn:E.
    + apply IH; [tauto | exact Hr].
    + unfold lookupEvent. simpl.
      destruct (String.eqb_spec (id x) (id e)) as [K|K]; [exfalso; apply Hp; now left|].
      apply IH; [tauto|]. rewrite hasId_app, Hr.
      apply String.eqb_neq in K. now rewrite K.
Qed.

(** X11. After insertNewEvents every identifier of the batch can be looked
    up in the table.  The first record stored under an identifier wins: a
    record that was stored stays the record of its identifier whatever the
    batch holds, and of several events of one new identifier in a batch the
    first is the one stored. *)
Theorem insert_then_lookup :
  forall d evs,
    let rows' := stock_events (fst (insertNewEvents evs d)) in
    (forall e, In e evs ->
       exists r, lookupEvent (id e) rows' = Some r /\ id r = id e)
    /\ (forall i r, lookupEvent i (stock_events d) = Some r ->
                    lookupEvent i rows' = Some r)
    /\ (forall pre e post,
          evs = (pre ++ e :: post)%list ->
          ~ In (id e) (map id pre) ->
          hasId (id e) (stock_events d) = false ->
          lookupEvent (id e) rows' = Some e).
Proof.
  intros d evs. cbv zeta.
  assert (Hrows : stock_events (fst (insertNewEvents evs d))
                  = (stock_events d ++ appended evs (stock_events d))%list)
    by (unfold insertNewEvents; rewrite tx_appended; reflexivity).
  split; [|split].
  - intros e He. apply lookupEvent_some.
    unfold insertNewEvents.
    pose proof (tx_stores evs (stock_events d) 0 e He) as K.
    destruct (tx evs (stock_events d) 0) as [rows count]. exact K.
  - intros i r H. rewrite Hrows. now apply lookupEvent_app.
  - intros pre e post -> Hp Hr. rewrite Hrows.
    rewrite lookupEvent_unknown by exact Hr. now apply appended_first.
Qed.

Lemma insert_then_lookup_witness :
  lookupEvent (id (blueLakeEvent "t1"))
    (stock_events (fst (insertNewEvents
                          ([] ++ blueLakeEvent "t1" :: [blueLakeEvent "t2"]) emptyDb)))
  = Some (blueLakeEvent "t1").
Proof.
  apply (proj2 (proj2 (insert_then_lookup emptyDb
                         ([] ++ blueLakeEvent "t1" :: [blueLakeEvent "t2"])))
           [] (blueLakeEvent "t1") [blueLakeEvent "t2"]).
  - reflexivity.
  - simpl. tauto.
  - reflexivity.
Defined.

(** *** The records handed back *)

Lemma insertDesc_insertSorted (e : event) (l : list event) :
  insertDesc e l
  = insertSorted (fun a b => String.leb (first_seen_at b) (first_seen_at a)) e l.
Proof. induction l as [|x r IH]; simpl; [reflexivity | now rewrite IH]. Qed.

Lemma orderByFirstSeenDesc_stableSort (l : list event) :
  orderByFirstSeenDesc l
  = stableSort (fun a b => String.leb (first_seen_at b) (first_seen_at a)) l.
Proof.
  unfold orderByFirstSeenDesc, stableSort.
  induction l as [|x r IH]; simpl; [reflexivity|].
  now rewrite IH, insertDesc_insertSorted.
Qed.

Lemma orderByFirstSeenDesc_sorted (l : list event) :
  StronglySorted
    (fun a b => String.leb (first_seen_at b) (first_seen_at a) = true)
    (orderByFirstSeenDesc l).
Proof.
  rewrite orderByFirstSeenDesc_stableSort.
  apply (stableSort_sorted
           (fun a b => String.leb (first_seen_at b) (first_seen_at a))).
  - intros a b. apply leb_false_total.
  - intros a b c H1 H2. exact (leb_trans _ _ _ H2 H1).
Qed.

(** X12. The records insertNewEvents hands back are as many as it
    counted, are records of the table, come latest first, and are the
    latest of the table: no other stored record was first seen later than
    one of them. *)
Theorem newOnes_are_the_latest_rows :
  forall d evs,
    let rows' := stock_events (fst (insertNewEvents evs d)) in
    let out := snd (insertNewEvents evs d) in
    List.length (newOnes out) = insertedCount out
    /\ (forall r, In r (newOnes out) -> In r rows')
    /\ StronglySorted
         (fun a b => String.leb (first_seen_at b) (first_seen_at a) = true)
         (newOnes out)
    /\ (forall a b,
          In a (newOnes out) -> In b rows' -> ~ In b (newOnes out) ->
          String.leb (first_seen_at b) (first_seen_at a) = true).
Proof.
  intros d evs. unfold insertNewEvents. rewrite tx_appended.
  cbn [fst snd stock_events newOnes insertedCount Nat.add].
  set (rows := (stock_events d ++ appended evs (stock_events d))%list).
  set (k := List.length (appended evs (stock_events d))).
  assert (Hk : k <= List.length (orderByFirstSeenDesc rows)).
  { rewrite orderByFirstSeenDesc_length. subst rows k. rewrite length_app. lia. }
  split; [now apply firstn_length_le|].
  split.
  { intros r Hr. apply orderByFirstSeenDesc_In.
    rewrite <- (firstn_skipn k (orderByFirstSeenDesc rows)).
    apply in_or_app. now left. }
  split; [apply StronglySorted_firstn, orderByFirstSeenDesc_sorted|].
  intros a b Ha Hb Nb.
  apply orderByFirstSeenDesc_In in Hb.
  rewrite <- (firstn_skipn k (orderByFirstSeenDesc rows)) in Hb.
  apply in_app_or in Hb as [Hb|Hb]; [contradiction|].
  pose proof (orderByFirstSeenDesc_sorted rows) as S.
  rewrite <- (firstn_skipn k (orderByFirstSeenDesc rows)) in S.
  exact (StronglySorted_app _ _ _ S a b Ha Hb).
Qed.

Lemma newOnes_are_the_latest_rows_witness :
  let d1 := {| stock_events := [blueLakeEvent "2026-03-05T09:00:00.000Z"];
               subscriptions := [] |} in
  let batch := [greenLakeEvent "2026-03-04T09:00:00.000Z"] in
  In (blueLakeEvent "2026-03-05T09:00:00.000Z")
     (newOnes (snd (insertNewEvents batch d1)))
  /\ In (greenLakeEvent "2026-03-04T09:00:00.000Z")
        (stock_events (fst (insertNewEvents batch d1)))
  /\ ~ In (greenLakeEvent "2026-03-04T09:00:00.000Z")
          (newOnes (snd (insertNewEvents batch d1)))
  /\ String.leb (first_seen_at (greenLakeEvent "2026-03-04T09:00:00.000Z"))
        (first_seen_at (blueLakeEvent "2026-03-05T09:00:00.000Z")) = true.
Proof.
  cbv zeta.
  set (d1 := {| stock_events := [blueLakeEvent "2026-03-05T09:00:00.000Z"];
                subscriptions := [] |}).
  set (batch := [greenLakeEvent "2026-03-04T09:00:00.000Z"]).
  assert (Ia : In (blueLakeEvent "2026-03-05T09:00:00.000Z")
                 (newOnes (snd (insertNewEvents batch d1))))
    by (left; reflexivity).
  assert (Ib : In (greenLakeEvent "2026-03-04T09:00:00.000Z")
                 (stock_events (fst (insertNewEvents batch d1))))
    by (right; left; reflexivity).
  assert (Nb : ~ In (greenLakeEvent "2026-03-04T09:00:00.000Z")
                   (newOnes (snd (insertNewEvents batch d1))))
    by (intros [H|[]]; discriminate H).
  split; [exact Ia|]. split; [exact Ib|]. split; [exact Nb|].
  exact (proj2 (proj2 (proj2 (newOnes_are_the_latest_rows d1 batch))) _ _ Ia Ib Nb).
Defined.

(** X13. While the clock advances, that is when every event of the batch
    was read later than every stored record was first seen, the records
    insertNewEvents hands back are exactly the records it appended: each is
    an event of the batch whose identifier was not stored before, and none
    is a record stored before. *)
Theorem newOnes_are_new_when_clock_advances :
  forall d evs,
    (forall o a, In o (stock_events d) -> In a evs ->
                 String.ltb (first_seen_at o) (first_seen_at a) = true) ->
    let out := snd (insertNewEvents evs d) in
    Permutation (newOnes out) (appended evs (stock_events d))
    /\ (forall r, In r (newOnes out) ->
                  In r evs /\ hasId (id r) (stock_events d) = false)
    /\ (forall r, In r (newOnes out) -> ~ In r (stock_events d))
    /\ insertedCount out = List.length (newOnes out).
Proof.
  intros d evs H. cbv zeta. rewrite (newOnes_when_clock_advances d evs H).
  cbn [snd newOnes insertedCount].
  assert (P : Permutation (orderByFirstSeenDesc (appended evs (stock_events d)))
                (appended evs (stock_events d))).
  { rewrite orderByFirstSeenDesc_stableSort. apply stableSort_perm. }
  split; [exact P|].
  assert (K : forall r, In r (orderByFirstSeenDesc (appended evs (stock_events d))) ->
                In r evs /\ hasId (id r) (stock_events d) = false).
  { intros r Hr. rewrite orderByFirstSeenDesc_In in Hr.
    split; [exact (appended_In _ _ _ Hr) | exact (appended_new _ _ _ Hr)]. }
  split; [exact K|]. split.
  - intros r Hr Ho. destruct (K r Hr) as [_ N].
    apply hasId_false in N. apply N. now apply in_map.
  - now rewrite orderByFirstSeenDesc_length.
Qed.

Lemma newOnes_are_new_when_clock_advances_witness :
  let d1 := {| stock_events := [blueLakeEvent "2026-03-04T09:00:00.000Z"];
               subscriptions := [] |} in
  let batch := [blueLakeEvent "2026-03-05T09:00:00.000Z";
                greenLakeEvent "2026-03-05T09:00:00.000Z"] in
  Permutation (newOnes (snd (insertNewEvents batch d1)))
    (appended batch (stock_events d1))
  /\ appended batch (stock_events d1) = [greenLakeEvent "2026-03-05T09:00:00.000Z"].
Proof.
  cbv zeta. split; [|reflexivity].
  apply newOnes_are_new_when_clock_advances.
  intros o a Ho Ha. destruct Ho as [<-|[]].
  destruct Ha as [<-|[<-|[]]]; reflexivity.
Defined.

(** ** The subscription table *)

Lemma upsertRow_length (rowid : N) (token : string) (cs ss ws : list string)
    (rows : list subscription) :
  List.length rows <= List.length (upsertRow rowid token cs ss ws rows)
  /\ List.length (upsertRow rowid token cs ss ws rows) <= S (List.length rows).
Proof.
  induction rows as [|r rest IH]; simpl; [lia|].
  destruct (String.eqb (expo_push_token r) token); simpl; lia.
Qed.

Lemma upsertRow_stored (rowid : N) (token : string) (cs ss ws : list string)
    (rows : list subscription) :
  exists s, In s (upsertRow rowid token cs ss ws rows)
            /\ expo_push_token s = token /\ counties s = cs
            /\ sub_species s = ss /\ waters s = ws.
Proof.
  induction rows as [|r rest IH]; simpl.
  - eexists. split; [now left|]. repeat split.
  - destruct (String.eqb (expo_push_token r) token).
    + eexists. split; [now left|]. repeat split.
    + destruct IH as (s & Hs & H). exists s. split; [now right | exact H].
Qed.

Lemma upsertRow_others (rowid : N) (token : string) (cs ss ws : list string)
    (rows : list subscription) (s : subscription) :
  expo_push_token s <> token ->
  (In s (upsertRow rowid token cs ss ws rows) <-> In s rows).
Proof.
  intros N. induction rows as [|r rest IH]; simpl.
  - split; [|tauto]. intros [<-|[]]. now elim N.
  - destruct (String.eqb_spec (expo_push_token r) token) as [E|E]; simpl.
    + split; intros [H|H]; auto; subst; simpl in N; congruence.
    + rewrite IH. tauto.
Qed.

Lemma upsertRow_tokens (rowid : N) (token : string) (cs ss ws : list string)
    (rows : list subscription) :
  map expo_push_token (upsertRow rowid token cs ss ws rows)
  = if existsb (fun r => String.eqb (expo_push_token r) token) rows
    then map expo_push_token rows
    else (map expo_push_token rows ++ [token])%list.
Proof.
  induction rows as [|r rest IH]; simpl; [reflexivity|].
  destruct (String.eqb_spec (expo_push_token r) token) as [E|E]; simpl.
  - now rewrite E.
  - rewrite IH. destruct (existsb _ rest); reflexivity.
Qed.

Lemma upsertRow_NoDup (rowid : N) (token : string) (cs ss ws : list string)
    (rows : list subscription) :
  NoDup (map expo_push_token rows) ->
  NoDup (map expo_push_token (upsertRow rowid token cs ss ws rows)).
Proof.
  intros N. rewrite upsertRow_tokens.
  destruct (existsb _ rows) eqn:E; [exact N|].
  apply NoDup_app; [exact N | constructor; [simpl; tauto | constructor] |].
  intros x Hx [<-|[]]. apply in_map_iff in Hx as (r & Hr & Ir).
  assert (K : existsb (fun r => String.eqb (expo_push_token r) token) rows = true).
  { apply existsb_exists. exists r. split; [exact Ir | now apply String.eqb_eq]. }
  congruence.
Qed.

Lemma NoDup_map_inj {A B : Type} (f : A -> B) (l : list A) (a b : A) :
  NoDup (map f l) -> In a l -> In b l -> f a = f b -> a = b.
Proof.
  induction l as [|x l IH]; simpl; [tauto|]. intros N Ha Hb E.
  apply NoDup_cons_iff in N as [N1 N2].
  destruct Ha as [<-|Ha], Hb as [<-|Hb]; auto.
  - exfalso. apply N1. rewrite E. now apply in_map.
  - exfalso. apply N1. rewrite <- E. now apply in_map.
Qed.

Lemma upsertRow_again (r1 r2 : N) (token : string) (a1 a2 a3 b1 b2 b3 : list string)
    (rows : list subscription) :
  upsertRow r2 token b1 b2 b3 (upsertRow r1 token a1 a2 a3 rows)
  = upsertRow r1 token b1 b2 b3 rows.
Proof.
  induction rows as [|r rest IH]; simpl.
  - now rewrite String.eqb_refl.
  - destruct (String.eqb (expo_push_token r) token) eqn:E; simpl.
    + now rewrite String.eqb_refl.
    + now rewrite E, IH.
Qed.

(** X14. upsertSubscription keeps one row per token: afterwards the table
    holds a subscription of the token with exactly the filter sets given,
    every subscription of another token is as before, the events are not
    touched, the table grows by at most one row, and tokens that were
    pairwise distinct stay so, the one row of the token being the one with
    the new filter sets.  A later upsert of the same token replaces the
    filter sets of the earlier one (nothing is merged), and the same upsert
    twice is the same as once. *)
Theorem upsert_keeps_one_row_per_token :
  forall rowid token cs ss ws d,
    let d' := upsertSubscription rowid token cs ss ws d in
    stock_events d' = stock_events d
    /\ (exists s, In s (listSubscriptions d')
                  /\ expo_push_token s = token /\ counties s = cs
                  /\ sub_species s = ss /\ waters s = ws)
    /\ (forall s, expo_push_token s <> token ->
                  (In s (listSubscriptions d') <-> In s (listSubscriptions d)))
    /\ List.length (listSubscriptions d) <= List.length (listSubscriptions d')
       <= S (List.length (listSubscriptions d))
    /\ (NoDup (map expo_push_token (listSubscriptions d)) ->
        NoDup (map expo_push_token (listSubscriptions d'))
        /\ forall s, In s (listSubscriptions d') -> expo_push_token s = token ->
                     counties s = cs /\ sub_species s = ss /\ waters s = ws)
    /\ (forall rowid2 cs2 ss2 ws2,
          upsertSubscription rowid2 token cs2 ss2 ws2 d'
          = upsertSubscription rowid token cs2 ss2 ws2 d)
    /\ upsertSubscription rowid token cs ss ws d' = d'.
Proof.
  intros rowid token cs ss ws d. cbv zeta.
  unfold upsertSubscription, listSubscriptions. cbn [stock_events subscriptions].
  split; [reflexivity|].
  split; [apply upsertRow_stored|].
  split; [intros s; apply upsertRow_others|].
  split; [apply upsertRow_length|].
  split; [|split].
  - intros N. pose proof (upsertRow_NoDup rowid token cs ss ws _ N) as N'.
    split; [exact N'|]. intros s Hs Ht.
    destruct (upsertRow_stored rowid token cs ss ws (subscriptions d))
      as (s0 & H0 & T0 & C0 & S0 & W0).
    assert (E : s = s0).
    { apply (NoDup_map_inj expo_push_token _ s s0 N' Hs H0). congruence. }
    subst s0. auto.
  - intros rowid2 cs2 ss2 ws2. now rewrite upsertRow_again.
  - now rewrite upsertRow_again.
Qed.

Lemma upsert_keeps_one_row_per_token_witness :
  let d' := upsertSubscription 2 "TOK1" [] ["RAINBOW"] [] (store scenarioWorld) in
  NoDup (map expo_push_token (listSubscriptions (store scenarioWorld)))
  /\ NoDup (map expo_push_token (listSubscriptions d'))
  /\ listSubscriptions d'
     = [ {| sub_id := 1; expo_push_token := "TOK1"; counties := [];
            sub_species := ["RAINBOW"]; waters := [] |} ].
Proof.
  cbv zeta.
  assert (N : NoDup (map expo_push_token (listSubscriptions (store scenarioWorld))))
    by (constructor; [simpl; tauto | constructor]).
  split; [exact N|]. split; [|reflexivity].
  exact (proj1 (proj1 (proj2 (proj2 (proj2 (proj2
           (upsert_keeps_one_row_per_token 2 "TOK1" [] ["RAINBOW"] []
              (store scenarioWorld)))))) N)).
Defined.

(** X15. POST /subscribe refuses with status 400, and leaves the store as
    it is, exactly when the body is missing or its token is not a
    non-empty text.  Otherwise it answers 200 and stores for the token the
    filter sets of the body, a filter that is not an array being stored as
    the empty set: a subscription posted without any array filter matches
    every event. *)
Theorem subscribe_route_validates :
  forall rowid body d,
    let d' := fst (subscribeRoute rowid body d) in
    let reply := snd (subscribeRoute rowid body d) in
    (http_status reply = 400%N \/ http_status reply = 200%N)
    /\ (http_status reply = 200%N
        <-> exists b token, body = Some b /\ body_token b = JsString token
                            /\ token <> "")
    /\ (http_status reply = 400%N -> d' = d /\ reply_ok reply = false)
    /\ (forall b token,
          body = Some b -> body_token b = JsString token -> token <> "" ->
          d' = upsertSubscription rowid token
                 (arrayOrEmpty (body_counties b))
                 (arrayOrEmpty (body_species b))
                 (arrayOrEmpty (body_waters b)) d
          /\ reply_ok reply = true)
    /\ (forall b token,
          body = Some b -> body_token b = JsString token -> token <> "" ->
          (forall items, body_counties b <> JsArray items) ->
          (forall items, body_species b <> JsArray items) ->
          (forall items, body_waters b <> JsArray items) ->
          exists s, In s (listSubscriptions d')
                    /\ expo_push_token s = token
                    /\ forall e, matchesSubscription e s = true).
Proof.
  intros rowid body d. cbv zeta.
  assert (A : forall b token,
            body = Some b -> body_token b = JsString token -> token <> "" ->
            subscribeRoute rowid body d
            = (upsertSubscription rowid token
                 (arrayOrEmpty (body_counties b))
                 (arrayOrEmpty (body_species b))
                 (arrayOrEmpty (body_waters b)) d, replyOk tt)).
  { intros b token -> Ht Hn. unfold subscribeRoute. cbv zeta. rewrite Ht.
    apply isEmpty_false in Hn. now rewrite Hn. }
  assert (R : (exists b token, body = Some b /\ body_token b = JsString token
                               /\ token <> "")
              \/ subscribeRoute rowid body d
                 = (d, replyError 400 "expo_push_token required")).
  { destruct body as [b|]; [|now right].
    destruct (body_token b) as [| token | |] eqn:Ht;
      try (right; unfold subscribeRoute; cbv zeta; now rewrite Ht).
    destruct token as [|c token].
    - right. unfold subscribeRoute. cbv zeta. now rewrite Ht.
    - left. exists b, (String c token). repeat split; [exact Ht | discriminate]. }
  split; [|split; [|split; [|split]]].
  - destruct R as [(b & token & Hb & Ht & Hn)|R].
    + rewrite (A b token Hb Ht Hn). now right.
    + rewrite R. now left.
  - split.
    + intros H. destruct R as [R|R]; [exact R|]. rewrite R in H. discriminate H.
    + intros (b & token & Hb & Ht & Hn). now rewrite (A b token Hb Ht Hn).
  - intros H. destruct R as [(b & token & Hb & Ht & Hn)|R].
    + rewrite (A b token Hb Ht Hn) in H. discriminate H.
    + rewrite R. split; reflexivity.
  - intros b token Hb Ht Hn. rewrite (A b token Hb Ht Hn). split; reflexivity.
  - intros b token Hb Ht Hn Hc Hs Hw. rewrite (A b token Hb Ht Hn). cbn [fst].
    assert (E : forall v, (forall items, v <> JsArray items) -> arrayOrEmpty v = []).
    { intros v Hv. destruct v; try reflexivity. now elim (Hv items). }
    rewrite (E _ Hc), (E _ Hs), (E _ Hw).
    destruct (upsertRow_stored rowid token [] [] [] (subscriptions d))
      as (s & Hin & T & C & S & W).
    exists s. split; [exact Hin|]. split; [exact T|].
    intros e. unfold matchesSubscription. cbv zeta. now rewrite C, S, W.
Qed.

Lemma subscribe_route_validates_witness :
  let body := Some {| body_token := JsString "TOK2";
                      body_counties := JsString "WASATCH";
                      body_species := JsUndefined;
                      body_waters := JsUndefined |} in
  (exists s, In s (listSubscriptions (fst (subscribeRoute 2 body emptyDb)))
             /\ expo_push_token s = "TOK2"
             /\ forall e, matchesSubscription e s = true)
  /\ fst (subscribeRoute 2 (Some {| body_token := JsOther;
                                    body_counties := JsArray ["WASATCH"];
                                    body_species := JsUndefined;
                                    body_waters := JsUndefined |}) emptyDb)
     = emptyDb.
Proof.
  cbv zeta. split.
  - apply (proj2 (proj2 (proj2 (proj2
             (subscribe_route_validates 2
                (Some {| body_token := JsString "TOK2";
                         body_counties := JsString "WASATCH";
                         body_species := JsUndefined;
                         body_waters := JsUndefined |}) emptyDb))))
             {| body_token := JsString "TOK2";
                body_counties := JsString "WASATCH";
                body_species := JsUndefined;
                body_waters := JsUndefined |} "TOK2" eq_refl eq_refl);
      discriminate.
  - apply (proj1 (proj2 (proj2
             (subscribe_route_validates 2
                (Some {| body_token := JsOther;
                         body_counties := JsArray ["WASATCH"];
                         body_species := JsUndefined;
                         body_waters := JsUndefined |}) emptyDb)))).
    reflexivity.
Defined.

(** ** The recent events *)

Lemma recentBefore_total (a b : event) :
  recentBefore a b = false -> recentBefore b a = true.
Proof.
  unfold recentBefore. rewrite (String.compare_antisym (date_stocked a)).
  destruct (String.compare (date_stocked b) (date_stocked a)); simpl;
    [apply leb_false_total | discriminate | reflexivity].
Qed.

Lemma recentBefore_trans (a b c : event) :
  recentBefore a b = true -> recentBefore b c = true -> recentBefore a c = true.
Proof.
  unfold recentBefore.
  destruct (String.compare (date_stocked b) (date_stocked a)) eqn:E1;
    [|  |discriminate];
    (destruct (String.compare (date_stocked c) (date_stocked b)) eqn:E2;
     [| |discriminate]); intros H1 H2.
  - apply String.compare_eq_iff in E1, E2. rewrite E2, E1, compare_refl.
    exact (leb_trans _ _ _ H2 H1).
  - apply String.compare_eq_iff in E1. now rewrite <- E1, E2.
  - apply String.compare_eq_iff in E2. now rewrite E2, E1.
  - now rewrite (compare_lt_trans _ _ _ E2 E1).
Qed.

Lemma intOr_not_zero (q : option string) (fallback : string) (other : Z) :
  other <> 0%Z -> intOr q fallback other <> 0%Z.
Proof.
  intros H. unfold intOr. destruct (parseIntJs _) as [n|]; [|exact H].
  destruct (Z.eqb_spec n 0); assumption.
Qed.

Lemma limitOfQuery_bounds (q : option string) :
  (limitOfQuery q <= 200)%Z /\ limitOfQuery q <> 0%Z.
Proof.
  unfold limitOfQuery.
  pose proof (intOr_not_zero q "50" 50 ltac:(discriminate)). lia.
Qed.

Section DoubleBounds.
Local Open Scope Z_scope.

Lemma toDouble_opp (n : Z) : toDouble (- n) = - toDouble n.
Proof.
  unfold toDouble. cbv zeta. rewrite Z.abs_opp, Z.sgn_opp.
  destruct (Z.log2 (Z.abs n) + 1 <=? 53); lia.
Qed.

Lemma toDouble_bound (a : Z) :
  0 <= a -> 0 <= toDouble a /\ (toDouble a < 2 ^ 63 <-> a < 2 ^ 63 - 512).
Proof.
  intros Ha. unfold toDouble. cbv zeta. rewrite (Z.abs_eq a Ha).
  destruct (Z.leb_spec (Z.log2 a + 1) 53) as [Hb|Hb].
  - split; [exact Ha|].
    assert (a < 2 ^ 53).
    { destruct (Z.eq_dec a 0) as [->|N]; [reflexivity|].
      pose proof (Z.log2_spec a ltac:(lia)) as [_ U].
      eapply Z.lt_le_trans; [exact U|].
      apply Z.pow_le_mono_r; lia. }
    change (2 ^ 53) with 9007199254740992 in *.
    change (2 ^ 63) with 9223372036854775808. lia.
  - assert (Hpos : 0 < a).
    { destruct (Z.eq_dec a 0) as [->|N]; [simpl in Hb; lia | lia]. }
    pose proof (Z.log2_spec a Hpos) as [L U].
    set (bits := Z.log2 a + 1) in *.
    set (e := bits - 53) in *.
    assert (He : 1 <= e) by lia.
    rewrite Z.shiftr_div_pow2 by lia.
    rewrite Z.land_ones by lia.
    rewrite !Z.shiftl_mul_pow2 by lia.
    rewrite Z.sgn_pos by exact Hpos.
    set (P := 2 ^ e) in *.
    assert (HP : 0 < P) by (apply Z.pow_pos_nonneg; lia).
    assert (L' : 2 ^ 52 * P <= a).
    { unfold P. rewrite <- Z.pow_add_r by lia.
      replace (52 + e) with (Z.log2 a) by lia. exact L. }
    assert (U' : a < 2 ^ 53 * P).
    { unfold P. rewrite <- Z.pow_add_r by lia.
      replace (53 + e) with (Z.succ (Z.log2 a)) by lia. exact U. }
    pose proof (Z.div_mod a P ltac:(lia)) as DM.
    pose proof (Z.mod_pos_bound a P HP) as MB.
    set (q := a / P) in *. set (r := a mod P) in *.
    assert (Q1 : 2 ^ 52 <= q) by (change (2 ^ 52) with 4503599627370496 in *; nia).
    assert (Q2 : q < 2 ^ 53) by (change (2 ^ 53) with 9007199254740992 in *; nia).
    set (q' := if (1 * 2 ^ (e - 1) <? r) || ((r =? 1 * 2 ^ (e - 1)) && Z.odd q)
               then q + 1 else q).
    assert (Q' : q <= q' <= q + 1) by (unfold q'; destruct (_ || _); lia).
    split; [nia|].
    destruct (Z.lt_trichotomy e 10) as [E|[E|E]].
    + assert (P <= 2 ^ 9) by (apply Z.pow_le_mono_r; lia).
      change (2 ^ 9) with 512 in *. change (2 ^ 53) with 9007199254740992 in *.
      change (2 ^ 52) with 4503599627370496 in *.
      change (2 ^ 63) with 9223372036854775808. split; intros _; nia.
    + assert (EP : P = 1024) by (unfold P; rewrite E; reflexivity).
      assert (EH : 1 * 2 ^ (e - 1) = 512) by (rewrite E; reflexivity).
      unfold q'. rewrite EH, EP in *.
      change (2 ^ 53) with 9007199254740992 in *.
      change (2 ^ 52) with 4503599627370496 in *.
      change (2 ^ 63) with 9223372036854775808.
      destruct (Z.ltb_spec 512 r) as [R|R]; cbn [orb].
      * lia.
      * destruct (Z.eqb_spec r 512) as [R'|R']; cbn [andb].
        -- destruct (Z.odd q) eqn:O.
           ++ lia.
           ++ assert (q <> 9007199254740991) by (intros K; rewrite K in O; discriminate O).
              lia.
        -- lia.
    + assert (2 ^ 11 <= P) by (apply Z.pow_le_mono_r; lia).
      change (2 ^ 11) with 2048 in *. change (2 ^ 53) with 9007199254740992 in *.
      change (2 ^ 52) with 4503599627370496 in *.
      change (2 ^ 63) with 9223372036854775808. split; intros; nia.
Qed.

Lemma bindsAsInteger_iff (n : Z) :
  bindsAsInteger n = true <-> - (2 ^ 63 - 512) < n < 2 ^ 63 - 512.
Proof.
  unfold bindsAsInteger. rewrite andb_true_iff, !Z.ltb_lt.
  destruct (Z.le_ge_cases 0 n) as [H|H].
  - destruct (toDouble_bound n H) as [P B].
    change (2 ^ 63) with 9223372036854775808 in *. lia.
  - destruct (toDouble_bound (- n) ltac:(lia)) as [P B].
    rewrite toDouble_opp in P, B.
    change (2 ^ 63) with 9223372036854775808 in *. lia.
Qed.
End DoubleBounds.

(** X16. GET /events/recent.  The limit is never zero and never more than
    200; it is 50 when the parameter is missing, empty, not a number or
    zero.  The cap of 200 only bounds from above, and a negative parameter
    is passed on to the query as it is.  The route has no handler for a
    failing query: it answers 200 exactly when the limit read from the
    parameter is above -(2^63 - 512), the integers whose double is above
    the least 64-bit integer, and 500 without payload otherwise, the query
    failing with a datatype mismatch; a positive limit never fails.  The
    events answered are stored events, the latest stocking date first and,
    among equal dates, the one seen last first; every event left out is not
    more recent than the ones answered.  A positive limit gives that many
    events, or all when there are fewer; a negative limit gives every
    stored event. *)
Theorem recent_events_limit :
  forall q d,
    let limit := limitOfQuery q in
    let reply := eventsRecentRoute q d in
    ((limit <= 200)%Z /\ limit <> 0%Z)
    /\ (q = None \/ q = Some "" -> limit = 50%Z)
    /\ (forall s, q = Some s -> s <> "" ->
          limit = match parseIntJs s with
                  | Some n => if (n =? 0)%Z then 50%Z else Z.min n 200
                  | None => 50%Z
                  end)
    /\ (http_status reply = 200%N \/ http_status reply = 500%N)
    /\ (http_status reply = 200%N <-> (- (2 ^ 63 - 512) < limit)%Z)
    /\ (http_status reply = 200%N <-> exists evs, reply_payload reply = Some evs)
    /\ (http_status reply = 500%N ->
        reply_ok reply = false /\ reply_payload reply = None
        /\ getRecentEvents limit d = Throw "datatype mismatch")
    /\ ((0 < limit)%Z -> http_status reply = 200%N)
    /\ (forall evs, reply_payload reply = Some evs ->
          getRecentEvents limit d = Ok evs
          /\ StronglySorted (fun a b => recentBefore a b = true) evs
          /\ (forall e, In e evs -> In e (stock_events d))
          /\ (forall a b, In a evs -> In b (stock_events d) -> ~ In b evs ->
                          recentBefore a b = true)
          /\ ((0 < limit)%Z ->
              List.length evs
              = Nat.min (Z.to_nat limit) (List.length (stock_events d))
              /\ List.length evs <= 200)
          /\ ((limit < 0)%Z -> Permutation evs (stock_events d))).
Proof.
  intros q d. cbv zeta.
  destruct (limitOfQuery_bounds q) as [L200 L0].
  pose proof (bindsAsInteger_iff (limitOfQuery q)) as BI.
  assert (T : (- (2 ^ 63 - 512) < limitOfQuery q)%Z
              <-> bindsAsInteger (limitOfQuery q) = true).
  { rewrite BI. change (2 ^ 63)%Z with 9223372036854775808%Z. lia. }
  pose proof (stableSort_sorted recentBefore recentBefore_total recentBefore_trans
                (stock_events d)) as S.
  pose proof (stableSort_perm recentBefore (stock_events d)) as P.
  split; [split; [exact L200 | exact L0]|].
  split; [intros [->| ->]; reflexivity|].
  split.
  { intros s -> Hs. unfold limitOfQuery, intOr, orText.
    destruct s as [|c s]; [now elim Hs|]. cbn [isEmpty].
    destruct (parseIntJs (String c s)) as [n|]; [|reflexivity].
    destruct (n =? 0)%Z; reflexivity. }
  unfold eventsRecentRoute, getRecentEvents.
  destruct (bindsAsInteger (limitOfQuery q)) eqn:B;
    cbn [http_status reply_ok reply_payload replyOk replyThrown].
  - split; [now left|]. split; [split; [intros _; now apply T | reflexivity]|].
    split; [split; [intros _; eexists; reflexivity | reflexivity]|].
    split; [discriminate|]. split; [reflexivity|].
    intros evs H. injection H as <-. split; [reflexivity|].
    unfold limitRows. set (sorted := stableSort recentBefore (stock_events d)) in *.
    split; [|split; [|split; [|split]]].
    + destruct (limitOfQuery q <? 0)%Z; [exact S | now apply StronglySorted_firstn].
    + intros e He. apply (Permutation_in _ P).
      destruct (limitOfQuery q <? 0)%Z; [exact He|].
      rewrite <- (firstn_skipn (Z.to_nat (limitOfQuery q)) sorted).
      apply in_or_app. now left.
    + intros a b Ha Hb Nb. apply (Permutation_in _ (Permutation_sym P)) in Hb.
      destruct (limitOfQuery q <? 0)%Z; [contradiction|].
      rewrite <- (firstn_skipn (Z.to_nat (limitOfQuery q)) sorted) in Hb, S.
      apply in_app_or in Hb as [Hb|Hb]; [contradiction|].
      exact (StronglySorted_app _ _ _ S a b Ha Hb).
    + intros Hpos. destruct (Z.ltb_spec (limitOfQuery q) 0); [lia|].
      rewrite length_firstn. unfold sorted at 1.
      rewrite stableSort_length. split; [reflexivity | lia].
    + intros Hneg. destruct (Z.ltb_spec (limitOfQuery q) 0); [exact P | lia].
  - assert (F : ~ (- (2 ^ 63 - 512) < limitOfQuery q)%Z)
      by (intros K; apply T in K; discriminate K).
    split; [now right|]. split; [split; [discriminate | intros K; now elim F]|].
    split; [split; [discriminate | intros (evs & K); discriminate K]|].
    split; [intros _; repeat split|].
    split; [|discriminate].
    intros Hpos. exfalso. apply F. change (2 ^ 63)%Z with 9223372036854775808%Z. lia.
Qed.

Lemma recent_events_limit_witness :
  let d := {| stock_events := [blueLakeEvent "t1"; greenLakeEvent "t2"];
              subscriptions := [] |} in
  (exists evs, reply_payload (eventsRecentRoute (Some "-1") d) = Some evs
               /\ Permutation evs (stock_events d))
  /\ (exists evs, reply_payload (eventsRecentRoute (Some "1") d) = Some evs
                  /\ List.length evs = 1)
  /\ http_status (eventsRecentRoute (Some "-99999999999999999999") d) = 500%N.
Proof.
  cbv zeta. split; [|split].
  - destruct (recent_events_limit (Some "-1")
                {| stock_events := [blueLakeEvent "t1"; greenLakeEvent "t2"];
                   subscriptions := [] |}) as (_ & _ & _ & _ & _ & _ & _ & _ & H).
    eexists. split; [reflexivity|].
    apply (H _ eq_refl). reflexivity.
  - destruct (recent_events_limit (Some "1")
                {| stock_events := [blueLakeEvent "t1"; greenLakeEvent "t2"];
                   subscriptions := [] |}) as (_ & _ & _ & _ & _ & _ & _ & _ & H).
    eexists. split; [reflexivity|].
    apply (H _ eq_refl). reflexivity.
  - destruct (recent_events_limit (Some "-99999999999999999999")
                {| stock_events := [blueLakeEvent "t1"; greenLakeEvent "t2"];
                   subscriptions := [] |}) as (_ & _ & _ & [H|H] & T & _).
    + apply T in H. vm_compute in H. discriminate H.
    + exact H.
Defined.

(** ** The messages of a cycle *)

Lemma mapSet_keys (k : string) (m : message) (es : list (string * message)) :
  map fst (mapSet k m es)
  = if existsb (fun p => String.eqb (fst p) k) es
    then map fst es
    else (map fst es ++ [k])%list.
Proof.
  induction es as [|[k0 v0] es IH]; simpl; [reflexivity|].
  destruct (String.eqb k0 k) eqn:E; simpl; [reflexivity|].
  rewrite IH. destruct (existsb _ es); reflexivity.
Qed.

Lemma mapSet_NoDup (k : string) (m : message) (es : list (string * message)) :
  NoDup (map fst es) -> NoDup (map fst (mapSet k m es)).
Proof.
  intros N. rewrite mapSet_keys.
  destruct (existsb _ es) eqn:E; [exact N|].
  apply NoDup_app; [exact N | constructor; [simpl; tauto | constructor] |].
  intros x Hx [<-|[]]. apply in_map_iff in Hx as (p & Hp & Ip).
  assert (K : existsb (fun p => String.eqb (fst p) k) es = true).
  { apply existsb_exists. exists p. split; [exact Ip | now apply String.eqb_eq]. }
  congruence.
Qed.

Lemma mapSet_keeps_keys (k x : string) (m : message) (es : list (string * message)) :
  In x (map fst es) -> In x (map fst (mapSet k m es)).
Proof.
  intros H. rewrite mapSet_keys. destruct (existsb _ es); [exact H|].
  apply in_or_app. now left.
Qed.

Lemma mapSet_In (k : string) (m : message) (es : list (string * message))
    (k' : string) (v : message) :
  In (k', v) (mapSet k m es) -> (k' = k /\ v = m) \/ In (k', v) es.
Proof.
  induction es as [|[k0 v0] es IH]; simpl.
  - intros [H|[]]. inversion H. now left.
  - destruct (String.eqb_spec k0 k) as [E|E]; simpl.
    + intros [H|H]; [inversion H; subst; now left | right; now right].
    + intros [H|H]; [right; now left | destruct (IH H); auto].
Qed.

Lemma mapSet_set (k : string) (m : message) (es : list (string * message)) :
  In (k, m) (mapSet k m es).
Proof.
  induction es as [|[k0 v0] es IH]; simpl; [now left|].
  destruct (String.eqb_spec k0 k) as [E|E]; simpl; [left; now subst | now right].
Qed.

Lemma mapSet_other (k : string) (m : message) (es : list (string * message))
    (k' : string) (v : message) :
  k' <> k -> In (k', v) es -> In (k', v) (mapSet k m es).
Proof.
  intros N. induction es as [|[k0 v0] es IH]; simpl; [tauto|].
  destruct (String.eqb_spec k0 k) as [E|E]; simpl.
  - intros [H|H]; [inversion H; subst; contradiction | now right].
  - intros [H|H]; [now left | right; auto].
Qed.

Lemma mapSet_fresh (k : string) (m : message) (es : list (string * message)) :
  ~ In k (map fst es) -> mapSet k m es = (es ++ [(k, m)])%list.
Proof.
  induction es as [|[k0 v0] es IH]; simpl; [reflexivity|]. intros N.
  destruct (String.eqb_spec k0 k) as [E|E]; [tauto|]. f_equal. apply IH. tauto.
Qed.

Lemma mapSet_length (k : string) (m : message) (es : list (string * message)) :
  List.length (mapSet k m es) <= S (List.length es).
Proof.
  induction es as [|[k0 v0] es IH]; simpl; [lia|].
  destruct (String.eqb k0 k); simpl; lia.
Qed.

Lemma dedupInto_cons (es : list (string * message)) (m : message)
    (msgs : list message) :
  dedupInto es (m :: msgs) = dedupInto (mapSet (messageKey m) m es) msgs.
Proof. reflexivity. Qed.

Lemma dedupInto_app (es : list (string * message)) (pre post : list message) :
  dedupInto es (pre ++ post) = dedupInto (dedupInto es pre) post.
Proof. unfold dedupInto. apply fold_left_app. Qed.

Lemma dedupInto_NoDup (es : list (string * message)) (msgs : list message) :
  NoDup (map fst es) -> NoDup (map fst (dedupInto es msgs)).
Proof.
  revert es. induction msgs as [|m msgs IH]; intros es N; [exact N|].
  rewrite dedupInto_cons. apply IH. now apply mapSet_NoDup.
Qed.

Lemma dedupInto_In (es : list (string * message)) (msgs : list message)
    (k : string) (v : message) :
  In (k, v) (dedupInto es msgs) ->
  In (k, v) es \/ (In v msgs /\ k = messageKey v).
Proof.
  revert es. induction msgs as [|m msgs IH]; intros es H; [now left|].
  rewrite dedupInto_cons in H. apply IH in H as [H|[H E]].
  - apply mapSet_In in H as [[-> ->]|H]; [right; split; [now left | reflexivity]
                                         | now left].
  - right. split; [now right | exact E].
Qed.

Lemma dedupInto_keeps_keys (es : list (string * message)) (msgs : list message)
    (x : string) :
  In x (map fst es) -> In x (map fst (dedupInto es msgs)).
Proof.
  revert es. induction msgs as [|m msgs IH]; intros es H; [exact H|].
  rewrite dedupInto_cons. apply IH. now apply mapSet_keeps_keys.
Qed.

Lemma dedupInto_covers (es : list (string * message)) (msgs : list message)
    (m : message) :
  In m msgs -> In (messageKey m) (map fst (dedupInto es msgs)).
Proof.
  revert es. induction msgs as [|m0 msgs IH]; intros es H; [contradiction|].
  rewrite dedupInto_cons. destruct H as [->|H]; [|now apply IH].
  apply dedupInto_keeps_keys.
  change (messageKey m) with (fst (messageKey m, m)). apply in_map, mapSet_set.
Qed.

Lemma dedupInto_last (es : list (string * message)) (post : list message)
    (m : message) :
  ~ In (messageKey m) (map messageKey post) ->
  In (messageKey m, m) es -> In (messageKey m, m) (dedupInto es post).
Proof.
  revert es. induction post as [|x post IH]; intros es N H; [exact H|].
  rewrite dedupInto_cons. simpl in N. apply IH; [tauto|].
  apply mapSet_other; [intros E; apply N; left; now symmetry | exact H].
Qed.

Lemma dedupInto_distinct (es : list (string * message)) (msgs : list message) :
  NoDup (map fst es ++ map messageKey msgs) ->
  dedupInto es msgs = (es ++ map (fun m => (messageKey m, m)) msgs)%list.
Proof.
  revert es. induction msgs as [|m msgs IH]; intros es N.
  - simpl. now rewrite app_nil_r.
  - rewrite dedupInto_cons. cbn [map] in *. pose proof (NoDup_remove_2 _ _ _ N) as F.
    rewrite mapSet_fresh by (intros K; apply F, in_or_app; now left).
    rewrite IH.
    + now rewrite <- app_assoc.
    + rewrite map_app, <- app_assoc. exact N.
Qed.

Lemma dedupInto_length (es : list (string * message)) (msgs : list message) :
  List.length (dedupInto es msgs) <= List.length es + List.length msgs.
Proof.
  revert es. induction msgs as [|m msgs IH]; intros es; [simpl; lia|].
  rewrite dedupInto_cons. cbn [List.length].
  specialize (IH (mapSet (messageKey m) m es)).
  pose proof (mapSet_length (messageKey m) m es). lia.
Qed.

Lemma dedupInto_keyed (es : list (string * message)) (msgs : list message) :
  keyed es -> keyed (dedupInto es msgs).
Proof.
  intros K k v H. apply dedupInto_In in H as [H|[_ H]]; [now apply K | exact H].
Qed.

Lemma keyed_keys (es : list (string * message)) :
  keyed es -> map messageKey (map snd es) = map fst es.
Proof.
  induction es as [|[k v] es IH]; intros K; simpl; [reflexivity|].
  rewrite <- (K k v) by now left. f_equal. apply IH.
  intros k' v' H. apply K. now right.
Qed.

Lemma dedupMessages_dedupInto (msgs : list message) :
  dedupMessages msgs = map snd (dedupInto [] msgs).
Proof. reflexivity. Qed.

Lemma dedupMessages_In (msgs : list message) (m : message) :
  In m (dedupMessages msgs) -> In m msgs.
Proof.
  rewrite dedupMessages_dedupInto. intros H.
  apply in_map_iff in H as ([k v] & E & H). simpl in E. subst v.
  apply dedupInto_In in H as [[]|[H _]]. exact H.
Qed.

Lemma dedupMessages_NoDup (msgs : list message) :
  NoDup (map messageKey (dedupMessages msgs)).
Proof.
  rewrite dedupMessages_dedupInto, keyed_keys.
  - apply dedupInto_NoDup. constructor.
  - apply dedupInto_keyed. intros k v [].
Qed.

Lemma dedupMessages_length (msgs : list message) :
  List.length (dedupMessages msgs) <= List.length msgs.
Proof.
  rewrite dedupMessages_dedupInto, length_map.
  apply (dedupInto_length [] msgs).
Qed.

Lemma dedupMessages_nil (msgs : list message) :
  dedupMessages msgs = [] <-> msgs = [].
Proof.
  split; [|now intros ->].
  destruct msgs as [|m msgs]; [reflexivity|]. intros H. exfalso.
  pose proof (dedupInto_covers [] (m :: msgs) m (or_introl eq_refl)) as K.
  rewrite dedupMessages_dedupInto in H. apply map_eq_nil in H.
  rewrite H in K. exact K.
Qed.

(** X17. The de-duplication of a batch keeps one message for every key
    (the token, a bar, the event identifier): the messages kept are
    messages of the batch with pairwise different keys, every key of the
    batch is kept, and the message kept for a key is the last of the batch
    with that key.  A batch whose keys are pairwise different is left as
    it is, and no message appears from an empty batch. *)
Theorem dedup_keeps_last_message_per_key :
  forall msgs,
    let out := dedupMessages msgs in
    NoDup (map messageKey out)
    /\ (forall m, In m out -> In m msgs)
    /\ (forall m, In m msgs -> In (messageKey m) (map messageKey out))
    /\ (forall pre m post,
          msgs = (pre ++ m :: post)%list ->
          ~ In (messageKey m) (map messageKey post) -> In m out)
    /\ (NoDup (map messageKey msgs) -> out = msgs)
    /\ List.length out <= List.length msgs
    /\ (out = [] <-> msgs = []).
Proof.
  intros msgs. cbv zeta.
  split; [apply dedupMessages_NoDup|].
  split; [apply dedupMessages_In|].
  split; [|split; [|split; [|split]]].
  - intros m H. rewrite dedupMessages_dedupInto, keyed_keys.
    + now apply dedupInto_covers.
    + apply dedupInto_keyed. intros k v [].
  - intros pre m post -> N. rewrite dedupMessages_dedupInto.
    apply in_map_iff. exists (messageKey m, m). split; [reflexivity|].
    rewrite dedupInto_app, dedupInto_cons.
    apply dedupInto_last; [exact N | apply mapSet_set].
  - intros N. rewrite dedupMessages_dedupInto, dedupInto_distinct by exact N.
    simpl. rewrite map_map. simpl. apply map_id.
  - apply dedupMessages_length.
  - apply dedupMessages_nil.
Qed.

Lemma dedup_keeps_last_message_per_key_witness :
  In blueLakeMessage (dedupMessages ([blueLakeMessage] ++ blueLakeMessage :: []))
  /\ dedupMessages [blueLakeMessage] = [blueLakeMessage].
Proof.
  split.
  - apply (proj1 (proj2 (proj2 (proj2
             (dedup_keeps_last_message_per_key
                ([blueLakeMessage] ++ blueLakeMessage :: [])))))
             [blueLakeMessage] blueLakeMessage [] eq_refl).
    simpl. tauto.
  - apply (proj1 (proj2 (proj2 (proj2 (proj2
             (dedup_keeps_last_message_per_key [blueLakeMessage])))))).
    constructor; [simpl; tauto | constructor].
Defined.

Lemma collectMessages_In (evs : list event) (subs : list subscription) (m : message) :
  In m (collectMessages evs subs)
  <-> exists ev sub,
        In ev evs /\ In sub subs /\ expo_push_token sub <> ""
        /\ matchesSubscription ev sub = true /\ m = messageFor ev sub.
Proof.
  unfold collectMessages. rewrite in_flat_map. split.
  - intros (ev & Hev & H). rewrite in_flat_map in H. destruct H as (sub & Hsub & H).
    destruct (isEmpty (expo_push_token sub)) eqn:E1; [contradiction|].
    destruct (matchesSubscription ev sub) eqn:E2; simpl in H; [|contradiction].
    destruct H as [<-|[]]. exists ev, sub.
    split; [exact Hev|]. split; [exact Hsub|].
    split; [now apply isEmpty_false|]. split; [exact E2 | reflexivity].
  - intros (ev & sub & Hev & Hsub & Ht & Hm & ->). exists ev. split; [exact Hev|].
    apply in_flat_map. exists sub. split; [exact Hsub|].
    apply isEmpty_false in Ht. rewrite Ht, Hm. simpl. now left.
Qed.

Lemma flat_map_length_le {A B : Type} (f : A -> list B) (n : nat) (l : list A) :
  (forall a, List.length (f a) <= n) ->
  List.length (flat_map f l) <= List.length l * n.
Proof.
  intros H. induction l as [|a l IH]; simpl; [lia|].
  rewrite length_app. specialize (H a). lia.
Qed.

Lemma collectMessages_length (evs : list event) (subs : list subscription) :
  List.length (collectMessages evs subs) <= List.length evs * List.length subs.
Proof.
  unfold collectMessages. apply flat_map_length_le. intros ev.
  rewrite <- (Nat.mul_1_r (List.length subs)). apply flat_map_length_le.
  intros sub. destruct (isEmpty _); [simpl; lia|].
  destruct (negb _); simpl; lia.
Qed.

Lemma sendExpoPushMessages_sent (post : list message -> result pushResponse)
    (msgs : list message) (r : sendResult) :
  sendExpoPushMessages post msgs = Ok r -> sent r = List.length msgs.
Proof.
  unfold sendExpoPushMessages. destruct msgs as [|m l].
  - intros H. injection H as <-. reflexivity.
  - destruct (post (m :: l)) as [res|msg]; [|discriminate].
    destruct (negb (push_ok res)); [discriminate|].
    intros H. injection H as <-. reflexivity.
Qed.

Ltac poll_early :=
  cbn [fst snd];
  split; [reflexivity|];
  split; [exists []; split; [now rewrite app_nil_r | intros a []]|];
  split; [auto|];
  split; [now left|];
  split; [discriminate | now left].

(** X18. What a poll cycle does to the store and to the outbox, whatever
    the page, the clock and the push service are.  The subscriptions are
    not touched; the event table only grows, by events whose identifier was
    not stored, and identifiers that were pairwise different stay so.  At
    most one batch is handed to the push service, never an empty one; its
    messages have pairwise different keys, and each is the message of a
    stored event and a stored subscription with a non-empty token that
    matches it.  In a summary, pushed equals matchedMessages, inserted is
    at most parsed and is the growth of the table, and matchedMessages is
    at most inserted times the number of subscriptions.  A cycle that fails
    either has changed nothing, or has failed at the push, the events being
    stored by then. *)
Theorem poll_cycle_invariants :
  forall E w,
    let w' := fst (runPollOnce E w) in
    let r := snd (runPollOnce E w) in
    subscriptions (store w') = subscriptions (store w)
    /\ (exists added,
          stock_events (store w') = (stock_events (store w) ++ added)%list
          /\ forall a, In a added -> hasId (id a) (stock_events (store w)) = false)
    /\ (NoDup (map id (stock_events (store w))) ->
        NoDup (map id (stock_events (store w'))))
    /\ (outbox w' = outbox w
        \/ exists batch,
             batch <> [] /\ outbox w' = (outbox w ++ [batch])%list
             /\ NoDup (map messageKey batch)
             /\ forall m, In m batch ->
                  exists ev sub,
                    In ev (stock_events (store w'))
                    /\ In sub (subscriptions (store w))
                    /\ expo_push_token sub <> ""
                    /\ matchesSubscription ev sub = true
                    /\ m = messageFor ev sub)
    /\ (forall s, r = Ok s ->
          inserted s <= parsed s
          /\ subscriptions_count s = List.length (subscriptions (store w))
          /\ matchedMessages s <= inserted s * subscriptions_count s
          /\ pushed s = matchedMessages s
          /\ List.length (stock_events (store w'))
             = List.length (stock_events (store w)) + inserted s
          /\ (matchedMessages s = 0 -> outbox w' = outbox w)
          /\ (0 < matchedMessages s ->
              exists batch, outbox w' = (outbox w ++ [batch])%list
                            /\ List.length batch = matchedMessages s))
    /\ (forall msg, r = Throw msg ->
          w' = w
          \/ exists batch, batch <> [] /\ outbox w' = (outbox w ++ [batch])%list).
Proof.
  intros E w. cbv zeta. unfold runPollOnce.
  destruct (POLL_URL E) as [url|]; [|poll_early].
  destruct (isEmpty url); [poll_early|].
  destruct (fetch E url) as [res|msg]; [|poll_early].
  destruct (negb (ok res)); [poll_early|].
  unfold insertNewEvents. rewrite tx_appended.
  cbn [Nat.add newOnes insertedCount listSubscriptions subscriptions stock_events].
  set (events := parseDwrFishStockingHtml (now E) (text res)).
  set (added := appended events (stock_events (store w))).
  set (rows' := (stock_events (store w) ++ added)%list).
  set (news := firstn (List.length added) (orderByFirstSeenDesc rows')).
  set (subs := subscriptions (store w)).
  set (final := dedupMessages (collectMessages news subs)).
  assert (Hadded : forall a, In a added -> hasId (id a) (stock_events (store w)) = false)
    by (intros a; apply appended_new).
  assert (HN : NoDup (map id (stock_events (store w))) -> NoDup (map id rows'))
    by apply appended_NoDup.
  assert (Hlen : List.length added <= List.length events) by apply appended_length.
  assert (Hrows : List.length rows'
                  = List.length (stock_events (store w)) + List.length added)
    by apply length_app.
  assert (Hfl : List.length final <= List.length added * List.length subs).
  { unfold final. etransitivity; [apply dedupMessages_length|].
    etransitivity; [apply collectMessages_length|].
    apply Nat.mul_le_mono_r. unfold news. apply firstn_le_length. }
  assert (Hfk : NoDup (map messageKey final)) by apply dedupMessages_NoDup.
  assert (Hfi : forall m, In m final ->
            exists ev sub,
              In ev rows' /\ In sub subs /\ expo_push_token sub <> ""
              /\ matchesSubscription ev sub = true /\ m = messageFor ev sub).
  { intros m Hm. apply dedupMessages_In, collectMessages_In in Hm.
    destruct Hm as (ev & sub & Hev & H). exists ev, sub. split; [|exact H].
    apply orderByFirstSeenDesc_In.
    rewrite <- (firstn_skipn (List.length added) (orderByFirstSeenDesc rows')).
    apply in_or_app. now left. }
  clearbody final.
  destruct final as [|m0 l].
  - cbn [fst snd store outbox stock_events subscriptions].
    split; [reflexivity|].
    split; [exists added; split; [reflexivity | exact Hadded]|].
    split; [exact HN|]. split; [now left|]. split; [|discriminate].
    intros s Hs. injection Hs as <-.
    cbn [parsed inserted subscriptions_count matchedMessages pushed List.length].
    repeat split; try reflexivity; try lia.
  - assert (B : (m0 :: l) <> []) by discriminate.
    destruct (sendExpoPushMessages (post E) (m0 :: l)) as [r|msg] eqn:S;
      cbn [fst snd store outbox stock_events subscriptions];
      (split; [reflexivity|]);
      (split; [exists added; split; [reflexivity | exact Hadded]|]);
      (split; [exact HN|]);
      (split; [right; exists (m0 :: l); repeat split; assumption|]).
    + split; [|discriminate]. intros s Hs. injection Hs as <-.
      cbn [parsed inserted subscriptions_count matchedMessages pushed].
      apply sendExpoPushMessages_sent in S.
      split; [exact Hlen|]. split; [reflexivity|]. split; [exact Hfl|].
      split; [exact S|]. split; [exact Hrows|].
      split; [discriminate|]. intros _. now exists (m0 :: l).
    + split; [discriminate|]. intros msg' _. right. now exists (m0 :: l).
Qed.

Lemma poll_cycle_invariants_witness :
  NoDup (map id (stock_events (store scenarioWorld)))
  /\ NoDup (map id (stock_events (store (fst (runPollOnce scenarioEnv scenarioWorld))))).
Proof.
  assert (N : NoDup (map id (stock_events (store scenarioWorld)))) by constructor.
  split; [exact N|].
  exact (proj1 (proj2 (proj2 (poll_cycle_invariants scenarioEnv scenarioWorld))) N).
Defined.

Lemma appended_covers (evs rows : list event) (e : event) :
  In e evs -> hasId (id e) (rows ++ appended evs rows) = true.
Proof.
  revert rows. induction evs as [|x rest IH]; intros rows H; [contradiction|].
  simpl. destruct (hasId (id x) rows) eqn:E.
  - destruct H as [->|H]; [|now apply IH].
    unfold hasId in *. rewrite existsb_app, E. reflexivity.
  - replace (rows ++ x :: appended rest (rows ++ [x]))%list
      with ((rows ++ [x]) ++ appended rest (rows ++ [x]))%list
      by (now rewrite <- app_assoc).
    destruct H as [->|H]; [|now apply IH].
    unfold hasId. rewrite existsb_app.
    fold (hasId (id e) (rows ++ [e])). rewrite hasId_app, String.eqb_refl.
    now rewrite orb_true_r.
Qed.

Lemma appended_nil (evs rows : list event) :
  (forall e, In e evs -> hasId (id e) rows = true) -> appended evs rows = [].
Proof.
  induction evs as [|x rest IH]; intros H; [reflexivity|]. simpl.
  rewrite (H x) by now left. apply IH. intros e He. apply H. now right.
Qed.

Lemma parse_ids_clock (now1 now2 : nat -> string) (html : string) :
  map id (parseDwrFishStockingHtml now1 html)
  = map id (parseDwrFishStockingHtml now2 html).
Proof.
  rewrite <- (map_id_eraseClock (parseDwrFishStockingHtml now1 html)).
  rewrite <- (map_id_eraseClock (parseDwrFishStockingHtml now2 html)).
  f_equal. unfold parseDwrFishStockingHtml, dedupById. cbv zeta.
  rewrite !dedupFrom_eraseClock. f_equal. apply parseRows_clock.
Qed.

Lemma poll_store (E : env) (w : world) (url : string) (res : response) :
  POLL_URL E = Some url -> url <> "" -> fetch E url = Ok res -> ok res = true ->
  store (fst (runPollOnce E w))
  = fst (insertNewEvents (parseDwrFishStockingHtml (now E) (text res)) (store w)).
Proof.
  intros Hurl Hne Hfetch Hok. unfold runPollOnce.
  apply isEmpty_false in Hne. rewrite Hurl, Hne, Hfetch, Hok. cbn [negb].
  destruct (insertNewEvents _ (store w)) as [d out]. cbn [fst].
  destruct (dedupMessages _); [reflexivity|].
  destruct (sendExpoPushMessages _ _); reflexivity.
Qed.

(** X19. A second cycle over the same page is silent.  After a cycle that
    read a page, a cycle that reads the same page again, at whatever
    instant, inserts nothing, matches nothing and hands nothing to the push
    service: it leaves the store and the outbox as they are and answers a
    summary with inserted, matchedMessages and pushed all zero.  This holds
    whether the push of the first cycle succeeded or failed: the messages
    of a failed push are not made again. *)
Theorem repoll_of_same_page_is_silent :
  forall E E' w url res res',
    POLL_URL E = Some url -> url <> "" ->
    fetch E url = Ok res -> ok res = true ->
    POLL_URL E' = Some url ->
    fetch E' url = Ok res' -> ok res' = true -> text res' = text res ->
    let w1 := fst (runPollOnce E w) in
    exists s,
      runPollOnce E' w1 = (w1, Ok s)
      /\ parsed s = List.length (parseDwrFishStockingHtml (now E) (text res))
      /\ inserted s = 0 /\ matchedMessages s = 0 /\ pushed s = 0
      /\ expoResponse s = None.
Proof.
  intros E E' w url res res' Hurl Hne Hfetch Hok Hurl' Hfetch' Hok' Htext. cbv zeta.
  pose proof (poll_store E w url res Hurl Hne Hfetch Hok) as St.
  unfold insertNewEvents in St. rewrite tx_appended in St. cbn [fst] in St.
  set (w1 := fst (runPollOnce E w)) in *.
  set (events := parseDwrFishStockingHtml (now E) (text res)) in *.
  set (events' := parseDwrFishStockingHtml (now E') (text res)).
  assert (A : appended events' (stock_events (store w1)) = []).
  { apply appended_nil. intros e' He'. rewrite St. cbn [stock_events].
    assert (Hi : In (id e') (map id events)).
    { unfold events. rewrite (parse_ids_clock (now E) (now E')). now apply in_map. }
    apply in_map_iff in Hi as (e & <- & He). now apply appended_covers. }
  unfold runPollOnce. apply isEmpty_false in Hne.
  rewrite Hurl', Hne, Hfetch', Hok', Htext. cbn [negb]. fold events'.
  unfold insertNewEvents. rewrite tx_appended, A, app_nil_r.
  cbn [Nat.add List.length firstn newOnes insertedCount collectMessages flat_map
       dedupMessages fold_left map].
  eexists. split.
  - f_equal. destruct w1 as [[rows subs] box]. reflexivity.
  - cbn [parsed inserted matchedMessages pushed expoResponse List.length].
    repeat split. unfold events, events'.
    rewrite <- !(length_map id). f_equal. apply parse_ids_clock.
Qed.

Lemma repoll_of_same_page_is_silent_witness :
  exists s,
    runPollOnce scenarioEnv (fst (runPollOnce scenarioEnv scenarioWorld))
    = (fst (runPollOnce scenarioEnv scenarioWorld), Ok s)
    /\ parsed s = List.length (parseDwrFishStockingHtml (now scenarioEnv) blueLakeRow)
    /\ inserted s = 0 /\ matchedMessages s = 0 /\ pushed s = 0
    /\ expoResponse s = None.
Proof.
  apply (repoll_of_same_page_is_silent scenarioEnv scenarioEnv scenarioWorld
           "https://dwr.example/stocking"
           {| ok := true; status := 200; text := blueLakeRow |}
           {| ok := true; status := 200; text := blueLakeRow |});
    try reflexivity.
  discriminate.
Defined.

(** ** The protected route *)

Lemma orText_some (q : option string) (k : string) :
  k <> "" -> (orText q "" = k <-> q = Some k).
Proof.
  intros Hk. unfold orText. destruct q as [s|].
  - destruct s as [|c s]; simpl.
    + split; [intros H; now elim Hk | intros H; injection H as <-; now elim Hk].
    + split; [now intros <- | intros H; now injection H].
  - split; [intros H; now elim Hk | discriminate].
Qed.

(** X20. POST /run-poller runs a cycle only for the request whose key is
    the CRON_KEY of the environment, and this key must be set and not
    empty: with CRON_KEY unset or empty every request is refused, also the
    one without a key.  A refused request is answered 401 and changes
    nothing; an accepted one does to the store and the outbox what the
    cycle does, and is answered 200 with the summary of the cycle, or 500
    with the message of its failure. *)
Theorem run_poller_requires_the_key :
  forall cronKey key E w,
    let w' := fst (runPollerRoute cronKey key E w) in
    let reply := snd (runPollerRoute cronKey key E w) in
    (http_status reply <> 401%N
     <-> exists k, k <> "" /\ cronKey = Some k /\ key = Some k)
    /\ (http_status reply = 401%N ->
        w' = w /\ reply_ok reply = false /\ reply_payload reply = None)
    /\ (cronKey = None \/ cronKey = Some "" -> http_status reply = 401%N)
    /\ (http_status reply <> 401%N ->
        w' = fst (runPollOnce E w)
        /\ (forall s, snd (runPollOnce E w) = Ok s ->
              http_status reply = 200%N /\ reply_payload reply = Some s)
        /\ (forall msg, snd (runPollOnce E w) = Throw msg ->
              http_status reply = 500%N /\ reply_error reply = Some msg
              /\ reply_payload reply = None)).
Proof.
  intros cronKey key E w. cbv zeta. unfold runPollerRoute. cbv zeta.
  destruct (isEmpty (orText cronKey "")) eqn:Ee; cbn [orb].
  - cbn [fst snd http_status reply_ok reply_payload replyError].
    assert (Hc : orText cronKey "" = "")
      by (destruct (orText cronKey ""); [reflexivity | discriminate Ee]).
    split; [split; [intros H; now elim H|]
           | split; [intros _; repeat split
                    | split; [intros _; reflexivity | intros H; now elim H]]].
    intros (k & Hk & -> & _). simpl in Hc.
    destruct k; [now elim Hk | discriminate Hc].
  - apply isEmpty_false in Ee.
    destruct (String.eqb_spec (orText key "") (orText cronKey "")) as [Ek|Ek];
      cbn [negb].
    + assert (Hk : exists k, k <> "" /\ cronKey = Some k /\ key = Some k).
      { exists (orText cronKey ""). split; [exact Ee|].
        split; apply (orText_some _ _ Ee); [reflexivity | exact Ek]. }
      destruct (runPollOnce E w) as [w1 [s|msg]];
        cbn [fst snd http_status reply_ok reply_payload reply_error replyOk replyError].
      * split; [split; [intros _; exact Hk | discriminate]|].
        split; [discriminate|]. split.
        { intros [->| ->]; now elim Ee. }
        intros _. split; [reflexivity|]. split; [|discriminate].
        intros s' H. injection H as <-. split; reflexivity.
      * split; [split; [intros _; exact Hk | discriminate]|].
        split; [discriminate|]. split.
        { intros [->| ->]; now elim Ee. }
        intros _. split; [reflexivity|]. split; [discriminate|].
        intros msg' H. injection H as <-. repeat split.
    + cbn [fst snd http_status reply_ok reply_payload replyError].
      split; [split; [intros H; now elim H|]
             | split; [intros _; repeat split
                      | split; [intros _; reflexivity | intros H; now elim H]]].
      intros (k & Hk & -> & ->). now elim Ek.
Qed.

Lemma run_poller_requires_the_key_witness :
  http_status (snd (runPollerRoute None None scenarioEnv scenarioWorld)) = 401%N
  /\ fst (runPollerRoute (Some "secret") (Some "guess") scenarioEnv scenarioWorld)
     = scenarioWorld.
Proof.
  split.
  - apply (proj1 (proj2 (proj2
             (run_poller_requires_the_key None None scenarioEnv scenarioWorld)))).
    now left.
  - apply (proj1 (proj2
             (run_poller_requires_the_key (Some "secret") (Some "guess")
                scenarioEnv scenarioWorld))).
    reflexivity.
Defined.

(** ** The poller script *)

Ltac script_early :=
  cbn [fst snd];
  split; [reflexivity|];
  split; [discriminate|];
  split; [discriminate|];
  split; discriminate.

(** X21. The script that polls once never touches the subscriptions, and
    hands a batch to the push service only when no message of the batch
    goes to a token that contains TESTTOKEN: one such token among the
    matching subscriptions holds back the whole batch, the messages to the
    other tokens included.  Without subscriptions, without matches and in
    test mode nothing is handed over; a batch handed over is not empty. *)
Theorem poller_script_test_mode :
  forall E w,
    let w' := fst (pollerMain E w) in
    let r := snd (pollerMain E w) in
    subscriptions (store w') = subscriptions (store w)
    /\ (forall msgs, r = Ok (TestMode msgs) ->
          outbox w' = outbox w
          /\ exists m, In m msgs /\ containsText "TESTTOKEN" (to m) = true)
    /\ (r = Ok NoSubscriptions ->
          subscriptions (store w) = [] /\ outbox w' = outbox w)
    /\ (r = Ok NoMatches -> outbox w' = outbox w)
    /\ (forall n, r = Ok (Pushed n) ->
          exists batch,
            outbox w' = (outbox w ++ [batch])%list
            /\ List.length batch = n /\ 0 < n
            /\ forall m, In m batch -> containsText "TESTTOKEN" (to m) = false).
Proof.
  intros E w. cbv zeta. unfold pollerMain.
  destruct (POLL_URL E) as [url|]; [|script_early].
  destruct (isEmpty url); [script_early|].
  destruct (fetch E url) as [res|msg]; [|script_early].
  destruct (negb (ok res)); [script_early|].
  unfold insertNewEvents. rewrite tx_appended.
  cbn [Nat.add newOnes insertedCount listSubscriptions subscriptions stock_events].
  set (events := parseDwrFishStockingHtml (now E) (text res)).
  set (added := appended events (stock_events (store w))).
  set (rows' := (stock_events (store w) ++ added)%list).
  destruct (subscriptions (store w)) as [|sub0 subs] eqn:Hs.
  - cbn [fst snd store outbox subscriptions].
    split; [reflexivity|]. split; [discriminate|]. split; [auto|].
    split; [discriminate | discriminate].
  - set (checked := if (0 <? List.length added)%nat
                    then firstn (List.length added) (orderByFirstSeenDesc rows')
                    else firstn 10 events).
    set (final := dedupMessages (collectMessages checked (sub0 :: subs))).
    clearbody final. destruct final as [|m0 l].
    + cbn [fst snd store outbox subscriptions].
      split; [reflexivity|]. split; [discriminate|]. split; [discriminate|].
      split; [auto | discriminate].
    + destruct (existsb (fun m => containsText "TESTTOKEN" (to m)) (m0 :: l)) eqn:T.
      * cbn [fst snd store outbox subscriptions].
        split; [reflexivity|]. split.
        { intros msgs H. injection H as <-. split; [reflexivity|].
          apply existsb_exists in T. exact T. }
        split; [discriminate|]. split; discriminate.
      * destruct (sendExpoPushMessages (post E) (m0 :: l)) as [r|msg] eqn:S;
          cbn [fst snd store outbox subscriptions];
          (split; [reflexivity|]); (split; [discriminate|]);
          (split; [discriminate|]); (split; [discriminate|]); [|discriminate].
        intros n H. injection H as <-. exists (m0 :: l).
        apply sendExpoPushMessages_sent in S.
        split; [reflexivity|]. split; [now rewrite S|].
        split; [rewrite S; simpl; lia|].
        intros m Hm.
        destruct (containsText "TESTTOKEN" (to m)) eqn:C; [|reflexivity].
        assert (K : existsb (fun m => containsText "TESTTOKEN" (to m)) (m0 :: l) = true)
          by (apply existsb_exists; now exists m).
        congruence.
Qed.

Lemma poller_test_run :
  pollerMain scenarioEnv testTokenWorld
  = ({| store := {| stock_events := [blueLakeEvent "2026-03-04T12:00:00.000Z"];
                    subscriptions := subscriptions (store testTokenWorld) |};
        outbox := [] |},
     Ok (TestMode [blueLakeMessage; testTokenMessage])).
Proof. vm_compute. reflexivity. Qed.

Lemma poller_script_test_mode_witness :
  (outbox (fst (pollerMain scenarioEnv testTokenWorld)) = outbox testTokenWorld
   /\ exists m, In m [blueLakeMessage; testTokenMessage]
                /\ containsText "TESTTOKEN" (to m) = true)
  /\ In blueLakeMessage [blueLakeMessage; testTokenMessage]
  /\ containsText "TESTTOKEN" (to blueLakeMessage) = false
  /\ (subscriptions (store emptyDbWorld) = []
      /\ outbox (fst (pollerMain scenarioEnv emptyDbWorld)) = outbox emptyDbWorld).
Proof.
  assert (R : snd (pollerMain scenarioEnv testTokenWorld)
              = Ok (TestMode [blueLakeMessage; testTokenMessage]))
    by (rewrite poller_test_run; reflexivity).
  split; [|split; [now left | split; [reflexivity|]]].
  - exact (proj1 (proj2 (poller_script_test_mode scenarioEnv testTokenWorld))
             [blueLakeMessage; testTokenMessage] R).
  - apply (proj1 (proj2 (proj2
             (poller_script_test_mode scenarioEnv emptyDbWorld)))).
    unfold pollerMain. cbn [POLL_URL scenarioEnv isEmpty fetch ok negb text].
    rewrite parse_blueLakeRow. reflexivity.
Defined.

(** X22. Run again over a page whose events are all stored, the script
    does notify again: with nothing inserted it matches the first ten
    events of the page against the subscriptions and, unless a token
    contains TESTTOKEN, hands the resulting batch to the push service,
    leaving the store as it is.  The cycle of the server, in the same
    situation, hands over nothing. *)
Theorem poller_script_rerun_notifies_again :
  forall E w url res,
    POLL_URL E = Some url -> url <> "" ->
    fetch E url = Ok res -> ok res = true ->
    (forall e, In e (parseDwrFishStockingHtml (now E) (text res)) ->
               hasId (id e) (stock_events (store w)) = true) ->
    subscriptions (store w) <> [] ->
    dedupMessages
      (collectMessages (firstn 10 (parseDwrFishStockingHtml (now E) (text res)))
         (subscriptions (store w))) <> [] ->
    existsb (fun m => containsText "TESTTOKEN" (to m))
      (dedupMessages
         (collectMessages (firstn 10 (parseDwrFishStockingHtml (now E) (text res)))
            (subscriptions (store w)))) = false ->
    store (fst (pollerMain E w)) = store w
    /\ outbox (fst (pollerMain E w))
       = (outbox w
          ++ [dedupMessages
                (collectMessages
                   (firstn 10 (parseDwrFishStockingHtml (now E) (text res)))
                   (subscriptions (store w)))])%list
    /\ (forall m,
          In m (dedupMessages
                  (collectMessages
                     (firstn 10 (parseDwrFishStockingHtml (now E) (text res)))
                     (subscriptions (store w)))) ->
          exists ev sub,
            In ev (firstn 10 (parseDwrFishStockingHtml (now E) (text res)))
            /\ In sub (subscriptions (store w))
            /\ expo_push_token sub <> ""
            /\ matchesSubscription ev sub = true
            /\ m = messageFor ev sub)
    /\ fst (runPollOnce E w) = w.
Proof.
  intros E w url res Hurl Hne Hfetch Hok Hknown Hsubs Hfinal Htest.
  pose proof (appended_nil _ _ Hknown) as A.
  apply isEmpty_false in Hne.
  split; [|split; [|split]].
  - unfold pollerMain. rewrite Hurl, Hne, Hfetch, Hok. cbn [negb].
    unfold insertNewEvents. rewrite tx_appended, A, app_nil_r.
    cbn [Nat.add List.length newOnes insertedCount listSubscriptions subscriptions
         stock_events Nat.ltb Nat.leb].
    destruct (subscriptions (store w)) as [|sub0 subs] eqn:Hs; [now elim Hsubs|].
    destruct (dedupMessages _) as [|m0 l]; [now elim Hfinal|].
    rewrite Htest.
    destruct (sendExpoPushMessages _ _); cbn [fst store];
      destruct w as [[rows ss] box]; cbn in Hs |- *; now rewrite Hs.
  - unfold pollerMain. rewrite Hurl, Hne, Hfetch, Hok. cbn [negb].
    unfold insertNewEvents. rewrite tx_appended, A, app_nil_r.
    cbn [Nat.add List.length newOnes insertedCount listSubscriptions subscriptions
         stock_events Nat.ltb Nat.leb].
    destruct (subscriptions (store w)) as [|sub0 subs] eqn:Hs; [now elim Hsubs|].
    destruct (dedupMessages _) as [|m0 l] eqn:F; [now elim Hfinal|].
    rewrite Htest.
    destruct (sendExpoPushMessages _ _); reflexivity.
  - intros m Hm. now apply dedupMessages_In, collectMessages_In in Hm.
  - unfold runPollOnce. rewrite Hurl, Hne, Hfetch, Hok. cbn [negb].
    unfold insertNewEvents. rewrite tx_appended, A, app_nil_r.
    cbn [Nat.add List.length firstn newOnes insertedCount collectMessages flat_map
         dedupMessages fold_left map fst].
    destruct w as [[rows ss] box]. reflexivity.
Qed.

Lemma poller_script_rerun_notifies_again_witness :
  outbox (fst (pollerMain scenarioEnv (storedWorld "2026-03-01T00:00:00.000Z")))
  = [dedupMessages
       (collectMessages
          (firstn 10 (parseDwrFishStockingHtml (now scenarioEnv) blueLakeRow))
          [tok1])]
  /\ fst (runPollOnce scenarioEnv (storedWorld "2026-03-01T00:00:00.000Z"))
     = storedWorld "2026-03-01T00:00:00.000Z".
Proof.
  assert (P : parseDwrFishStockingHtml (now scenarioEnv) blueLakeRow
              = [blueLakeEvent "2026-03-04T12:00:00.000Z"])
    by apply parse_blueLakeRow.
  assert (K : forall e,
            In e (parseDwrFishStockingHtml (now scenarioEnv) blueLakeRow) ->
            hasId (id e) [blueLakeEvent "2026-03-01T00:00:00.000Z"] = true).
  { rewrite P. intros e [<-|[]]. reflexivity. }
  assert (F : dedupMessages
                (collectMessages
                   (firstn 10 (parseDwrFishStockingHtml (now scenarioEnv) blueLakeRow))
                   [tok1]) = [blueLakeMessage]).
  { rewrite P. cbn [firstn]. apply scenario_messages. }
  assert (N : dedupMessages
                (collectMessages
                   (firstn 10 (parseDwrFishStockingHtml (now scenarioEnv) blueLakeRow))
                   [tok1]) <> []).
  { rewrite F. discriminate. }
  assert (T : existsb (fun m => containsText "TESTTOKEN" (to m))
                (dedupMessages
                   (collectMessages
                      (firstn 10
                         (parseDwrFishStockingHtml (now scenarioEnv) blueLakeRow))
                      [tok1])) = false).
  { rewrite F. reflexivity. }
  assert (S : [tok1] <> []) by discriminate.
  assert (U : "https://dwr.example/stocking" <> "") by discriminate.
  destruct (poller_script_rerun_notifies_again scenarioEnv
              (storedWorld "2026-03-01T00:00:00.000Z")
              "https://dwr.example/stocking"
              {| ok := true; status := 200; text := blueLakeRow |}
              eq_refl U eq_refl eq_refl K S N T)
    as (_ & H2 & _ & H4).
  split; [exact H2 | exact H4].
Defined.

(** ** The search route *)







Lemma StronglySorted_weaken {A : Type} (R S : A -> A -> Prop) (l : list A) :
  (forall a b, R a b -> S a b) -> StronglySorted R l -> StronglySorted S l.
Proof.
  intros H. induction 1 as [|x l Hl IH F]; constructor; [exact IH|].
  rewrite Forall_forall in *. auto.
Qed.

Lemma StronglySorted_skipn {A : Type} (R : A -> A -> Prop) (k : nat) (l : list A) :
  StronglySorted R l -> StronglySorted R (skipn k l).
Proof.
  revert k. induction l as [|x l IH]; intros k S.
  - rewrite skipn_nil. constructor.
  - destruct k as [|k]; [exact S|]. simpl.
    apply StronglySorted_inv in S as [S _]. now apply IH.
Qed.

Lemma compare_gt_antisym (a b : string) :
  String.compare a b = Gt -> String.compare b a <> Gt.
Proof. intros H. rewrite String.compare_antisym, H. discriminate. Qed.

Lemma compare_not_gt_trans (a b c : string) :
  String.compare a b <> Gt -> String.compare b c <> Gt -> String.compare a c <> Gt.
Proof.
  intros H1 H2.
  assert (L1 : String.leb a b = true)
    by (unfold String.leb; destruct (String.compare a b); congruence).
  assert (L2 : String.leb b c = true)
    by (unfold String.leb; destruct (String.compare b c); congruence).
  pose proof (leb_trans _ _ _ L1 L2) as L. unfold String.leb in L.
  destruct (String.compare a c); congruence.
Qed.

(** X24. GET /events under a collation that is a consistent comparison
    (never greater both ways, and not-greater is transitive): the events of
    a page are in descending order of their stocking date, and the first
    page of a positive limit holds the latest matching events, every
    matching event left out of it being not later than any event on it. *)
Theorem events_page_is_sorted :
  forall localeCompare qCounty qSpecies qWater qLimit qOffset events,
    (forall a b, localeCompare a b = Gt -> localeCompare b a <> Gt) ->
    (forall a b c, localeCompare a b <> Gt -> localeCompare b c <> Gt ->
                   localeCompare a c <> Gt) ->
    let p := eventsRoute localeCompare qCounty qSpecies qWater qLimit qOffset events in
    StronglySorted
      (fun a b => localeCompare (date_stocked b) (date_stocked a) <> Gt)
      (page_events p)
    /\ (page_offset p = 0%Z -> (0 < page_limit p)%Z ->
        forall a b,
          In a (page_events p) -> In b events ->
          eventFilter (upperParam qCounty) (upperParam qSpecies)
            (upperParam qWater) b = true ->
          ~ In b (page_events p) ->
          localeCompare (date_stocked b) (date_stocked a) <> Gt).
Proof.
  intros lc qc qs qw ql qo events H1 H2. cbv zeta. unfold eventsRoute. cbv zeta.
  cbn [total page_limit page_offset page_events].
  set (f := eventFilter (upperParam qc) (upperParam qs) (upperParam qw)).
  set (filtered := filter f events).
  assert (T : forall a b, dateBefore lc a b = false -> dateBefore lc b a = true).
  { intros a b. unfold dateBefore.
    destruct (lc (date_stocked b) (date_stocked a)) eqn:E; try discriminate.
    intros _. apply H1 in E. destruct (lc (date_stocked a) (date_stocked b));
      [reflexivity | reflexivity | now elim E]. }
  assert (B : forall a b, dateBefore lc a b = true
                          <-> lc (date_stocked b) (date_stocked a) <> Gt).
  { intros a b. unfold dateBefore.
    destruct (lc (date_stocked b) (date_stocked a)); split; congruence. }
  assert (R : forall a b c, dateBefore lc a b = true -> dateBefore lc b c = true ->
                            dateBefore lc a c = true).
  { intros a b c. rewrite !B. intros Hab Hbc. exact (H2 _ _ _ Hbc Hab). }
  pose proof (stableSort_sorted (dateBefore lc) T R filtered) as S.
  apply (StronglySorted_weaken _
           (fun a b => lc (date_stocked b) (date_stocked a) <> Gt)) in S;
    [|intros a b; apply B].
  set (sorted := stableSort (dateBefore lc) filtered) in *.
  split.
  - unfold sliceZ. cbv zeta. apply StronglySorted_firstn, StronglySorted_skipn, S.
  - intros H0 Hpos a b Ha Hb Hf Nb. rewrite H0 in *.
    unfold sliceZ in Ha, Nb. cbv zeta in Ha, Nb.
    destruct (Z.ltb_spec 0 0); [lia|].
    replace (Z.to_nat (Z.min 0 (Z.of_nat (List.length sorted)))) with 0 in Ha, Nb
      by lia.
    cbn [skipn] in Ha, Nb.
    set (n := Z.to_nat _) in Ha, Nb.
    assert (Hs : In b sorted).
    { apply stableSort_In. apply filter_In. split; [exact Hb | exact Hf]. }
    rewrite <- (firstn_skipn n sorted) in Hs, S.
    apply in_app_or in Hs as [Hs|Hs]; [contradiction|].
    exact (StronglySorted_app _ _ _ S a b Ha Hs).
Qed.

Lemma events_page_is_sorted_witness :
  StronglySorted
    (fun a b => String.compare (date_stocked b) (date_stocked a) <> Gt)
    (page_events
       (eventsRoute String.compare None None None None None
          [blueLakeEvent "t1"; greenLakeEvent "t2"])).
Proof.
  exact (proj1 (events_page_is_sorted String.compare None None None None None
                  [blueLakeEvent "t1"; greenLakeEvent "t2"]
                  compare_gt_antisym compare_not_gt_trans)).
Defined.

Lemma prefix_app (p s : string) :
  prefix p s = true <-> exists post, s = p ++ post.
Proof.
  revert s. induction p as [|a p IH]; intros s; simpl.
  - split; [intros _; now exists s | intros _; destruct s; reflexivity].
  - destruct s as [|b s]; simpl;
      [split; [discriminate | intros (post & H); discriminate H]|].
    destruct (ascii_dec a b) as [->|N].
    + rewrite IH. split; intros (post & H); exists post; [now rewrite H|].
      now injection H.
    + split; [discriminate|]. intros (post & H). injection H as H _. now elim N.
Qed.

Lemma indexOf_unfold (pat s : string) :
  indexOf pat s
  = if prefix pat s then Some 0
    else match s with
         | "" => None
         | String _ r => option_map S (indexOf pat r)
         end.
Proof. destruct s; reflexivity. Qed.

Lemma containsText_substring (needle hay : string) :
  containsText needle hay = true <-> exists pre post, hay = pre ++ needle ++ post.
Proof.
  unfold containsText. induction hay as [|c hay IH].
  - rewrite indexOf_unfold. destruct (prefix needle "") eqn:P.
    + split; [intros _|reflexivity]. apply prefix_app in P as (post & H).
      now exists "", post.
    + split; [discriminate|]. intros (pre & post & H).
      destruct pre; [|discriminate H]. simpl in H.
      assert (K : prefix needle "" = true) by (apply prefix_app; now exists post).
      congruence.
  - rewrite indexOf_unfold. destruct (prefix needle (String c hay)) eqn:P.
    + split; [intros _|reflexivity]. apply prefix_app in P as (post & H).
      now exists "", post.
    + destruct (indexOf needle hay) as [k|]; simpl.
      * split; [intros _|reflexivity].
        destruct (proj1 IH eq_refl) as (pre & post & H).
        exists (String c pre), post. simpl. now rewrite H.
      * split; [discriminate|]. intros (pre & post & H).
        destruct pre as [|x pre].
        { simpl in H.
          assert (K : prefix needle (String c hay) = true)
            by (apply prefix_app; now exists post).
          congruence. }
        simpl in H. injection H as _ H.
        assert (K : false = true) by (apply IH; now exists pre, post).
        discriminate K.
Qed.

Lemma upperParam_some (q : string) : upperParam (Some q) = trim (toUpperCase q).
Proof.
  unfold upperParam, orText. rewrite toUpperCase_trim.
  destruct q; reflexivity.
Qed.

(** X25. The filter of the search and the matcher of the push agree on
    county and species: for a parameter that is not blank, an event passes
    the county (the species) filter of GET /events exactly when it matches
    a subscription whose only filter is that county (that species), the
    trimming and upper-casing being done in the other order there.  On the
    water they differ: the search takes the parameter as a part of the
    water name, the matcher as the whole name, so every event the matcher
    takes passes the search, but not the other way round. *)
Theorem search_filter_and_matcher :
  forall e sub q,
    upperParam (Some q) <> "" ->
    (counties sub = [q] -> sub_species sub = [] -> waters sub = [] ->
     eventFilter (upperParam (Some q)) "" "" e = matchesSubscription e sub)
    /\ (counties sub = [] -> sub_species sub = [q] -> waters sub = [] ->
        eventFilter "" (upperParam (Some q)) "" e = matchesSubscription e sub)
    /\ (counties sub = [] -> sub_species sub = [] -> waters sub = [q] ->
        matchesSubscription e sub = true ->
        eventFilter "" "" (upperParam (Some q)) e = true)
    /\ (eventFilter "" "" (upperParam (Some q)) e = true
        <-> exists pre post,
              toUpperCase (trim (water_name e)) = pre ++ upperParam (Some q) ++ post)
    /\ (exists e' sub',
          counties sub' = [] /\ sub_species sub' = [] /\ waters sub' = ["BLUE"]
          /\ eventFilter "" "" (upperParam (Some "BLUE")) e' = true
          /\ matchesSubscription e' sub' = false).
Proof.
  intros e sub q Hq.
  assert (Hne : isEmpty (upperParam (Some q)) = false) by now apply isEmpty_false.
  split; [|split; [|split; [|split]]].
  - intros Hc Hs Hw. unfold eventFilter, matchesSubscription. cbv zeta.
    rewrite Hc, Hs, Hw, Hne. cbn [map List.length Nat.eqb isEmpty orb andb].
    unfold includes. cbn [existsb].
    rewrite upperParam_some, toUpperCase_trim, orb_false_r, !andb_true_r.
    reflexivity.
  - intros Hc Hs Hw. unfold eventFilter, matchesSubscription. cbv zeta.
    rewrite Hc, Hs, Hw, Hne. cbn [map List.length Nat.eqb isEmpty orb andb].
    unfold includes. cbn [existsb].
    rewrite upperParam_some, toUpperCase_trim, orb_false_r, !andb_true_r.
    reflexivity.
  - intros Hc Hs Hw. unfold eventFilter, matchesSubscription. cbv zeta.
    rewrite Hc, Hs, Hw, Hne. cbn [map List.length Nat.eqb isEmpty orb andb].
    unfold includes. cbn [existsb]. rewrite orb_false_r.
    intros H. apply String.eqb_eq in H.
    apply containsText_substring. exists "", "". rewrite append_nil_r. cbn [append].
    now rewrite upperParam_some, toUpperCase_trim.
  - unfold eventFilter. cbv zeta. rewrite Hne.
    cbn [isEmpty orb andb]. apply containsText_substring.
  - exists (blueLakeEvent ""), {| sub_id := 1; expo_push_token := "T"; counties := [];
                                  sub_species := []; waters := ["BLUE"] |}.
    repeat split.
Qed.

Lemma search_filter_and_matcher_witness :
  eventFilter (upperParam (Some " wasatch ")) "" "" (blueLakeEvent "t")
  = matchesSubscription (blueLakeEvent "t") (singleCounty "TOK1" " wasatch ").
Proof.
  apply (proj1 (search_filter_and_matcher (blueLakeEvent "t")
                  (singleCounty "TOK1" " wasatch ") " wasatch "
                  ltac:(discriminate))); reflexivity.
Defined.

(** ** The lists of the dropdowns *)

Lemma uniqueFrom_In (seen a : list string) (x : string) :
  In x (uniqueFrom seen a) <-> In x a /\ ~ In x seen.
Proof.
  revert seen. induction a as [|y a IH]; intros seen; simpl; [tauto|].
  destruct (includes y seen) eqn:E.
  - apply includes_In in E. rewrite IH. split; [tauto|].
    intros [[<-|H] N]; [contradiction | tauto].
  - assert (N : ~ In y seen) by (rewrite <- includes_In; congruence).
    simpl. rewrite IH. simpl. split.
    + intros [<-|[H K]]; [tauto|]. tauto.
    + intros [[<-|H] K]; [now left|].
      destruct (string_dec y x) as [->|D]; [now left|]. right. tauto.
Qed.

Lemma uniqueFrom_NoDup (seen a : list string) : NoDup (uniqueFrom seen a).
Proof.
  revert seen. induction a as [|y a IH]; intros seen; simpl; [constructor|].
  destruct (includes y seen); [apply IH|].
  constructor; [|apply IH]. rewrite uniqueFrom_In. simpl. tauto.
Qed.

Lemma sorted_distinct_strict (l : list string) :
  NoDup l -> StronglySorted (fun a b => String.leb a b = true) l ->
  StronglySorted (fun a b => String.ltb a b = true) l.
Proof.
  intros N S. induction S as [|x l S IH F]; constructor.
  - apply IH. now apply NoDup_cons_iff in N.
  - apply NoDup_cons_iff in N as [N _]. rewrite Forall_forall in *.
    intros y Hy. specialize (F y Hy). apply leb_iff in F as [->|F];
      [contradiction|]. unfold String.ltb. now rewrite F.
Qed.

Lemma sortStrings_distinct (l : list string) :
  (forall x, In x (sortStrings (uniqueFrom [] l)) <-> In x l)
  /\ NoDup (sortStrings (uniqueFrom [] l))
  /\ StronglySorted (fun a b => String.ltb a b = true)
       (sortStrings (uniqueFrom [] l)).
Proof.
  assert (N : NoDup (sortStrings (uniqueFrom [] l))).
  { apply (Permutation_NoDup (l := uniqueFrom [] l)); [|apply uniqueFrom_NoDup].
    symmetry. apply stableSort_perm. }
  split; [|split; [exact N|]].
  - intros x. unfold sortStrings. rewrite stableSort_In, uniqueFrom_In. simpl. tauto.
  - apply sorted_distinct_strict; [exact N|].
    apply stableSort_sorted; [apply leb_false_total | apply leb_trans].
Qed.

(** X26. The lists of GET /meta/counties and GET /meta/waters: a text is
    listed exactly when it is not empty and is the trimmed county (water
    name) of some event, for the waters of an event that passes the county
    parameter, compared in upper case, when one is given; the texts are
    listed in their own case, each once, in strictly ascending order. *)
Theorem meta_lists_are_distinct_and_sorted :
  forall events qCounty,
    (forall c, In c (metaCounties events)
               <-> c <> "" /\ exists e, In e events /\ trim (county e) = c)
    /\ NoDup (metaCounties events)
    /\ StronglySorted (fun a b => String.ltb a b = true) (metaCounties events)
    /\ (forall x, In x (metaWaters qCounty events)
                  <-> x <> ""
                      /\ exists e, In e events /\ trim (water_name e) = x
                                   /\ (upperParam qCounty = ""
                                       \/ toUpperCase (trim (county e))
                                          = upperParam qCounty))
    /\ NoDup (metaWaters qCounty events)
    /\ StronglySorted (fun a b => String.ltb a b = true) (metaWaters qCounty events)
    /\ (forall x, In x (metaWaters qCounty events) -> In x (metaWaters None events)).
Proof.
  intros events q.
  assert (W : forall q x, In x (metaWaters q events)
                  <-> x <> ""
                      /\ exists e, In e events /\ trim (water_name e) = x
                                   /\ (upperParam q = ""
                                       \/ toUpperCase (trim (county e))
                                          = upperParam q)).
  { intros q0 x. unfold metaWaters. cbv zeta.
    rewrite (proj1 (sortStrings_distinct _)), filter_In, in_map_iff.
    rewrite negb_true_iff, isEmpty_false. split.
    - intros [(e & <- & He) Hx]. split; [exact Hx|]. apply filter_In in He as [He Hc].
      exists e. split; [exact He|]. split; [reflexivity|].
      destruct (upperParam q0) as [|a r] eqn:U; [now left|]. right.
      cbn [isEmpty] in Hc. now apply String.eqb_eq in Hc.
    - intros [Hx (e & He & <- & Hc)]. split; [|exact Hx].
      exists e. split; [reflexivity|]. apply filter_In. split; [exact He|].
      destruct Hc as [->|Hc]; [reflexivity|].
      destruct (isEmpty (upperParam q0)); [reflexivity | now apply String.eqb_eq]. }
  split; [|split; [|split; [|split; [exact (W q)|split; [|split]]]]].
  - intros c. unfold metaCounties.
    rewrite (proj1 (sortStrings_distinct _)), filter_In, in_map_iff.
    rewrite negb_true_iff, isEmpty_false. split.
    + intros [(e & <- & He) Hc]. split; [exact Hc | now exists e].
    + intros [Hc (e & He & <-)]. split; [now exists e | exact Hc].
  - apply sortStrings_distinct.
  - apply sortStrings_distinct.
  - apply sortStrings_distinct.
  - apply sortStrings_distinct.
  - intros x Hx. apply W in Hx as [Hx (e & He & Hw & _)]. apply W.
    split; [exact Hx|]. exists e. split; [exact He|]. split; [exact Hw | now left].
Qed.

Lemma meta_lists_are_distinct_and_sorted_witness :
  In "Green Lake"
    (metaWaters None [blueLakeEvent "t1"; greenLakeEvent "t2"; blueLakeEvent "t3"]).
Proof.
  apply (proj2 (proj2 (proj2 (proj2 (proj2 (proj2
           (meta_lists_are_distinct_and_sorted
              [blueLakeEvent "t1"; greenLakeEvent "t2"; blueLakeEvent "t3"]
              (Some "wasatch")))))))).
  apply (proj2 (proj1 (proj2 (proj2 (proj2
           (meta_lists_are_distinct_and_sorted
              [blueLakeEvent "t1"; greenLakeEvent "t2"; blueLakeEvent "t3"]
              (Some "wasatch"))))) "Green Lake")).
  split; [discriminate|]. exists (greenLakeEvent "t2").
  split; [right; now left|]. split; [reflexivity | right; reflexivity].
Defined.

(** ** The state of a request *)

Lemma upperParam_fixed (s : option string) :
  upperParam (Some (upperParam s)) = upperParam s.
Proof.
  rewrite upperParam_some. unfold upperParam.
  now rewrite toUpperCase_idem, <- toUpperCase_trim, trim_idem.
Qed.

Lemma normState_cases (s : option string) :
  (upperParam s = "" /\ normState s = "UT")
  \/ (upperParam s <> "" /\ normState s = upperParam s).
Proof.
  unfold normState. cbv zeta. destruct (upperParam s) as [|c r].
  - left. split; reflexivity.
  - right. split; [discriminate | reflexivity].
Qed.

(** X27. The state of a request is never empty, and normalising it again
    changes nothing, so that the routes, which normalise the parameter and
    pass it to getEventsForState, which normalises it once more, select as
    one normalisation does.  The Colorado events are selected exactly when
    the parameter, trimmed and in upper case, is CO; every other parameter,
    a missing or blank one included, selects the Utah events. *)
Theorem state_is_normalised_once :
  forall s,
    normState s <> ""
    /\ normState (Some (normState s)) = normState s
    /\ (upperParam s = "" -> normState s = "UT")
    /\ (forall (A : Type) (colorado utah : A),
          getEventsForState (Some (normState s)) colorado utah
          = getEventsForState s colorado utah)
    /\ (forall (A : Type) (colorado utah : A),
          (upperParam s = "CO" -> getEventsForState s colorado utah = colorado)
          /\ (upperParam s <> "CO" -> getEventsForState s colorado utah = utah)).
Proof.
  intros s.
  assert (I : normState (Some (normState s)) = normState s).
  { destruct (normState_cases s) as [[U ->]|[U ->]]; [reflexivity|].
    unfold normState. cbv zeta. rewrite upperParam_fixed.
    apply isEmpty_false in U. now rewrite U. }
  split; [|split; [exact I|split; [|split]]].
  - destruct (normState_cases s) as [[_ ->]|[U ->]]; [discriminate | exact U].
  - intros U. destruct (normState_cases s) as [[_ H]|[N _]]; [exact H | now elim N].
  - intros A co ut. unfold getEventsForState. now rewrite I.
  - intros A co ut. unfold getEventsForState.
    destruct (normState_cases s) as [[U ->]|[U ->]].
    + rewrite U. split; [discriminate | reflexivity].
    + split.
      * intros ->. reflexivity.
      * intros N. apply String.eqb_neq in N. now rewrite N.
Qed.

Lemma state_is_normalised_once_witness :
  getEventsForState (Some " co ") 1 2 = 1
  /\ getEventsForState (Some "Colorado") 1 2 = 2
  /\ normState None = "UT".
Proof.
  split; [|split].
  - destruct (state_is_normalised_once (Some " co ")) as (_ & _ & _ & _ & H).
    apply (proj1 (H nat 1 2)). reflexivity.
  - destruct (state_is_normalised_once (Some "Colorado")) as (_ & _ & _ & _ & H).
    apply (proj2 (H nat 1 2)). discriminate.
  - destruct (state_is_normalised_once None) as (_ & _ & H & _).
    apply H. reflexivity.
Defined.

(** ** The keys of the messages *)

Lemma append_same_length (a b x y : string) :
  length x = length y -> a ++ x = b ++ y -> a = b /\ x = y.
Proof.
  intros L H.
  assert (La : length a = length b).
  { apply (f_equal length) in H. rewrite !length_append in H. lia. }
  revert b H La. induction a as [|c a IH]; intros [|d b] H La;
    try discriminate La.
  - split; [reflexivity | exact H].
  - simpl in H. injection H as -> H. simpl in La.
    destruct (IH b H) as [-> E]; [lia|]. split; [reflexivity | exact E].
Qed.

Lemma messageKey_inj (m1 m2 : message) :
  length (data_eventId m1) = length (data_eventId m2) ->
  messageKey m1 = messageKey m2 ->
  to m1 = to m2 /\ data_eventId m1 = data_eventId m2.
Proof.
  intros L H. unfold messageKey in H.
  apply append_same_length in H as [Ht Hi]; [|simpl; now rewrite L].
  split; [exact Ht|]. now injection Hi.
Qed.

Lemma collectMessages_cons (ev : event) (evs : list event) (subs : list subscription) :
  collectMessages (ev :: evs) subs
  = (collectMessages [ev] subs ++ collectMessages evs subs)%list.
Proof. unfold collectMessages. simpl. now rewrite app_nil_r. Qed.

Lemma collectMessages_sub (ev : event) (sub : subscription) (subs : list subscription) :
  collectMessages [ev] (sub :: subs)
  = (collectMessages [ev] [sub] ++ collectMessages [ev] subs)%list.
Proof. unfold collectMessages. simpl. now rewrite !app_nil_r. Qed.

Lemma collectMessages_pair (ev : event) (sub : subscription) :
  collectMessages [ev] [sub] = [] \/ collectMessages [ev] [sub] = [messageFor ev sub].
Proof.
  unfold collectMessages. simpl.
  destruct (isEmpty (expo_push_token sub)); [now left|].
  destruct (matchesSubscription ev sub); simpl; [now right | now left].
Qed.

Lemma collectMessages_one_keys (ev : event) (subs : list subscription) :
  NoDup (map expo_push_token subs) ->
  NoDup (map messageKey (collectMessages [ev] subs)).
Proof.
  induction subs as [|sub subs IH]; intros N; [constructor|].
  simpl in N. apply NoDup_cons_iff in N as [N1 N2].
  rewrite collectMessages_sub, map_app.
  apply NoDup_app; [|now apply IH|].
  - destruct (collectMessages_pair ev sub) as [-> | ->];
      [constructor | constructor; [simpl; tauto | constructor]].
  - intros k Hk Hk'. apply in_map_iff in Hk as (m & <- & Hm).
    apply in_map_iff in Hk' as (m' & E & Hm').
    destruct (collectMessages_pair ev sub) as [P|P]; rewrite P in Hm;
      [contradiction|]. destruct Hm as [<-|[]].
    apply collectMessages_In in Hm' as (ev' & sub' & [<-|[]] & Hs' & _ & _ & ->).
    apply messageKey_inj in E as [E _]; [|reflexivity].
    apply N1. cbn [messageFor to] in E. rewrite <- E. now apply in_map.
Qed.

Lemma collectMessages_keys (evs : list event) (subs : list subscription) :
  NoDup (map id evs) -> NoDup (map expo_push_token subs) ->
  (forall e e', In e evs -> In e' evs -> length (id e) = length (id e')) ->
  NoDup (map messageKey (collectMessages evs subs)).
Proof.
  intros Ne Ns. induction evs as [|ev evs IH]; intros L; [constructor|].
  simpl in Ne. apply NoDup_cons_iff in Ne as [N1 N2].
  rewrite collectMessages_cons, map_app.
  apply NoDup_app.
  - now apply collectMessages_one_keys.
  - apply IH; [exact N2|]. intros e e' He He'. apply L; now right.
  - intros k Hk Hk'. apply in_map_iff in Hk as (m & <- & Hm).
    apply in_map_iff in Hk' as (m' & E & Hm').
    apply collectMessages_In in Hm as (e1 & s1 & [<-|[]] & _ & _ & _ & ->).
    apply collectMessages_In in Hm' as (e2 & s2 & H2 & _ & _ & _ & ->).
    apply messageKey_inj in E as [_ E].
    + cbn [messageFor data_eventId formatNotification n_eventId] in E.
      apply N1. rewrite <- E. now apply in_map.
    + cbn [messageFor data_eventId formatNotification n_eventId].
      apply L; [now right | now left].
Qed.

(** X28. Under what the tables guarantee, the de-duplication of the cycle
    drops nothing: for events with pairwise different identifiers of one
    length (the primary key, the identifiers being digests) and
    subscriptions with pairwise different tokens (the unique column), the
    messages collected already have pairwise different keys, and the batch
    after the de-duplication is the batch before it, one message for every
    matching pair of an event and a subscription with a non-empty token. *)
Theorem dedup_drops_nothing_under_the_keys :
  forall evs subs,
    NoDup (map id evs) ->
    NoDup (map expo_push_token subs) ->
    (forall e e', In e evs -> In e' evs -> length (id e) = length (id e')) ->
    NoDup (map messageKey (collectMessages evs subs))
    /\ dedupMessages (collectMessages evs subs) = collectMessages evs subs
    /\ (forall m, In m (dedupMessages (collectMessages evs subs))
                  <-> exists ev sub,
                        In ev evs /\ In sub subs /\ expo_push_token sub <> ""
                        /\ matchesSubscription ev sub = true
                        /\ m = messageFor ev sub).
Proof.
  intros evs subs Ne Ns L.
  pose proof (collectMessages_keys evs subs Ne Ns L) as K.
  assert (D : dedupMessages (collectMessages evs subs) = collectMessages evs subs).
  { rewrite dedupMessages_dedupInto, dedupInto_distinct by exact K.
    simpl. rewrite map_map. simpl. apply map_id. }
  split; [exact K|]. split; [exact D|].
  intros m. rewrite D. apply collectMessages_In.
Qed.

Lemma dedup_drops_nothing_under_the_keys_witness :
  dedupMessages
    (collectMessages [blueLakeEvent "t1"; greenLakeEvent "t2"] [tok1; noFilters "TOK2"])
  = collectMessages [blueLakeEvent "t1"; greenLakeEvent "t2"] [tok1; noFilters "TOK2"].
Proof.
  apply (proj1 (proj2
           (dedup_drops_nothing_under_the_keys
              [blueLakeEvent "t1"; greenLakeEvent "t2"] [tok1; noFilters "TOK2"]
              ltac:(constructor; [simpl; intros [H|[]]; discriminate H
                                 | constructor; [simpl; tauto | constructor]])
              ltac:(constructor; [simpl; intros [H|[]]; discriminate H
                                 | constructor; [simpl; tauto | constructor]])
              ltac:(intros e e' [<-|[<-|[]]] [<-|[<-|[]]]; reflexivity)))).
Defined.
